(** * kwo: keyword-only arguments for Python 2 and 3

    A shallow embedding of [kwo/__init__.py] and the properties of its
    decorator [with_kwonly].

    Python objects are modelled by the type [value]; function objects live
    in a heap and are referred to by their address, so that "the very same
    function object" is equality of addresses.  Raising is modelled by the
    error monad [result].  The text that [with_kwonly] hands to [compile]
    is built as a Rocq string, exactly as the source builds it, and a small
    model of the interpreter (lexer, parser, argument binding, name
    resolution) runs it. *)

From stdpp Require Import gmap strings list fin_maps.
From Stdlib Require Import ZArith Ascii DecimalString.

Open Scope string_scope.
Open Scope list_scope.

(** ** Python values *)

Unset Elimination Schemes.
#[warnings="-register-all"]
Inductive value : Type :=
| VNone
| VInt (n : Z)
| VStr (s : string)
| VTuple (items : list value)
| VList (items : list value)
| VDict (d : gmap string value)
| VFunc (addr : positive)            (* a function object, by identity *)
| VKwonly (default : value).         (* an instance of class kwonly *)
Set Elimination Schemes.

(** ** Exceptions and the error monad *)

Inductive exc_class :=
| AssertionError | AttributeError | TypeError | SyntaxError | IndexError
| ValueError | NameError | UnboundLocalError | RuntimeError
| OtherError (name : string).

(** [Exc cls args] is the exception of class [cls] built from the
    arguments [args]. *)
Inductive exception := Exc (cls : exc_class) (args : list value).

Inductive result (A : Type) :=
| Return (a : A)
| Raise (e : exception).
Arguments Return {A} a.
Arguments Raise {A} e.

#[global] Instance result_ret : MRet result := @Return.
#[global] Instance result_bind : MBind result := λ A B k m,
  match m with
  | Return a => k a
  | Raise e => Raise e
  end.

(** ** Strings as Python formats them *)

(** [sep.join(l)] *)
Fixpoint join (sep : string) (l : list string) : string :=
  match l with
  | [] => ""
  | [x] => x
  | x :: l' => x +:+ sep +:+ join sep l'
  end.

(** [repr] of a [str] that holds an identifier, which is all the source
    applies it to (parameter names): the text between single quotes, no
    character of an identifier being escaped. *)
Definition repr (s : string) : string := "'" +:+ s +:+ "'".

(** ['%d' % n] for a length. *)
Definition fmt_d (n : nat) : string := NilZero.string_of_uint (Nat.to_uint n).

(** [l[i]] with Python's negative indices; [None] stands for IndexError. *)
Definition py_index {A} (l : list A) (i : Z) : option A :=
  let n := Z.of_nat (length l) in
  if bool_decide (0 ≤ i < n)%Z then l !! Z.to_nat i
  else if bool_decide (- n ≤ i < 0)%Z then l !! Z.to_nat (n + i)
  else None.

(** ** The two sentinels

    [no_default] and [vararg] are module-level functions that are only
    ever compared by identity.  They live at fixed addresses of the heap. *)

Definition no_default_addr : positive := 1%positive.
Definition vararg_addr : positive := 2%positive.

Definition no_default : value := VFunc no_default_addr.
Definition vararg : value := VFunc vararg_addr.

(** [v is fn] for a function object [fn]. *)
Definition is_ (v fn : value) : bool :=
  match v, fn with
  | VFunc a, VFunc b => bool_decide (a = b)
  | _, _ => false
  end.

(** [isinstance(v, kwonly)] *)
Definition isinstance_kwonly (v : value) : bool :=
  match v with
  | VKwonly _ => true
  | _ => false
  end.

(** ** class kwonly *)

Module kwonly.

(** [__init__(self, default=no_default)]: the field is stored with
    [object.__setattr__], which the class's own [__setattr__] does not
    intercept. *)
Definition __init__ (dflt : option value) : result value :=
  Return (VKwonly (default no_default dflt)).

(** [self.default] *)
Definition get_default (self : value) : result value :=
  match self with
  | VKwonly d => Return d
  | _ => Raise (Exc AttributeError [VStr "default"])
  end.

(** [__setattr__(self, attr, value)]: the object after the assignment. *)
Definition __setattr__ (self : value) (attr : string) (v : value)
  : result value :=
  Raise (Exc AttributeError [VStr "kwonly objects are immutable"]).

End kwonly.

(** ** Function objects and the heap *)

(** The body that [compile] produces for the template's inner [function]:
    an optional statement [t1, ..., tn, = callee(arg)] followed by
    [return f(p1, ..., k1=v1, ..., **d)]. *)
Record wrapper_body := WrapperBody {
  wb_assign : option (list string * string * string);
  wb_callee : string;
  wb_call_args : list string;
  wb_call_keywords : list (string * string);
  wb_call_kwargs : option string;
}.

(** What a code object executes: either a body written elsewhere, given by
    its denotation on the local variables bound by the call, or a body
    synthesized by [with_kwonly]. *)
Inductive bytecode :=
| Native (impl : gmap string value → result value)
| Synthesized (body : wrapper_body).

Record code := Code {
  co_filename : string;
  co_name : string;
  co_firstlineno : Z;
  co_args : list string;              (* positional parameter names *)
  co_varargs : option string;         (* the name after the star, if any *)
  co_keywords : option string;        (* the name after the two stars, if any *)
  co_code : bytecode;
}.

(** The closure [extract_kwonlies] that a synthesized function reaches
    through its free variable: it holds [f] and [kwonly_defaults]. *)
Inductive cell :=
| ExtractKwonlies (f : value) (kwonly_defaults : list (string * value)).

Record function := Function {
  __name__ : string;
  __code__ : code;
  __defaults__ : option (list value);
  __globals__ : gmap string value;
  __closure__ : list (string * cell);
}.

(** The heap maps the address of a function object to the object. *)
Abbreviation heap := (gmap positive function).

(** [f.__name__] *)
Definition getattr_name (h : heap) (f : value) : result string :=
  match f with
  | VFunc a =>
      match h !! a with
      | Some fn => Return (__name__ fn)
      | None => Raise (Exc AttributeError [VStr "__name__"])
      end
  | _ => Raise (Exc AttributeError [VStr "__name__"])
  end.

(** ** extract_kwonlies

    The closure that the synthesized function calls on its keyword bag.
    [kwargs.pop(name, default)] changes the dictionary the caller holds, so
    the dictionary is threaded through and returned. *)

Definition pop (name : string) (dflt : value) (kwargs : gmap string value)
  : value * gmap string value :=
  (default dflt (kwargs !! name), delete name kwargs).

Record extract_state := ExtractState {
  es_kwargs : gmap string value;
  es_ret : list value;
  es_missing_kwonlies : list string;
}.

Definition extract_step (st : extract_state) (nd : string * value)
  : extract_state :=
  let '(v, kwargs') := pop nd.1 nd.2 (es_kwargs st) in
  if is_ v no_default
  then ExtractState kwargs' (es_ret st) (es_missing_kwonlies st ++ [nd.1])
  else ExtractState kwargs' (es_ret st ++ [v]) (es_missing_kwonlies st).

Definition extract_loop (kwonly_defaults : list (string * value))
  (kwargs : gmap string value) : extract_state :=
  foldl extract_step (ExtractState kwargs [] []) kwonly_defaults.

(** The text after the colon of the error message. *)
Definition missing_args (missing_kwonlies : list string) : result string :=
  let n_missing := length missing_kwonlies in
  if bool_decide (n_missing = 1) then
    match py_index missing_kwonlies 0 with
    | Some a => Return (repr a)
    | None => Raise (Exc IndexError [VStr "list index out of range"])
    end
  else if bool_decide (n_missing = 2) then
    match missing_kwonlies with
    | [a; b] => Return (repr a +:+ " and " +:+ repr b)
    | _ => Raise (Exc TypeError
                    [VStr "not all arguments converted during string formatting"])
    end
  else
    match py_index missing_kwonlies (-1) with
    | Some z =>
        Return (join ", and "
                  [join ", " (repr <$> removelast missing_kwonlies); repr z])
    | None => Raise (Exc IndexError [VStr "list index out of range"])
    end.

Definition extract_kwonlies (h : heap) (f : value)
  (kwonly_defaults : list (string * value)) (kwargs : gmap string value)
  : result (list value * gmap string value) :=
  let st := extract_loop kwonly_defaults kwargs in
  let missing_kwonlies := es_missing_kwonlies st in
  match missing_kwonlies with
  | [] => Return (es_ret st, es_kwargs st)
  | _ :: _ =>
      let n_missing := length missing_kwonlies in
      let plural := if bool_decide (n_missing = 1) then "" else "s" in
      args ← missing_args missing_kwonlies;
      fname ← getattr_name h f;
      Raise (Exc TypeError [VStr (
        fname +:+ "() missing " +:+ fmt_d n_missing
        +:+ " required keyword-only argument" +:+ plural +:+ ": " +:+ args)])
  end.

(** ** The environment of a decoration

    [with_kwonly] reads the file of the decorated function (for the text
    of its error messages) and draws random names with [uuid4]. *)

Record world := World {
  (* [open(filename).readlines()], absent when [open] raises IOError *)
  files : gmap string (list string);
  (* [uuid4().hex] of the draw made for the keyword bag's name, if made *)
  uuid_kwargs : string;
  (* [uuid4().hex] of the draw made for the name of [extract_kwonlies] *)
  uuid_extract_kwonlies : string;
}.

(** ['_%s_%s' % (uuid4().hex, name)] *)
Definition private_namespace (hex : string) (name : string) : string :=
  "_" +:+ hex +:+ "_" +:+ name.

(** ** inspect.getargspec *)

Record ArgSpec := MkArgSpec {
  args : list string;
  varargs : option string;
  keywords : option string;
  defaults : option (list value);
}.

Definition argspec_of (fn : function) : ArgSpec :=
  MkArgSpec (co_args (__code__ fn)) (co_varargs (__code__ fn))
            (co_keywords (__code__ fn)) (__defaults__ fn).

Definition getargspec (h : heap) (f : value) : result (function * ArgSpec) :=
  match f with
  | VFunc a =>
      match h !! a with
      | Some fn => Return (fn, argspec_of fn)
      | None => Raise (Exc TypeError [VStr "arg is not a Python function"])
      end
  | _ => Raise (Exc TypeError [VStr "arg is not a Python function"])
  end.

(** [zip_longest(xs, ys, fillvalue=...)].  The fill value of the source is
    [no_default]; on the side of the names it is never used, a function
    having at most as many defaults as positional parameters, and is
    given separately here because names are strings. *)
Fixpoint zip_longest {A B} (xs : list A) (ys : list B) (fa : A) (fb : B)
  : list (A * B) :=
  match xs with
  | [] => (λ y, (fa, y)) <$> ys
  | x :: xs' =>
      match ys with
      | [] => (x, fb) :: zip_longest xs' [] fa fb
      | y :: ys' => (x, y) :: zip_longest xs' ys' fa fb
      end
  end.

(** The truth value of a name or [None]. *)
Definition truthy (o : option string) : bool :=
  match o with
  | Some s => negb (bool_decide (s = ""))
  | None => false
  end.

Definition is_not_None {A} (o : option A) : bool :=
  match o with
  | Some _ => true
  | None => false
  end.

(** ** _format_syntax_error *)

Definition read_line (w : world) (filename : string) (lno : Z)
  : result string :=
  match files w !! filename with
  | Some lines =>
      match py_index lines (lno - 1) with
      | Some line => Return line
      | None => Raise (Exc IndexError [VStr "list index out of range"])
      end
  | None => Return "???"
  end.

Definition _format_syntax_error (w : world) (f : function) (msg : string)
  : result exception :=
  let code := __code__ f in
  let filename := co_filename code in
  let lno := co_firstlineno code in
  line ← read_line w filename lno;
  Return (Exc SyntaxError
            [VStr msg;
             VTuple [VStr filename; VInt lno;
                     VInt (Z.of_nat (String.length line)); VStr line]]).

(** [raise _format_syntax_error(f, msg)] *)
Definition raise_syntax_error {A} (w : world) (f : function) (msg : string)
  : result A :=
  e ← _format_syntax_error w f msg;
  Raise e.

(** ** The walk over the parameters *)

Record walk_state := WalkState {
  kwonly_defaults : list (string * value);
  found_kwonly : option string;
  found_vararg : option string;
  real_vararg : bool;
}.

Definition walk_step (w : world) (f : function) (st : walk_state)
  (nv : string * value) : result walk_state :=
  let '(name, v) := nv in
  if isinstance_kwonly v then
    d ← kwonly.get_default v;
    Return (WalkState (kwonly_defaults st ++ [(name, d)]) (Some name)
                      (found_vararg st) (real_vararg st))
  else if is_ v vararg then
    if is_not_None (found_vararg st) then
      raise_syntax_error w f "duplicate 'vararg' arguments"
    else
      Return (WalkState (kwonly_defaults st) (found_kwonly st)
                        (Some name) false)
  else if is_not_None (found_vararg st) && negb (real_vararg st) then
    raise_syntax_error w f
      ("non keyword only argument " +:+ repr name +:+ " follows vararg "
       +:+ repr (default "" (found_vararg st)))
  else if truthy (found_kwonly st) then
    raise_syntax_error w f
      ("non keyword only argument " +:+ repr name
       +:+ " follows keyword argument "
       +:+ repr (default "" (found_kwonly st)))
  else Return st.

Fixpoint walk (w : world) (f : function) (st : walk_state)
  (l : list (string * value)) : result walk_state :=
  match l with
  | [] => Return st
  | nv :: l' => st' ← walk_step w f st nv; walk w f st' l'
  end.

(** The pairs the loop of [with_kwonly] runs over: every positional
    parameter with its default, [no_default] where it has none. *)
Definition paired_defaults (argspec : ArgSpec) : list (string * value) :=
  reverse (zip_longest (reverse (args argspec))
                       (reverse (default [] (defaults argspec)))
                       "" no_default).

Definition initial_walk_state (argspec : ArgSpec) : walk_state :=
  WalkState [] None (varargs argspec) (is_not_None (varargs argspec)).

(** ** The text handed to [compile]

    The template of the source has four holes; the text is kept as the
    four strings that fill them, each built as the source builds it. *)

Record source_code := SourceCode {
  sc_extract_kwonlies : string;
  sc_wrapper_argspec : string;
  sc_assign_kwonlies : string;
  sc_call_sig : string;
}.

(** The whole text, after [dedent] and [format]. *)
Definition source_text (src : source_code) : list string :=
  [ "def make_function(" +:+ sc_extract_kwonlies src +:+ "=extract_kwonlies):";
    "    def function(" +:+ sc_wrapper_argspec src +:+ "):";
    "        " +:+ sc_assign_kwonlies src;
    "        return f(" +:+ sc_call_sig src +:+ ")";
    "    return function" ].

(** ** A model of [compile] on the template

    Lexing: names, commas, stars, the equals sign and parentheses. *)

Inductive token :=
| TName (s : string)
| TComma | TStar | TDStar | TEq | TLParen | TRParen.

Definition is_digit (c : ascii) : bool :=
  let n := N_of_ascii c in (48 <=? n)%N && (n <=? 57)%N.

Definition is_name_char (c : ascii) : bool :=
  let n := N_of_ascii c in
  ((97 <=? n)%N && (n <=? 122)%N) || ((65 <=? n)%N && (n <=? 90)%N)
  || (n =? 95)%N || is_digit c.

Fixpoint all_name_chars (s : string) : bool :=
  match s with
  | EmptyString => true
  | String c s' => is_name_char c && all_name_chars s'
  end.

(** A name of the grammar: letters, digits and underscores, not starting
    with a digit. *)
Definition is_identifier (s : string) : bool :=
  match s with
  | EmptyString => false
  | String c _ => negb (is_digit c) && all_name_chars s
  end.

Definition symbol (c : ascii) : option token :=
  if Ascii.eqb c "," then Some TComma
  else if Ascii.eqb c "=" then Some TEq
  else if Ascii.eqb c "(" then Some TLParen
  else if Ascii.eqb c ")" then Some TRParen
  else None.

(** Ends the name being read, if any. *)
Definition flush (cur : string) (ts : list token) : list token :=
  match cur with
  | EmptyString => ts
  | String _ _ => TName cur :: ts
  end.

Fixpoint lex_go (s : string) (cur : string) : option (list token) :=
  match s with
  | EmptyString => Some (flush cur [])
  | String c s' =>
      if is_name_char c then lex_go s' (cur +:+ String c EmptyString)
      else if Ascii.eqb c " " then flush cur <$> lex_go s' ""
      else if Ascii.eqb c "*" then
        match s' with
        | String c2 s'' =>
            if Ascii.eqb c2 "*"
            then (λ ts, flush cur (TDStar :: ts)) <$> lex_go s'' ""
            else (λ ts, flush cur (TStar :: ts)) <$> lex_go s' ""
        | EmptyString => (λ ts, flush cur (TStar :: ts)) <$> lex_go s' ""
        end
      else
        match symbol c with
        | Some t => (λ ts, flush cur (t :: ts)) <$> lex_go s' ""
        | None => None
        end
  end.

Definition lex (s : string) : option (list token) := lex_go s "".

(** The items between the commas of a token list. *)
Fixpoint split_commas (ts : list token) : list (list token) :=
  match ts with
  | [] => [[]]
  | TComma :: ts' => [] :: split_commas ts'
  | t :: ts' =>
      match split_commas ts' with
      | item :: items => (t :: item) :: items
      | [] => [[t]]
      end
  end.

(** Parameters of a [def]: plain names, then at most one starred name,
    then at most one doubly starred name. *)
Inductive param := PPlain (n : string) | PStar (n : string) | PDStar (n : string).

Definition parse_param (item : list token) : option param :=
  match item with
  | [TName n] => if is_identifier n then Some (PPlain n) else None
  | [TStar; TName n] => if is_identifier n then Some (PStar n) else None
  | [TDStar; TName n] => if is_identifier n then Some (PDStar n) else None
  | _ => None
  end.

Fixpoint arrange_params (ps : list param)
  : option (list string * option string * option string) :=
  match ps with
  | [] => Some ([], None, None)
  | PPlain n :: ps' =>
      '(a, v, k) ← arrange_params ps'; Some (n :: a, v, k)
  | PStar n :: ps' =>
      match arrange_params ps' with
      | Some ([], None, k) => Some ([], Some n, k)
      | _ => None
      end
  | PDStar n :: ps' =>
      match ps' with
      | [] => Some ([], None, Some n)
      | _ :: _ => None
      end
  end.

Definition parse_params (text : string)
  : option (list string * option string * option string) :=
  ts ← lex text;
  match ts with
  | [] => Some ([], None, None)
  | _ :: _ =>
      ps ← mapM parse_param (split_commas ts);
      '(a, v, k) ← arrange_params ps;
      if bool_decide (NoDup (a ++ option_list v ++ option_list k))
      then Some (a, v, k) else None
  end.

(** Arguments of a call: names, then [name=name] pairs, then at most one
    doubly starred name. *)
Inductive argument :=
| APos (n : string) | AKeyword (k n : string) | ADStar (n : string).

Definition parse_argument (item : list token) : option argument :=
  match item with
  | [TName n] => if is_identifier n then Some (APos n) else None
  | [TName k; TEq; TName n] =>
      if is_identifier k && is_identifier n then Some (AKeyword k n) else None
  | [TDStar; TName n] => if is_identifier n then Some (ADStar n) else None
  | _ => None
  end.

Fixpoint arrange_arguments (l : list argument)
  : option (list string * list (string * string) * option string) :=
  match l with
  | [] => Some ([], [], None)
  | APos n :: l' =>
      '(p, ks, d) ← arrange_arguments l'; Some (n :: p, ks, d)
  | AKeyword k n :: l' =>
      match arrange_arguments l' with
      | Some ([], ks, d) => Some ([], (k, n) :: ks, d)
      | _ => None
      end
  | ADStar n :: l' =>
      match l' with
      | [] => Some ([], [], Some n)
      | _ :: _ => None
      end
  end.

Definition parse_call_args (text : string)
  : option (list string * list (string * string) * option string) :=
  ts ← lex text;
  match ts with
  | [] => Some ([], [], None)
  | _ :: _ =>
      l ← mapM parse_argument (split_commas ts);
      '(p, ks, d) ← arrange_arguments l;
      if bool_decide (NoDup (ks.*1)) then Some (p, ks, d) else None
  end.

(** The statement [t1, ..., tn, = callee(arg)], or nothing. *)
Fixpoint split_eq (ts : list token) : option (list token * list token) :=
  match ts with
  | [] => None
  | TEq :: ts' => Some ([], ts')
  | t :: ts' => '(l, r) ← split_eq ts'; Some (t :: l, r)
  end.

Definition parse_target (item : list token) : option string :=
  match item with
  | [TName n] => if is_identifier n then Some n else None
  | _ => None
  end.

Definition parse_targets (ts : list token) : option (list string) :=
  let items := split_commas ts in
  match last items, removelast items with
  | Some [], (_ :: _) as names => mapM parse_target names
  | _, _ => None
  end.

Definition parse_assign (text : string)
  : option (option (list string * string * string)) :=
  ts ← lex text;
  match ts with
  | [] => Some None
  | _ :: _ =>
      '(lhs, rhs) ← split_eq ts;
      targets ← parse_targets lhs;
      match rhs with
      | [TName callee; TLParen; TName arg; TRParen] =>
          if is_identifier callee && is_identifier arg
          then Some (Some (targets, callee, arg)) else None
      | _ => None
      end
  end.

Definition parse_name (text : string) : option string :=
  ts ← lex text;
  match ts with
  | [TName n] => if is_identifier n then Some n else None
  | _ => None
  end.

(** [compile(source_code, filename, 'exec')], then [exec] and the call of
    [make_function]: the code object of the inner [function], whose [def]
    is on the second line of the text.  A text outside the grammar raises
    the SyntaxError of the interpreter, whose position details are not
    modelled. *)
Definition compile (src : source_code) (filename : string) : result code :=
  match parse_name (sc_extract_kwonlies src),
        parse_params (sc_wrapper_argspec src),
        parse_assign (sc_assign_kwonlies src),
        parse_call_args (sc_call_sig src) with
  | Some _, Some (a, v, k), Some assign, Some (p, ks, d) =>
      Return (Code filename "function" 2 a v k
                (Synthesized (WrapperBody assign "f" p ks d)))
  | _, _, _, _ => Raise (Exc SyntaxError [VStr "invalid syntax"])
  end.

(** ** Calling a function object

    The binding of the arguments of a call to the parameters of a
    function is the interpreter's.  Every mismatch raises a TypeError;
    the text of the interpreter's message is not modelled. *)

Definition arg_error (fname : string) : exception :=
  Exc TypeError
    [VStr (fname +:+ "() got arguments that do not match its signature")].

(** The default of the [i]-th positional parameter: the defaults belong
    to the last parameters. *)
Definition default_for (sp : ArgSpec) (i : nat) : option value :=
  let dflts := default [] (defaults sp) in
  let off := length (args sp) - length dflts in
  if bool_decide (i < off) then None else dflts !! (i - off).

(** The parameters not given by position, from the keywords or else the
    defaults; [i] is the index of the first of them. *)
Fixpoint bind_rest (sp : ArgSpec) (kw : gmap string value) (i : nat)
  (names : list string) : option (list (string * value)) :=
  match names with
  | [] => Some []
  | n :: names' =>
      v ← match kw !! n with
          | Some v => Some v
          | None => default_for sp i
          end;
      rest ← bind_rest sp kw (S i) names';
      Some ((n, v) :: rest)
  end.

Definition bind_opt (name : option string) (v : value)
  (locals : gmap string value) : gmap string value :=
  match name with
  | Some n => <[n := v]> locals
  | None => locals
  end.

Definition bind_args (fn : function) (pos : list value)
  (kw : gmap string value) : result (gmap string value) :=
  let sp := argspec_of fn in
  let a := args sp in
  let given := take (length pos) a in
  let extras := drop (length a) pos in
  let extra_kw := filter (λ kv, kv.1 ∉ a) kw in
  if bool_decide (Exists (λ n, is_Some (kw !! n)) given)
  then Raise (arg_error (co_name (__code__ fn)))
  else if negb (bool_decide (dom extra_kw = ∅))
          && negb (is_not_None (keywords sp))
  then Raise (arg_error (co_name (__code__ fn)))
  else if bool_decide (length a < length pos)
          && negb (is_not_None (varargs sp))
  then Raise (arg_error (co_name (__code__ fn)))
  else
    match bind_rest sp kw (length pos) (drop (length pos) a) with
    | None => Raise (arg_error (co_name (__code__ fn)))
    | Some rest =>
        Return (bind_opt (keywords sp) (VDict extra_kw)
                 (bind_opt (varargs sp) (VTuple extras)
                   (list_to_map (zip given pos ++ rest))))
    end.

(** *** Running a synthesized body *)

(** The names that are local to the synthesized function: its parameters
    and the targets of its assignment. *)
Definition local_names (c : code) (body : wrapper_body) : list string :=
  co_args c ++ option_list (co_varargs c) ++ option_list (co_keywords c)
  ++ match wb_assign body with
     | Some (targets, _, _) => targets
     | None => []
     end.

(** Reading a name as a value: a local variable, or else a global. *)
Definition read_name (fn : function) (body : wrapper_body)
  (locals : gmap string value) (x : string) : result value :=
  if bool_decide (x ∈ local_names (__code__ fn) body) then
    match locals !! x with
    | Some v => Return v
    | None =>
        Raise (Exc UnboundLocalError
                 [VStr ("local variable " +:+ repr x
                        +:+ " referenced before assignment")])
    end
  else
    match __globals__ fn !! x with
    | Some v => Return v
    | None =>
        Raise (Exc NameError [VStr ("name " +:+ repr x +:+ " is not defined")])
    end.

Fixpoint lookup_cell (cells : list (string * cell)) (x : string)
  : option cell :=
  match cells with
  | [] => None
  | (n, c) :: cells' =>
      if bool_decide (n = x) then Some c else lookup_cell cells' x
  end.

(** [t1, ..., tn, = seq] *)
Definition unpack (targets : list string) (seq : list value)
  (locals : gmap string value) : result (gmap string value) :=
  if bool_decide (length targets = length seq)
  then Return (foldl (λ m tv, <[tv.1 := tv.2]> m) locals (zip targets seq))
  else Raise (Exc ValueError [VStr "wrong number of values to unpack"]).

Definition items_of (v : value) : result (list value) :=
  match v with
  | VTuple l | VList l => Return l
  | _ => Raise (Exc TypeError [VStr "object is not iterable"])
  end.

Fixpoint read_names (fn : function) (body : wrapper_body)
  (locals : gmap string value) (xs : list string) : result (list value) :=
  match xs with
  | [] => Return []
  | x :: xs' =>
      v ← read_name fn body locals x;
      vs ← read_names fn body locals xs';
      Return (v :: vs)
  end.

Fixpoint read_keywords (fn : function) (body : wrapper_body)
  (locals : gmap string value) (ks : list (string * string))
  : result (list (string * value)) :=
  match ks with
  | [] => Return []
  | (k, x) :: ks' =>
      v ← read_name fn body locals x;
      vs ← read_keywords fn body locals ks';
      Return ((k, v) :: vs)
  end.

(** The keyword arguments of a call [g(..., k=v, ..., **d)]. *)
Definition merge_keywords (explicit : list (string * value))
  (d : gmap string value) : result (gmap string value) :=
  if bool_decide (Exists (λ k, is_Some (d !! k)) (explicit.*1))
  then Raise (Exc TypeError
                [VStr "got multiple values for keyword argument"])
  else Return (list_to_map explicit ∪ d).

Section run.

(** How a value is called: the interpreter, one frame deeper. *)
Variable call : value → list value → gmap string value → result value.
Variable h : heap.

(** The first statement of the synthesized body.  The dictionary that
    [extract_kwonlies] pops from is the one the local variable [arg]
    holds: the variable sees the change. *)
Definition run_assign (fn : function) (body : wrapper_body)
  (locals : gmap string value) : result (gmap string value) :=
  match wb_assign body with
  | None => Return locals
  | Some (targets, callee, arg) =>
      if bool_decide (callee ∈ local_names (__code__ fn) body) then
        g ← read_name fn body locals callee;
        a ← read_name fn body locals arg;
        r ← call g [a] ∅;
        seq ← items_of r;
        unpack targets seq locals
      else
        match lookup_cell (__closure__ fn) callee with
        | Some (ExtractKwonlies f kwonly_defaults) =>
            a ← read_name fn body locals arg;
            match a with
            | VDict kwargs =>
                '(ret, kwargs') ← extract_kwonlies h f kwonly_defaults kwargs;
                let locals' :=
                  if bool_decide (arg ∈ local_names (__code__ fn) body)
                  then <[arg := VDict kwargs']> locals else locals in
                unpack targets ret locals'
            | _ => Raise (Exc AttributeError [VStr "pop"])
            end
        | None =>
            g ← read_name fn body locals callee;
            a ← read_name fn body locals arg;
            r ← call g [a] ∅;
            seq ← items_of r;
            unpack targets seq locals
        end
  end.

(** [return f(p1, ..., k1=v1, ..., **d)] *)
Definition run_return (fn : function) (body : wrapper_body)
  (locals : gmap string value) : result value :=
  g ← read_name fn body locals (wb_callee body);
  pos ← read_names fn body locals (wb_call_args body);
  explicit ← read_keywords fn body locals (wb_call_keywords body);
  d ← match wb_call_kwargs body with
      | None => Return ∅
      | Some x =>
          v ← read_name fn body locals x;
          match v with
          | VDict d => Return d
          | _ => Raise (Exc TypeError
                          [VStr "argument after ** must be a mapping"])
          end
      end;
  kw ← merge_keywords explicit d;
  call g pos kw.

Definition run_wrapper (fn : function) (body : wrapper_body)
  (locals : gmap string value) : result value :=
  locals' ← run_assign fn body locals;
  run_return fn body locals'.

End run.

(** The name of the type of a value, as error messages show it. *)
Definition type_name (v : value) : string :=
  match v with
  | VNone => "NoneType"
  | VInt _ => "int"
  | VStr _ => "str"
  | VTuple _ => "tuple"
  | VList _ => "list"
  | VDict _ => "dict"
  | VFunc _ => "function"
  | VKwonly _ => "kwonly"
  end.

Definition not_callable (v : value) : exception :=
  Exc TypeError [VStr (repr (type_name v) +:+ " object is not callable")].

(** The call of [v] on the positional arguments [pos] and the keyword
    arguments [kw], with [fuel] frames left before the interpreter gives
    up on the depth of the recursion. *)
Fixpoint call_value (fuel : nat) (h : heap) (v : value) (pos : list value)
  (kw : gmap string value) : result value :=
  match fuel with
  | O => Raise (Exc RuntimeError [VStr "maximum recursion depth exceeded"])
  | S fuel' =>
      match v with
      | VFunc a =>
          match h !! a with
          | Some fn =>
              locals ← bind_args fn pos kw;
              match co_code (__code__ fn) with
              | Native impl => impl locals
              | Synthesized body =>
                  run_wrapper (call_value fuel' h) h fn body locals
              end
          | None => Raise (not_callable v)
          end
      | _ => Raise (not_callable v)
      end
  end.

(** ** with_kwonly *)

(** The body of [with_kwonly] after its loop: [st] holds the variables
    the loop has set. *)
Definition with_kwonly_after_walk (w : world) (h : heap) (f : value)
  (fn : function) (argspec : ArgSpec) (st : walk_state)
  : result (heap * value) :=
  let kwonly_defaults := kwonly_defaults st in
  let found_kwonly := found_kwonly st in
  let found_vararg := found_vararg st in
  if negb (is_not_None found_kwonly)
     && bool_decide (found_vararg = varargs argspec)
  then
    (* fast path when we have no kwonly args to process *)
    Return (h, f)
  else
    let kwonly_names := kwonly_defaults.*1 in
    let wrapper_argspec_str :=
      join ", " (filter (λ arg, (arg ∉ kwonly_names) ∧ (found_vararg ≠ Some arg))
                        (args argspec)) in
    let call_sig_str := wrapper_argspec_str in
    let '(call_sig_str, wrapper_argspec_str) :=
      if truthy found_vararg then
        let added := ", *" +:+ default "" found_vararg in
        (call_sig_str +:+ ", " +:+ default "" found_vararg,
         wrapper_argspec_str +:+ added)
      else (call_sig_str, wrapper_argspec_str) in
    let call_sig_str :=
      call_sig_str +:+ ", "
      +:+ join ", " ((λ n, n +:+ "=" +:+ n) <$> kwonly_names) in
    let kwargname :=
      if truthy (keywords argspec) then default "" (keywords argspec)
      else private_namespace (uuid_kwargs w) "kwargs" in
    let added := ", **" +:+ kwargname in
    let call_sig_str := call_sig_str +:+ added in
    let wrapper_argspec_str := wrapper_argspec_str +:+ added in
    let extract_kwonlies_name :=
      private_namespace (uuid_extract_kwonlies w) "extract_kwonlies" in
    let source_code :=
      SourceCode extract_kwonlies_name wrapper_argspec_str
        (match kwonly_defaults with
         | _ :: _ =>
             join ", " kwonly_names +:+ ", = " +:+ extract_kwonlies_name
             +:+ "(" +:+ kwargname +:+ ")"
         | [] => ""
         end)
        call_sig_str in
    (* of the names of [ns], the synthesized body can only read [f] *)
    let ns : gmap string value := {[ "f" := f ]} in
    compiled ← compile source_code (co_filename (__code__ fn));
    (* ns['make_function'](), then wraps(f) *)
    let new_f :=
      Function (__name__ fn) compiled None ns
        [(extract_kwonlies_name, ExtractKwonlies f kwonly_defaults)] in
    let code := __code__ new_f in
    let new_code :=
      Code (co_filename code) (co_name (__code__ fn))
           (co_firstlineno (__code__ fn)) (co_args code) (co_varargs code)
           (co_keywords code) (co_code code) in
    let new_f :=
      Function (__name__ new_f) new_code (__defaults__ new_f)
               (__globals__ new_f) (__closure__ new_f) in
    (* the new function object is allocated at an unused address *)
    let addr := fresh (dom h) in
    Return (<[addr := new_f]> h, VFunc addr).

Definition with_kwonly (w : world) (h : heap) (f : value)
  : result (heap * value) :=
  '(fn, argspec) ← getargspec h f;
  st ← walk w fn (initial_walk_state argspec) (paired_defaults argspec);
  with_kwonly_after_walk w h f fn argspec st.

(** ** The objects of the module *)

Definition sentinel_function (name : string) (lineno : Z) (msg : string)
  : function :=
  Function name
    (Code "kwo/__init__.py" name lineno [] None None
          (Native (λ _, Raise (Exc AssertionError [VStr msg]))))
    None ∅ [].

Definition no_default_function : function :=
  sentinel_function "no_default" 56
    "no_default is just a sentinel, why are you calling this?".

Definition vararg_function : function :=
  sentinel_function "vararg" 69
    "vararg is just a sentinel, why are you calling this?".

(** A heap in which the module has been imported. *)
Definition module_loaded (h : heap) : Prop :=
  h !! no_default_addr = Some no_default_function
  ∧ h !! vararg_addr = Some vararg_function.

Definition kwo_module : heap :=
  <[no_default_addr := no_default_function]>
    (<[vararg_addr := vararg_function]> ∅).

(** ** Vocabulary of the statements *)

(** A plain parameter: its default, if any, is neither a [kwonly] object
    nor the marker [vararg]. *)
Definition is_plain (v : value) : bool :=
  negb (isinstance_kwonly v) && negb (is_ v vararg).

Definition plain_param (nv : string * value) : Prop := is_plain nv.2 = true.
Definition kwonly_param (nv : string * value) : Prop :=
  isinstance_kwonly nv.2 = true.

(** The default recorded for a keyword-only parameter. *)
Definition recorded_default (nv : string * value) : string * value :=
  (nv.1, match nv.2 with VKwonly d => d | _ => VNone end).

(** The result is a SyntaxError whose message starts with [p]. *)
Definition raises_syntax_error_starting {A} (r : result A) (p : string)
  : Prop :=
  ∃ msg rest, r = Raise (Exc SyntaxError (VStr msg :: rest))
              ∧ String.prefix p msg = true.

(** The SyntaxError built by [_format_syntax_error] for [fn]. *)
Definition syntax_error_of (fn : function) (msg line : string) : exception :=
  Exc SyntaxError
    [VStr msg;
     VTuple [VStr (co_filename (__code__ fn));
             VInt (co_firstlineno (__code__ fn));
             VInt (Z.of_nat (String.length line)); VStr line]].

(** ** Functions used as examples *)

(** A body that returns the tuple of the given local variables. *)
Definition returns_locals (names : list string) : bytecode :=
  Native (λ locals, Return (VTuple ((λ n, default VNone (locals !! n)) <$> names))).

(** A function defined in the file "example.py", on its first line. *)
Definition def_ (name : string) (params : list string)
  (star dstar : option string) (dflts : option (list value))
  (body : bytecode) : function :=
  Function name (Code "example.py" name 1 params star dstar body) dflts ∅ [].

Definition example_addr : positive := 10%positive.

Definition example_heap (fn : function) : heap :=
  <[example_addr := fn]> kwo_module.

Definition example_world : world :=
  World {[ "example.py" := ["def f(...):"; "    pass"] ]}
        "0123456789abcdef0123456789abcdef"
        "fedcba9876543210fedcba9876543210".

(** [def f(a=kwonly(), b=2)], of the test suite. *)
Definition f_plain_after_kwonly : function :=
  def_ "f" ["a"; "b"] None None (Some [VKwonly no_default; VInt 2])
       (returns_locals []).

(** [def f(a=vararg, b=2)], of the test suite. *)
Definition f_plain_after_vararg : function :=
  def_ "f" ["a"; "b"] None None (Some [vararg; VInt 2]) (returns_locals []).

(** [def f(a=vararg, b=vararg)], of the test suite. *)
Definition f_duplicate_vararg : function :=
  def_ "f" ["a"; "b"] None None (Some [vararg; vararg]) (returns_locals []).

(** [def f(a=vararg, b=kwonly(), c=2)] *)
Definition f_plain_after_both : function :=
  def_ "f" ["a"; "b"; "c"] None None
       (Some [vararg; VKwonly no_default; VInt 2]) (returns_locals []).

(** [def f(a=vararg, b=vararg, c=2)] *)
Definition f_plain_after_two_varargs : function :=
  def_ "f" ["a"; "b"; "c"] None None (Some [vararg; vararg; VInt 2])
       (returns_locals []).

(** [def f(a=vararg, c=2, b=vararg)] *)
Definition f_plain_between_varargs : function :=
  def_ "f" ["a"; "c"; "b"] None None (Some [vararg; VInt 2; vararg])
       (returns_locals []).

(** [def f(x, y=1, *rest, **kw)]: nothing to rewrite. *)
Definition f_nothing_to_do : function :=
  def_ "f" ["x"; "y"] (Some "rest") (Some "kw") (Some [VInt 1])
       (returns_locals ["x"; "y"; "rest"; "kw"]).

(** ** The function that [with_kwonly] synthesizes *)

(** The parameters left to the synthesized function as positional. *)
Definition plain_names (argspec : ArgSpec) (st : walk_state) : list string :=
  filter (λ arg, (arg ∉ (kwonly_defaults st).*1) ∧ (found_vararg st ≠ Some arg))
         (args argspec).

(** The name of the keyword bag of the synthesized function. *)
Definition kwargname_of (w : world) (argspec : ArgSpec) : string :=
  if truthy (keywords argspec) then default "" (keywords argspec)
  else private_namespace (uuid_kwargs w) "kwargs".

Definition extract_name_of (w : world) : string :=
  private_namespace (uuid_extract_kwonlies w) "extract_kwonlies".

(** The function object built for [f], the function object [fn], after a
    walk that ended in [st]. *)
Definition synthesized (w : world) (f : value) (fn : function)
  (st : walk_state) : function :=
  let argspec := argspec_of fn in
  let names := (kwonly_defaults st).*1 in
  let kwargname := kwargname_of w argspec in
  Function (__name__ fn)
    (Code (co_filename (__code__ fn)) (co_name (__code__ fn))
          (co_firstlineno (__code__ fn))
          (plain_names argspec st) (found_vararg st) (Some kwargname)
          (Synthesized
             (WrapperBody
                (Some (names, extract_name_of w, kwargname)) "f"
                (plain_names argspec st ++ option_list (found_vararg st))
                ((λ n, (n, n)) <$> names) (Some kwargname))))
    None {[ "f" := f ]}
    [(extract_name_of w, ExtractKwonlies f (kwonly_defaults st))].

(** All the names a function declares. *)
Definition declared_names (argspec : ArgSpec) : list string :=
  args argspec ++ option_list (varargs argspec)
  ++ option_list (keywords argspec).

(** What the interpreter guarantees of a function object (its names are
    distinct identifiers, its defaults belong to positional parameters)
    and what the random names are drawn for (they are made of the
    characters of names and collide with no declared name). *)
Definition well_formed (w : world) (fn : function) : Prop :=
  let argspec := argspec_of fn in
  Forall (λ n, is_identifier n = true) (declared_names argspec)
  ∧ NoDup (declared_names argspec)
  ∧ (length (default [] (defaults argspec)) ≤ length (args argspec))%nat
  ∧ all_name_chars (uuid_kwargs w) = true
  ∧ all_name_chars (uuid_extract_kwonlies w) = true
  ∧ (kwargname_of w argspec
     ∉ (args argspec ++ option_list (varargs argspec))%list)
  ∧ (extract_name_of w
     ∉ (kwargname_of w argspec
        :: args argspec ++ option_list (varargs argspec))%list).

(** ** The error for missing keyword-only arguments, as the
    specification words it *)

(** The value a keyword-only parameter resolves to: the value supplied by
    the caller, or else the recorded default. *)
Definition resolved (kwargs : gmap string value) (nd : string * value)
  : value :=
  default nd.2 (kwargs !! nd.1).

(** The parameters that resolve to the sentinel, in declaration order. *)
Definition unresolved (kwonly_defaults : list (string * value))
  (kwargs : gmap string value) : list string :=
  (filter (λ nd, is_ (resolved kwargs nd) no_default = true)
          kwonly_defaults).*1.

(** The values of the parameters that do not resolve to the sentinel. *)
Definition resolved_values (kwonly_defaults : list (string * value))
  (kwargs : gmap string value) : list value :=
  resolved kwargs
    <$> filter (λ nd, is_ (resolved kwargs nd) no_default ≠ true)
               kwonly_defaults.

(** The parameters with neither a value supplied by the caller nor a
    recorded default, in declaration order. *)
Definition neither_supplied_nor_defaulted
  (kwonly_defaults : list (string * value)) (kwargs : gmap string value)
  : list string :=
  (filter (λ nd, kwargs !! nd.1 = None ∧ is_ nd.2 no_default = true)
          kwonly_defaults).*1.

(** ", 'b', 'c', and 'd'" *)
Fixpoint oxford_tail (l : list string) : string :=
  match l with
  | [] => ""
  | [z] => ", and " +:+ repr z
  | x :: l' => ", " +:+ repr x +:+ oxford_tail l'
  end.

(** One name; two names joined by "and"; three names or more separated
    by commas, with "and" before the last. *)
Definition name_list (l : list string) : string :=
  match l with
  | [] => ""
  | [a] => repr a
  | [a; b] => repr a +:+ " and " +:+ repr b
  | a :: l' => repr a +:+ oxford_tail l'
  end.

Definition missing_error (fname : string) (missing : list string)
  : exception :=
  Exc TypeError [VStr (
    fname +:+ "() missing " +:+ fmt_d (length missing)
    +:+ " required keyword-only argument"
    +:+ (match missing with [_] => "" | _ => "s" end)
    +:+ ": " +:+ name_list missing)].

(** [def f(a, args=vararg, b=kwonly(), c=kwonly('default'), **kwargs)],
    of the documentation: it returns [(a, b, c, args, kwargs)]. *)
Definition f_doc : function :=
  def_ "f" ["a"; "args"; "b"; "c"] None (Some "kwargs")
       (Some [vararg; VKwonly no_default; VKwonly (VStr "default")])
       (returns_locals ["a"; "b"; "c"; "args"; "kwargs"]).

(** [def h(a, b=kwonly(), c=kwonly(), d=kwonly())], of the test suite. *)
Definition h_three_kwonly : function :=
  def_ "h" ["a"; "b"; "c"; "d"] None None
       (Some [VKwonly no_default; VKwonly no_default; VKwonly no_default])
       (returns_locals ["a"; "b"; "c"; "d"]).

(** [def g(f, b=kwonly())]: it returns [(f, b)]. *)
Definition g_parameter_named_f : function :=
  def_ "g" ["f"; "b"] None None (Some [VKwonly no_default])
       (returns_locals ["f"; "b"]).

(** [def f(a, c=kwonly('default'))]: it returns [(a, c)]. *)
Definition f_kwonly_with_default : function :=
  def_ "f" ["a"; "c"] None None (Some [VKwonly (VStr "default")])
       (returns_locals ["a"; "c"]).

(** ** The call that a synthesized function makes *)

(** The variables bound to the values of a list, one by one. *)
Definition bound (m : gmap string value) (xs : list string) (vs : list value)
  : Prop :=
  Forall2 (λ x v, m !! x = Some v) xs vs.

(** The local variables when the synthesized body returns: the plain
    parameters [plain] bound to [pvals], the variadic parameter [fv] to
    the tuple of [extras], the keyword bag [k] to what is left of [kw],
    and the keyword-only parameters of [kd] to what they resolve to. *)
Definition final_locals (kd : list (string * value)) (plain : list string)
  (fv : option string) (k : string) (pvals extras : list value)
  (kw : gmap string value) : gmap string value :=
  foldl (λ m tv, <[tv.1 := tv.2]> m)
    (<[k := VDict (foldl (λ m n, delete n m) kw (kd.*1))]>
       (<[k := VDict kw]>
          (bind_opt fv (VTuple extras) (list_to_map (zip plain pvals)))))
    (zip (kd.*1) (resolved kw <$> kd)).

(** The positional arguments of the call that the synthesized body
    makes: the plain values, then the tuple of the extra values if the
    function captures them. *)
Definition forwarded_args (fv : option string) (pvals extras : list value)
  : list value :=
  pvals ++ match fv with Some _ => [VTuple extras] | None => [] end.

(** Its keyword arguments: every keyword-only parameter with the value
    it resolves to, and what is left of the keyword bag. *)
Definition forwarded_keywords (kd : list (string * value))
  (kw : gmap string value) : gmap string value :=
  list_to_map (zip (kd.*1) (resolved kw <$> kd))
  ∪ foldl (λ m n, delete n m) kw (kd.*1).

(** ** The shape of the generated text and of a walk *)

(** No marker has taken the role of the variadic parameter. *)
Definition no_marker_yet (st : walk_state) : Prop :=
  is_not_None (found_vararg st) && negb (real_vararg st) = false.

(** The text does not go on with a character of a name. *)
Definition starts_delim (s : string) : Prop :=
  match s with
  | EmptyString => True
  | String c _ => is_name_char c = false
  end.

(** The pieces between the commas of the texts. *)
Inductive piece :=
| PcName (n : string) | PcStar (n : string) | PcDStar (n : string)
| PcKeyword (k n : string).

(** A piece as [with_kwonly] writes it. *)
Definition piece_text (p : piece) : string :=
  match p with
  | PcName n => n
  | PcStar n => "*" +:+ n
  | PcDStar n => "**" +:+ n
  | PcKeyword k n => k +:+ "=" +:+ n
  end.

(** A piece as the lexer reads it. *)
Definition piece_tokens (p : piece) : list token :=
  match p with
  | PcName n => [TName n]
  | PcStar n => [TStar; TName n]
  | PcDStar n => [TDStar; TName n]
  | PcKeyword k n => [TName k; TEq; TName n]
  end.

(** The names of a piece are identifiers. *)
Definition piece_ok (p : piece) : Prop :=
  match p with
  | PcName n | PcStar n | PcDStar n => is_identifier n = true
  | PcKeyword k n => is_identifier k = true ∧ is_identifier n = true
  end.

(** The tokens of items separated by commas. *)
Fixpoint sep_tokens (items : list (list token)) : list token :=
  match items with
  | [] => []
  | [i] => i
  | i :: items' => i ++ TComma :: sep_tokens items'
  end.

(** An item holds no comma of its own. *)
Definition comma_free (item : list token) : Prop := TComma ∉ item.

(** A piece read as a parameter of a [def]. *)
Definition param_of (p : piece) : option param :=
  match p with
  | PcName n => Some (PPlain n)
  | PcStar n => Some (PStar n)
  | PcDStar n => Some (PDStar n)
  | PcKeyword _ _ => None
  end.

(** A piece read as an argument of a call. *)
Definition argument_of (p : piece) : option argument :=
  match p with
  | PcName n => Some (APos n)
  | PcKeyword k n => Some (AKeyword k n)
  | PcDStar n => Some (ADStar n)
  | PcStar _ => None
  end.

(** The pieces of the parameter list of the synthesized function. *)
Definition param_pieces (plain : list string) (v : option string) (k : string)
  : list piece :=
  (PcName <$> plain) ++ (PcStar <$> option_list v) ++ [PcDStar k].

(** The pieces of the argument list of the call it makes. *)
Definition argument_pieces (pos names : list string) (k : string)
  : list piece :=
  (PcName <$> pos) ++ ((λ n, PcKeyword n n) <$> names) ++ [PcDStar k].

(** The marker that a walk from [st] to [st'] has met, if any. *)
Definition marker_met (st st' : walk_state) (mk : list string) : Prop :=
  (found_vararg st' = found_vararg st ∧ mk = [])
  ∨ (found_vararg st = None ∧ ∃ m, found_vararg st' = Some m ∧ mk = [m]).

(** The function object that takes the place of [fn]: the name, the file,
    the code name and the first line are those of [fn], whatever the
    parameters and the body. *)
Definition stands_for (fn new_f : function) : Prop :=
  __name__ new_f = __name__ fn
  ∧ co_name (__code__ new_f) = co_name (__code__ fn)
  ∧ co_firstlineno (__code__ new_f) = co_firstlineno (__code__ fn)
  ∧ co_filename (__code__ new_f) = co_filename (__code__ fn)
  ∧ ∃ body, co_code (__code__ new_f) = Synthesized body.

(** ** The signatures that pass the checks of the walk *)

(** Plain parameters first, then keyword-only parameters, among which
    there may be one marker if the function has no variadic parameter of
    its own. *)
Definition accepted_order (argspec : ArgSpec)
  (params : list (string * value)) : Prop :=
  ∃ plains kws,
    Forall plain_param plains ∧ Forall kwonly_param kws
    ∧ (params = plains ++ kws
       ∨ ∃ m kws2,
           varargs argspec = None ∧ Forall kwonly_param kws2
           ∧ params = plains ++ kws ++ (m, vararg) :: kws2).

(** ** More functions used as examples *)

(** [def f(b=kwonly())]: no parameter is left positional. *)
Definition f_only_kwonly : function :=
  def_ "f" ["b"] None None (Some [VKwonly no_default]) (returns_locals ["b"]).

(** [def f(a, b=1, c=kwonly())]: it returns [(a, b, c)]. *)
Definition f_plain_with_default : function :=
  def_ "f" ["a"; "b"; "c"] None None (Some [VInt 1; VKwonly no_default])
       (returns_locals ["a"; "b"; "c"]).

(** [def f(a, b=kwonly())], of the test suite. *)
Definition f_one_kwonly : function :=
  def_ "f" ["a"; "b"] None None (Some [VKwonly no_default])
       (returns_locals ["a"; "b"]).

(** [def f(a, b=kwonly(), args=vararg)]: it returns [(a, b, args)]. *)
Definition f_kwonly_before_marker : function :=
  def_ "f" ["a"; "b"; "args"] None None (Some [VKwonly no_default; vararg])
       (returns_locals ["a"; "b"; "args"]).

(** [def f(a, b=kwonly(2))]: it returns [(a, b)]. *)
Definition f_kwonly_default_two : function :=
  def_ "f" ["a"; "b"] None None (Some [VKwonly (VInt 2)])
       (returns_locals ["a"; "b"]).

(** ** The calls that the new function binds *)

(** A call that the interpreter binds to the positional parameters
    [plain], none of which has a default, a variadic parameter [fv] or
    none, and a parameter for the other keyword arguments: no more
    positional values than positional parameters unless there is a
    variadic parameter, and every positional parameter given once, by
    position or by keyword. *)
Definition binds (plain : list string) (fv : option string)
  (pos : list value) (kw : gmap string value) : Prop :=
  (fv = None → (length pos ≤ length plain)%nat)
  ∧ (∀ n, n ∈ take (length pos) plain → kw !! n = None)
  ∧ (∀ n, n ∈ drop (length pos) plain → is_Some (kw !! n)).

(** The keyword arguments that name no positional parameter: what the
    parameter for the other keyword arguments is bound to. *)
Definition keyword_bag (plain : list string) (kw : gmap string value)
  : gmap string value :=
  filter (λ kv, kv.1 ∉ plain) kw.

(** A world in which no file can be opened. *)
Definition unreadable_world : world :=
  World ∅ (uuid_kwargs example_world) (uuid_extract_kwonlies example_world).

(** * Properties *)

(** ** The parsers on the texts of the documentation *)

Example lex_wrapper_argspec :
  lex "a, *args, **kwargs"
  = Some [TName "a"; TComma; TStar; TName "args"; TComma; TDStar; TName "kwargs"].
Proof. reflexivity. Qed.

Example parse_params_ok :
  parse_params "a, *args, **kwargs" = Some (["a"], Some "args", Some "kwargs").
Proof. reflexivity. Qed.

Example parse_params_leading_comma : parse_params ", **kwargs" = None.
Proof. reflexivity. Qed.

Example parse_call_ok :
  parse_call_args "a, args, b=b, c=c, **kwargs"
  = Some (["a"; "args"], [("b", "b"); ("c", "c")], Some "kwargs").
Proof. reflexivity. Qed.

Example parse_call_empty_item : parse_call_args "a, args, , **kw" = None.
Proof. reflexivity. Qed.

Example parse_assign_ok :
  parse_assign "b, c, = _x_extract_kwonlies(kwargs)"
  = Some (Some (["b"; "c"], "_x_extract_kwonlies", "kwargs")).
Proof. reflexivity. Qed.

(** ** The error monad *)

Lemma bind_Return {A B} (k : A → result B) (a : A) : Return a ≫= k = k a.
Proof. reflexivity. Qed.

Lemma bind_Raise {A B} (k : A → result B) (e : exception) :
  Raise e ≫= k = Raise e.
Proof. reflexivity. Qed.

Lemma bind_Return_inv {A B} (m : result A) (k : A → result B) (b : B) :
  m ≫= k = Return b → ∃ a, m = Return a ∧ k a = Return b.
Proof. destruct m as [a|e]; [eauto | discriminate]. Qed.

(** ** class kwonly and the sentinels *)

(** C8: constructing a kwonly object stores the default given, or the
    sentinel no_default when none is given, and every later assignment to
    an attribute of any kwonly object raises AttributeError with the
    message "kwonly objects are immutable". *)
Theorem kwonly_objects_are_immutable :
  (∀ d, kwonly.__init__ (Some d) = Return (VKwonly d)
        ∧ kwonly.get_default (VKwonly d) = Return d)
  ∧ kwonly.__init__ None = Return (VKwonly no_default)
  ∧ ∀ self attr v,
      kwonly.__setattr__ self attr v
      = Raise (Exc AttributeError [VStr "kwonly objects are immutable"]).
Proof. repeat split. Qed.

Lemma bind_args_no_parameters name lineno msg :
  bind_args (sentinel_function name lineno msg) [] ∅ = Return ∅.
Proof. reflexivity. Qed.

Lemma sentinel_call_raises h a name lineno msg n pos kw :
  h !! a = Some (sentinel_function name lineno msg) →
  ∃ e, call_value n h (VFunc a) pos kw = Raise e.
Proof.
  intros Ha. destruct n as [|n]; simpl; [eauto|].
  rewrite Ha. destruct (bind_args _ pos kw); simpl; eauto.
Qed.

(** C9: in a heap where the module is loaded, calling no_default or
    vararg without arguments raises AssertionError with the sentinel's own
    message, and a call with any arguments raises too; a call has no
    effect besides its outcome. *)
Theorem sentinels_raise_when_called h :
  module_loaded h →
  (∀ fuel, call_value (S fuel) h no_default [] ∅
           = Raise (Exc AssertionError
               [VStr "no_default is just a sentinel, why are you calling this?"]))
  ∧ (∀ fuel, call_value (S fuel) h vararg [] ∅
             = Raise (Exc AssertionError
                 [VStr "vararg is just a sentinel, why are you calling this?"]))
  ∧ (∀ fuel pos kw, ∃ e, call_value fuel h no_default pos kw = Raise e)
  ∧ (∀ fuel pos kw, ∃ e, call_value fuel h vararg pos kw = Raise e).
Proof.
  intros [Hn Hv]. repeat split.
  - intros fuel. simpl. rewrite Hn. reflexivity.
  - intros fuel. simpl. rewrite Hv. reflexivity.
  - intros. by eapply sentinel_call_raises.
  - intros. by eapply sentinel_call_raises.
Qed.

Lemma sentinels_raise_when_called_witness :
  module_loaded kwo_module
  ∧ call_value 1 kwo_module no_default [] ∅
    = Raise (Exc AssertionError
        [VStr "no_default is just a sentinel, why are you calling this?"]).
Proof.
  assert (H : module_loaded kwo_module) by (split; reflexivity).
  split; [exact H|].
  exact (proj1 (sentinels_raise_when_called kwo_module H) 0).
Defined.

(** ** The walk over the parameters *)

Lemma read_line_of_file w filename lno lines line :
  files w !! filename = Some lines →
  py_index lines (lno - 1) = Some line →
  read_line w filename lno = Return line.
Proof. intros Hf Hl. unfold read_line. by rewrite Hf, Hl. Qed.

Lemma raise_syntax_error_line {A} w fn msg line :
  read_line w (co_filename (__code__ fn)) (co_firstlineno (__code__ fn))
  = Return line →
  raise_syntax_error (A := A) w fn msg = Raise (syntax_error_of fn msg line).
Proof.
  intros Hl. unfold raise_syntax_error, _format_syntax_error.
  rewrite Hl. reflexivity.
Qed.

Lemma raise_syntax_error_raises {A} w fn msg :
  ∃ e, raise_syntax_error (A := A) w fn msg = Raise e.
Proof.
  unfold raise_syntax_error, _format_syntax_error.
  destruct (read_line _ _ _); simpl; eauto.
Qed.

Lemma walk_app w fn st l1 l2 :
  walk w fn st (l1 ++ l2) = walk w fn st l1 ≫= λ st', walk w fn st' l2.
Proof.
  revert st. induction l1 as [|nv l1 IH]; intros st; simpl; [done|].
  destruct (walk_step w fn st nv) as [st'|e]; simpl; [apply IH | done].
Qed.

Lemma walk_step_plain w fn st nv :
  plain_param nv → no_marker_yet st → found_kwonly st = None →
  walk_step w fn st nv = Return st.
Proof.
  destruct nv as [name v]. unfold plain_param, is_plain, no_marker_yet.
  simpl. intros Hp Hm Hk.
  apply andb_true_iff in Hp as [Hp1 Hp2].
  apply negb_true_iff in Hp1, Hp2. rewrite Hp1, Hp2, Hm, Hk. reflexivity.
Qed.

Lemma walk_plains w fn st l :
  Forall plain_param l → no_marker_yet st → found_kwonly st = None →
  walk w fn st l = Return st.
Proof.
  induction 1 as [|nv l Hnv _ IH]; intros Hm Hk; simpl; [done|].
  rewrite walk_step_plain by done. simpl. by apply IH.
Qed.

Lemma walk_step_kwonly w fn st nv :
  kwonly_param nv →
  walk_step w fn st nv
  = Return (WalkState (kwonly_defaults st ++ [recorded_default nv])
                      (Some nv.1) (found_vararg st) (real_vararg st)).
Proof.
  destruct nv as [name v]. unfold kwonly_param. simpl. intros Hk.
  destruct v; try discriminate. reflexivity.
Qed.

Lemma walk_kwonlys w fn st l :
  Forall kwonly_param l →
  walk w fn st l
  = Return (WalkState (kwonly_defaults st ++ (recorded_default <$> l))
                      (from_option Some (found_kwonly st) (last (l.*1)))
                      (found_vararg st) (real_vararg st)).
Proof.
  intros Hl. revert st.
  induction Hl as [|nv l Hnv _ IH]; intros st.
  - simpl. rewrite app_nil_r. by destruct st.
  - cbn [walk]. rewrite walk_step_kwonly by done.
    rewrite bind_Return, IH.
    cbn [kwonly_defaults found_kwonly found_vararg real_vararg].
    rewrite <- app_assoc, !fmap_cons, last_cons.
    by destruct (last (l.*1)).
Qed.

Lemma walk_step_marker w fn st name :
  found_vararg st = None →
  walk_step w fn st (name, vararg)
  = Return (WalkState (kwonly_defaults st) (found_kwonly st) (Some name) false).
Proof. intros Hv. simpl. rewrite Hv. reflexivity. Qed.

Lemma walk_step_duplicate w fn st name :
  is_not_None (found_vararg st) = true →
  walk_step w fn st (name, vararg)
  = raise_syntax_error w fn "duplicate 'vararg' arguments".
Proof. intros Hv. simpl. rewrite Hv. reflexivity. Qed.

Lemma walk_step_after_marker w fn st nv m :
  plain_param nv → found_vararg st = Some m → real_vararg st = false →
  walk_step w fn st nv
  = raise_syntax_error w fn
      ("non keyword only argument " +:+ repr nv.1 +:+ " follows vararg "
       +:+ repr m).
Proof.
  destruct nv as [name v]. unfold plain_param, is_plain. simpl.
  intros Hp Hv Hr. apply andb_true_iff in Hp as [Hp1 Hp2].
  apply negb_true_iff in Hp1, Hp2. rewrite Hp1, Hp2, Hv, Hr. reflexivity.
Qed.

Lemma walk_step_after_kwonly w fn st nv k :
  plain_param nv → no_marker_yet st → found_kwonly st = Some k → k ≠ "" →
  walk_step w fn st nv
  = raise_syntax_error w fn
      ("non keyword only argument " +:+ repr nv.1
       +:+ " follows keyword argument " +:+ repr k).
Proof.
  destruct nv as [name v]. unfold plain_param, is_plain, no_marker_yet.
  simpl. intros Hp Hm Hk Hne. apply andb_true_iff in Hp as [Hp1 Hp2].
  apply negb_true_iff in Hp1, Hp2. rewrite Hp1, Hp2, Hm, Hk. simpl.
  by rewrite bool_decide_false.
Qed.

(** The three kinds of parameter. *)
Lemma param_cases nv :
  kwonly_param nv ∨ nv.2 = vararg ∨ plain_param nv.
Proof.
  destruct nv as [name v]. unfold kwonly_param, plain_param, is_plain. simpl.
  destruct (isinstance_kwonly v) eqn:Hk; [by left|]. right.
  destruct (is_ v vararg) eqn:Hv; [left | by right].
  destruct v; try discriminate. unfold is_, vararg in *.
  apply bool_decide_eq_true in Hv. by subst.
Qed.

(** After a marker, only keyword-only parameters let the walk go on. *)
Lemma walk_after_marker w fn st l st' m :
  found_vararg st = Some m → real_vararg st = false →
  walk w fn st l = Return st' →
  Forall kwonly_param l.
Proof.
  revert st. induction l as [|nv l IH]; intros st Hv Hr Hw; [constructor|].
  simpl in Hw. destruct (param_cases nv) as [Hk|[Hm|Hp]].
  - constructor; [done|]. rewrite walk_step_kwonly in Hw by done.
    simpl in Hw. eapply IH; [| |exact Hw]; done.
  - destruct nv as [name v]. simpl in Hm. subst v.
    rewrite walk_step_duplicate in Hw by (by rewrite Hv).
    destruct (raise_syntax_error_raises (A := walk_state) w fn
                "duplicate 'vararg' arguments") as [e He].
    rewrite He in Hw. discriminate.
  - rewrite (walk_step_after_marker _ _ _ _ m) in Hw by done.
    destruct (raise_syntax_error_raises (A := walk_state) w fn
      ("non keyword only argument " +:+ repr nv.1 +:+ " follows vararg "
       +:+ repr m)) as [e He].
    rewrite He in Hw. discriminate.
Qed.

Lemma no_marker_initially argspec : no_marker_yet (initial_walk_state argspec).
Proof. unfold no_marker_yet. simpl. by destruct (varargs argspec). Qed.

(** The pairs of the walk carry the defaults and the fill value. *)
Lemma zip_longest_snd {A} (xs : list A) ys fa (P : value → Prop) :
  P no_default → Forall P ys →
  Forall (λ nv, P nv.2) (zip_longest xs ys fa no_default).
Proof.
  intros Hn. revert ys. induction xs as [|x xs IH]; intros ys Hys; simpl.
  - apply Forall_fmap. by eapply Forall_impl.
  - destruct ys as [|y ys]; constructor; simpl; auto.
    + apply Forall_inv in Hys. done.
    + apply IH. by eapply Forall_inv_tail.
Qed.

Lemma paired_defaults_snd argspec (P : value → Prop) :
  P no_default → Forall P (default [] (defaults argspec)) →
  Forall (λ nv, P nv.2) (paired_defaults argspec).
Proof.
  intros Hn Hd. unfold paired_defaults. apply Forall_reverse.
  apply zip_longest_snd; [done|]. by apply Forall_reverse.
Qed.

Lemma with_kwonly_unfold w h a fn :
  h !! a = Some fn →
  with_kwonly w h (VFunc a)
  = walk w fn (initial_walk_state (argspec_of fn))
         (paired_defaults (argspec_of fn))
    ≫= with_kwonly_after_walk w h (VFunc a) fn (argspec_of fn).
Proof. intros Ha. unfold with_kwonly. simpl. rewrite Ha. reflexivity. Qed.

Lemma with_kwonly_walk_raises w h a fn e :
  h !! a = Some fn →
  walk w fn (initial_walk_state (argspec_of fn))
       (paired_defaults (argspec_of fn)) = Raise e →
  with_kwonly w h (VFunc a) = Raise e.
Proof. intros Ha Hw. rewrite (with_kwonly_unfold _ _ _ fn), Hw; done. Qed.

Lemma with_kwonly_returns_inv w h a fn r :
  h !! a = Some fn →
  with_kwonly w h (VFunc a) = Return r →
  ∃ st, walk w fn (initial_walk_state (argspec_of fn))
             (paired_defaults (argspec_of fn)) = Return st
        ∧ with_kwonly_after_walk w h (VFunc a) fn (argspec_of fn) st = Return r.
Proof.
  intros Ha Hr. rewrite (with_kwonly_unfold _ _ _ fn) in Hr by done.
  by apply bind_Return_inv in Hr.
Qed.

Lemma no_marker_native kd fk (o : option string) :
  no_marker_yet (WalkState kd fk o (is_not_None o)).
Proof. by destruct o. Qed.

(** The walk up to the first parameter that is not plain or, from the
    first keyword-only parameter on, not keyword-only. *)
Lemma walk_valid_prefix w fn argspec plains kws :
  Forall plain_param plains → Forall kwonly_param kws →
  walk w fn (initial_walk_state argspec) (plains ++ kws)
  = Return (WalkState (recorded_default <$> kws) (last (kws.*1))
                      (varargs argspec) (is_not_None (varargs argspec))).
Proof.
  intros Hp Hk. rewrite walk_app, walk_plains, bind_Return;
    [|done|apply no_marker_initially|done].
  rewrite walk_kwonlys by done. simpl. by destruct (last (kws.*1)).
Qed.

(** C4, as amended: when a plain parameter [p] follows a keyword-only
    parameter [k] and is the first parameter to do so, no parameter before
    it being a vararg marker, decoration raises a SyntaxError whose
    message is "non keyword only argument 'p' follows keyword argument
    'k'", [k] being the closest keyword-only parameter before [p]. *)
Theorem plain_after_kwonly_is_rejected
  w h a fn plains kws k d p v post line :
  h !! a = Some fn →
  paired_defaults (argspec_of fn)
  = (plains ++ (kws ++ [(k, VKwonly d)]) ++ (p, v) :: post)%list →
  Forall plain_param plains → Forall kwonly_param kws →
  is_plain v = true → k ≠ "" →
  read_line w (co_filename (__code__ fn)) (co_firstlineno (__code__ fn))
  = Return line →
  with_kwonly w h (VFunc a)
  = Raise (syntax_error_of fn
             ("non keyword only argument " +:+ repr p
              +:+ " follows keyword argument " +:+ repr k) line).
Proof.
  intros Ha Hparams Hp Hk Hv Hne Hline.
  apply (with_kwonly_walk_raises _ _ _ fn); [done|].
  rewrite Hparams, app_assoc, walk_app, walk_valid_prefix; [|done|].
  2:{ apply Forall_app. split; [done|]. by repeat constructor. }
  rewrite bind_Return. cbn [walk].
  rewrite (walk_step_after_kwonly _ _ _ _ k); first last.
  - done.
  - cbn [found_kwonly]. rewrite fmap_app. apply last_snoc.
  - apply no_marker_native.
  - done.
  - by rewrite (raise_syntax_error_line _ _ _ line).
Qed.

Lemma plain_after_kwonly_is_rejected_witness :
  with_kwonly example_world (example_heap f_plain_after_kwonly)
              (VFunc example_addr)
  = Raise (syntax_error_of f_plain_after_kwonly
             "non keyword only argument 'b' follows keyword argument 'a'"
             "def f(...):").
Proof.
  apply (plain_after_kwonly_is_rejected
           example_world (example_heap f_plain_after_kwonly) example_addr
           f_plain_after_kwonly [] [] "a" no_default "b" (VInt 2) []
           "def f(...):");
    try reflexivity; try (by repeat constructor).
Defined.

(** C4, as stated, fails when a vararg marker precedes the plain
    parameter: the message is the one about the marker. *)
Lemma plain_after_kwonly_and_marker :
  with_kwonly example_world (example_heap f_plain_after_both)
              (VFunc example_addr)
  = Raise (syntax_error_of f_plain_after_both
             "non keyword only argument 'c' follows vararg 'a'" "def f(...):")
  ∧ ¬ raises_syntax_error_starting
        (with_kwonly example_world (example_heap f_plain_after_both)
                     (VFunc example_addr))
        "non keyword only argument 'c' follows keyword argument 'b'".
Proof.
  assert (H : with_kwonly example_world (example_heap f_plain_after_both)
                (VFunc example_addr)
    = Raise (syntax_error_of f_plain_after_both
        "non keyword only argument 'c' follows vararg 'a'" "def f(...):"))
    by (vm_compute; reflexivity).
  split; [exact H|]. rewrite H. intros (msg & rest & Heq & Hpre).
  injection Heq as <- _. vm_compute in Hpre. discriminate.
Qed.

(** The walk up to and including the first marker. *)
Lemma walk_to_marker w fn argspec plains kws m :
  varargs argspec = None →
  Forall plain_param plains → Forall kwonly_param kws →
  walk w fn (initial_walk_state argspec) (plains ++ kws ++ [(m, vararg)])
  = Return (WalkState (recorded_default <$> kws) (last (kws.*1))
                      (Some m) false).
Proof.
  intros Hva Hp Hk.
  rewrite app_assoc, walk_app, walk_valid_prefix, bind_Return by done.
  cbn [walk]. rewrite walk_step_marker by (by rewrite Hva). reflexivity.
Qed.

(** C5, as amended: when the function declares no native variadic
    parameter and a plain parameter [p] follows its vararg marker [m],
    being the first parameter to break a rule, decoration raises a
    SyntaxError whose message is "non keyword only argument 'p' follows
    vararg 'm'"; and whenever decoration returns, every parameter declared
    after a marker is keyword-only. *)
Theorem plain_after_vararg_is_rejected w h a fn :
  h !! a = Some fn →
  (∀ plains kws m kws2 p v post line,
     varargs (argspec_of fn) = None →
     paired_defaults (argspec_of fn)
     = ((plains ++ kws ++ [(m, vararg)]) ++ kws2 ++ (p, v) :: post)%list →
     Forall plain_param plains → Forall kwonly_param kws →
     Forall kwonly_param kws2 → is_plain v = true →
     read_line w (co_filename (__code__ fn)) (co_firstlineno (__code__ fn))
     = Return line →
     with_kwonly w h (VFunc a)
     = Raise (syntax_error_of fn
                ("non keyword only argument " +:+ repr p
                 +:+ " follows vararg " +:+ repr m) line))
  ∧ (∀ pre m post r,
       paired_defaults (argspec_of fn) = (pre ++ (m, vararg) :: post)%list →
       with_kwonly w h (VFunc a) = Return r →
       Forall kwonly_param post).
Proof.
  intros Ha. split.
  - intros plains kws m kws2 p v post line Hva Hparams Hp Hk Hk2 Hv Hline.
    apply (with_kwonly_walk_raises _ _ _ fn); [done|].
    rewrite Hparams, walk_app, walk_to_marker, bind_Return by done.
    rewrite walk_app, walk_kwonlys, bind_Return by done.
    cbn [walk]. rewrite (walk_step_after_marker _ _ _ _ m) by done.
    by rewrite (raise_syntax_error_line _ _ _ line).
  - intros pre m post r Hparams Hr.
    apply (with_kwonly_returns_inv _ _ _ fn) in Hr as (st & Hw & _); [|done].
    rewrite Hparams, walk_app in Hw.
    apply bind_Return_inv in Hw as (st1 & _ & Hw). cbn [walk] in Hw.
    apply bind_Return_inv in Hw as (st2 & Hstep & Hw).
    destruct (is_not_None (found_vararg st1)) eqn:Hfv.
    + rewrite walk_step_duplicate in Hstep by done.
      destruct (raise_syntax_error_raises (A := walk_state) w fn
                  "duplicate 'vararg' arguments") as [e He].
      rewrite He in Hstep. discriminate.
    + rewrite walk_step_marker in Hstep by (by destruct (found_vararg st1)).
      injection Hstep as <-. by eapply walk_after_marker in Hw.
Qed.

Lemma plain_after_vararg_is_rejected_witness :
  with_kwonly example_world (example_heap f_plain_after_vararg)
              (VFunc example_addr)
  = Raise (syntax_error_of f_plain_after_vararg
             "non keyword only argument 'b' follows vararg 'a'"
             "def f(...):").
Proof.
  apply (proj1 (plain_after_vararg_is_rejected
                  example_world (example_heap f_plain_after_vararg)
                  example_addr f_plain_after_vararg eq_refl)
               [] [] "a" [] "b" (VInt 2) [] "def f(...):");
    try reflexivity; by repeat constructor.
Defined.

(** C5, as stated, fails when a second marker comes before the plain
    parameter: the error is the one about duplicates. *)
Lemma plain_after_two_varargs :
  with_kwonly example_world (example_heap f_plain_after_two_varargs)
              (VFunc example_addr)
  = Raise (syntax_error_of f_plain_after_two_varargs
             "duplicate 'vararg' arguments" "def f(...):")
  ∧ ¬ raises_syntax_error_starting
        (with_kwonly example_world (example_heap f_plain_after_two_varargs)
                     (VFunc example_addr))
        "non keyword only argument 'c' follows vararg".
Proof.
  assert (H : with_kwonly example_world
                (example_heap f_plain_after_two_varargs) (VFunc example_addr)
    = Raise (syntax_error_of f_plain_after_two_varargs
        "duplicate 'vararg' arguments" "def f(...):"))
    by (vm_compute; reflexivity).
  split; [exact H|]. rewrite H. intros (msg & rest & Heq & Hpre).
  injection Heq as <- _. vm_compute in Hpre. discriminate.
Qed.

(** C6, as amended: when the walk reaches a second variadic capture
    before any misplaced plain parameter (a second marker with only
    keyword-only parameters since the first, or a marker in a function
    that declares a native variadic parameter), decoration raises a
    SyntaxError whose message is "duplicate 'vararg' arguments" and which
    carries the file name, the first line number of the function and the
    text of that line of the file, or "???" in place of the text when
    the file cannot be opened. *)
Theorem duplicate_vararg_is_rejected w h a fn line :
  h !! a = Some fn →
  read_line w (co_filename (__code__ fn)) (co_firstlineno (__code__ fn))
  = Return line →
  (files w !! co_filename (__code__ fn) = None → line = "???")
  ∧ (∀ lines,
       files w !! co_filename (__code__ fn) = Some lines →
       py_index lines (co_firstlineno (__code__ fn) - 1) = Some line)
  ∧ (∀ plains kws m1 kws2 m2 post,
       varargs (argspec_of fn) = None →
       paired_defaults (argspec_of fn)
       = ((plains ++ kws ++ [(m1, vararg)])
          ++ kws2 ++ (m2, vararg) :: post)%list →
       Forall plain_param plains → Forall kwonly_param kws →
       Forall kwonly_param kws2 →
       with_kwonly w h (VFunc a)
       = Raise (Exc SyntaxError
                  [VStr "duplicate 'vararg' arguments";
                   VTuple [VStr (co_filename (__code__ fn));
                           VInt (co_firstlineno (__code__ fn));
                           VInt (Z.of_nat (String.length line)); VStr line]]))
  ∧ (∀ plains kws m post,
       is_not_None (varargs (argspec_of fn)) = true →
       paired_defaults (argspec_of fn)
       = ((plains ++ kws) ++ (m, vararg) :: post)%list →
       Forall plain_param plains → Forall kwonly_param kws →
       with_kwonly w h (VFunc a)
       = Raise (Exc SyntaxError
                  [VStr "duplicate 'vararg' arguments";
                   VTuple [VStr (co_filename (__code__ fn));
                           VInt (co_firstlineno (__code__ fn));
                           VInt (Z.of_nat (String.length line)); VStr line]])).
Proof.
  intros Ha Hread. split_and!.
  - intros Hfile. unfold read_line in Hread. rewrite Hfile in Hread.
    by injection Hread as <-.
  - intros lines Hfile. unfold read_line in Hread. rewrite Hfile in Hread.
    destruct (py_index lines _) as [l|]; [|discriminate].
    by injection Hread as <-.
  - intros plains kws m1 kws2 m2 post Hva Hparams Hp Hk Hk2.
    apply (with_kwonly_walk_raises _ _ _ fn); [done|].
    rewrite Hparams, walk_app, walk_to_marker, bind_Return by done.
    rewrite walk_app, walk_kwonlys, bind_Return by done.
    cbn [walk]. rewrite walk_step_duplicate by done.
    by rewrite (raise_syntax_error_line _ _ _ line).
  - intros plains kws m post Hva Hparams Hp Hk.
    apply (with_kwonly_walk_raises _ _ _ fn); [done|].
    rewrite Hparams, walk_app, walk_valid_prefix, bind_Return by done.
    cbn [walk]. rewrite walk_step_duplicate by done.
    by rewrite (raise_syntax_error_line _ _ _ line).
Qed.

Lemma duplicate_vararg_is_rejected_witness :
  with_kwonly example_world (example_heap f_duplicate_vararg)
              (VFunc example_addr)
  = Raise (Exc SyntaxError
             [VStr "duplicate 'vararg' arguments";
              VTuple [VStr "example.py"; VInt 1; VInt 11; VStr "def f(...):"]])
  ∧ with_kwonly unreadable_world (example_heap f_duplicate_vararg)
                (VFunc example_addr)
    = Raise (Exc SyntaxError
               [VStr "duplicate 'vararg' arguments";
                VTuple [VStr "example.py"; VInt 1; VInt 3; VStr "???"]]).
Proof.
  split.
  - apply (proj1 (proj2 (proj2 (duplicate_vararg_is_rejected
                    example_world (example_heap f_duplicate_vararg)
                    example_addr f_duplicate_vararg "def f(...):"
                    eq_refl eq_refl)))
                 [] [] "a" [] "b" []);
      try reflexivity; by repeat constructor.
  - apply (proj1 (proj2 (proj2 (duplicate_vararg_is_rejected
                    unreadable_world (example_heap f_duplicate_vararg)
                    example_addr f_duplicate_vararg "???"
                    eq_refl eq_refl)))
                 [] [] "a" [] "b" []);
      try reflexivity; by repeat constructor.
Defined.

(** C6, as stated, fails when a plain parameter stands between the two
    markers: the error is the one about the plain parameter.  It also
    fails when the file of the function cannot be opened: the error of
    two markers then carries "???", not the text of the line. *)
Lemma plain_between_two_varargs :
  (with_kwonly example_world (example_heap f_plain_between_varargs)
               (VFunc example_addr)
   = Raise (syntax_error_of f_plain_between_varargs
              "non keyword only argument 'c' follows vararg 'a'" "def f(...):")
   ∧ ¬ raises_syntax_error_starting
         (with_kwonly example_world (example_heap f_plain_between_varargs)
                      (VFunc example_addr))
         "duplicate 'vararg' arguments")
  ∧ with_kwonly unreadable_world (example_heap f_duplicate_vararg)
                (VFunc example_addr)
    = Raise (syntax_error_of f_duplicate_vararg
               "duplicate 'vararg' arguments" "???").
Proof.
  assert (H : with_kwonly example_world
                (example_heap f_plain_between_varargs) (VFunc example_addr)
    = Raise (syntax_error_of f_plain_between_varargs
        "non keyword only argument 'c' follows vararg 'a'" "def f(...):"))
    by (vm_compute; reflexivity).
  split; [|by vm_compute].
  split; [exact H|]. rewrite H. intros (msg & rest & Heq & Hpre).
  injection Heq as <- _. vm_compute in Hpre. discriminate.
Qed.

(** ** The lexer on the texts that [with_kwonly] builds *)

Lemma append_cons x (a b : string) : String x a +:+ b = String x (a +:+ b).
Proof. reflexivity. Qed.

Lemma append_nil_l (b : string) : "" +:+ b = b.
Proof. reflexivity. Qed.

Lemma append_assoc (a b c : string) : (a +:+ b) +:+ c = a +:+ (b +:+ c).
Proof.
  induction a as [|x a IH]; [done|]. by rewrite !append_cons, IH.
Qed.

Lemma append_nil_r (a : string) : a +:+ "" = a.
Proof.
  induction a as [|x a IH]; [done|]. by rewrite append_cons, IH.
Qed.

Lemma join_cons sep x l :
  l ≠ [] → join sep (x :: l) = x +:+ sep +:+ join sep l.
Proof. by destruct l. Qed.

Lemma join_snoc sep l x :
  l ≠ [] → join sep (l ++ [x]) = join sep l +:+ sep +:+ x.
Proof.
  induction l as [|y l IH]; [done|]. intros _.
  destruct l as [|z l]; [done|].
  change ((y :: z :: l) ++ [x])%list with (y :: ((z :: l) ++ [x]))%list.
  rewrite !join_cons, IH, !append_assoc by done. done.
Qed.

Lemma join_app sep l1 l2 :
  l1 ≠ [] → l2 ≠ [] →
  join sep (l1 ++ l2) = join sep l1 +:+ sep +:+ join sep l2.
Proof.
  intros H1 H2. induction l1 as [|y l IH]; [done|].
  destruct l as [|z l].
  - simpl. by destruct l2.
  - change ((y :: z :: l) ++ l2)%list with (y :: ((z :: l) ++ l2))%list.
    rewrite !join_cons, IH, !append_assoc by done. done.
Qed.

Lemma is_identifier_chars n : is_identifier n = true → all_name_chars n = true.
Proof. destruct n; [done|]. simpl. by intros [_ ?]%andb_true_iff. Qed.

Lemma is_identifier_nonempty n : is_identifier n = true → n ≠ "".
Proof. by destruct n. Qed.

Lemma lex_go_name n s cur :
  all_name_chars n = true → lex_go (n +:+ s) cur = lex_go s (cur +:+ n).
Proof.
  revert cur. induction n as [|c n IH]; intros cur Hn.
  - by rewrite append_nil_l, append_nil_r.
  - simpl in Hn. apply andb_true_iff in Hn as [Hc Hn].
    rewrite append_cons. cbn [lex_go].
    rewrite Hc, IH, append_assoc by done. done.
Qed.

Lemma fmap_fmap_option {A B C} (f : A → B) (g : B → C) (o : option A) :
  g <$> (f <$> o) = (g ∘ f) <$> o.
Proof. by destruct o. Qed.

Lemma lex_go_flush n s :
  n ≠ "" → starts_delim s →
  lex_go s n = cons (TName n) <$> lex_go s "".
Proof.
  intros Hn Hs. destruct n as [|c0 n0]; [done|].
  destruct s as [|c s]; [done|]. simpl in Hs. simpl. rewrite Hs.
  destruct (Ascii.eqb c " "); [by destruct (lex_go s "")|].
  destruct (Ascii.eqb c "*").
  - destruct s as [|c2 s]; [done|].
    destruct (Ascii.eqb c2 "*"); [by destruct (lex_go s "")|].
    by destruct (lex_go (String c2 s) "").
  - destruct (symbol c); [|done]. by destruct (lex_go s "").
Qed.

Lemma lex_name_then n s :
  is_identifier n = true → starts_delim s →
  lex_go (n +:+ s) "" = cons (TName n) <$> lex_go s "".
Proof.
  intros Hn Hs. rewrite lex_go_name by by apply is_identifier_chars.
  apply lex_go_flush; [by apply is_identifier_nonempty | done].
Qed.

Lemma lex_name n : is_identifier n = true → lex n = Some [TName n].
Proof.
  intros Hn. unfold lex.
  rewrite <- (append_nil_r n) at 1. by rewrite lex_name_then.
Qed.

Lemma lex_comma_then s : lex_go (", " +:+ s) "" = cons TComma <$> lex_go s "".
Proof.
  rewrite !append_cons, append_nil_l. simpl. by destruct (lex_go s "").
Qed.

Lemma lex_dstar_then s : lex_go ("**" +:+ s) "" = cons TDStar <$> lex_go s "".
Proof. done. Qed.

Lemma lex_go_cons c s' cur :
  lex_go (String c s') cur
  = if is_name_char c then lex_go s' (cur +:+ String c EmptyString)
    else if Ascii.eqb c " " then flush cur <$> lex_go s' ""
    else if Ascii.eqb c "*" then
      match s' with
      | String c2 s'' =>
          if Ascii.eqb c2 "*"
          then (λ ts, flush cur (TDStar :: ts)) <$> lex_go s'' ""
          else (λ ts, flush cur (TStar :: ts)) <$> lex_go s' ""
      | EmptyString => (λ ts, flush cur (TStar :: ts)) <$> lex_go s' ""
      end
    else
      match symbol c with
      | Some t => (λ ts, flush cur (t :: ts)) <$> lex_go s' ""
      | None => None
      end.
Proof. reflexivity. Qed.

Lemma lex_star_then n s :
  is_identifier n = true →
  lex_go ("*" +:+ n +:+ s) "" = cons TStar <$> lex_go (n +:+ s) "".
Proof.
  intros Hn. destruct n as [|c n]; [done|].
  apply is_identifier_chars in Hn. simpl in Hn.
  apply andb_true_iff in Hn as [Hc _].
  assert (Hstar : Ascii.eqb c "*" = false).
  { destruct (Ascii.eqb c "*") eqn:Hstar; [|done].
    apply Ascii.eqb_eq in Hstar. by subst c. }
  rewrite !append_cons, append_nil_l.
  rewrite (lex_go_cons "*" (String c (n +:+ s)) "").
  change (is_name_char "*") with false. cbn iota.
  change (Ascii.eqb "*" " ") with false. change (Ascii.eqb "*" "*") with true.
  cbn iota. by rewrite Hstar.
Qed.

Lemma lex_eq_then s : lex_go ("=" +:+ s) "" = cons TEq <$> lex_go s "".
Proof. done. Qed.

Lemma lex_piece_then p s :
  piece_ok p → starts_delim s →
  lex_go (piece_text p +:+ s) "" = (piece_tokens p ++.) <$> lex_go s "".
Proof.
  intros Hp Hs. destruct p as [n|n|n|k n]; simpl in Hp; cbn [piece_text].
  - by rewrite lex_name_then.
  - rewrite append_assoc, lex_star_then, lex_name_then by done.
    by destruct (lex_go s "").
  - rewrite append_assoc, lex_dstar_then, lex_name_then by done.
    by destruct (lex_go s "").
  - destruct Hp as [Hk Hn].
    rewrite !append_assoc, lex_name_then by done.
    rewrite lex_eq_then, lex_name_then by done.
    by destruct (lex_go s "").
Qed.

Lemma lex_pieces_then ps s :
  ps ≠ [] → Forall piece_ok ps → starts_delim s →
  lex_go (join ", " (piece_text <$> ps) +:+ s) ""
  = (sep_tokens (piece_tokens <$> ps) ++.) <$> lex_go s "".
Proof.
  intros Hne Hps Hs. induction Hps as [|p ps Hp Hps IH]; [done|].
  destruct ps as [|q ps].
  - simpl. by rewrite lex_piece_then.
  - rewrite (fmap_cons piece_text p (q :: ps)), join_cons by done.
    rewrite !append_assoc, lex_piece_then by done.
    rewrite lex_comma_then, IH by done.
    rewrite !fmap_fmap_option.
    change (sep_tokens (piece_tokens <$> p :: q :: ps))
      with (piece_tokens p ++ TComma :: sep_tokens (piece_tokens <$> q :: ps))%list.
    destruct (lex_go s ""); simpl; [|done]. by rewrite <- app_assoc.
Qed.

Lemma lex_pieces ps :
  ps ≠ [] → Forall piece_ok ps →
  lex (join ", " (piece_text <$> ps))
  = Some (sep_tokens (piece_tokens <$> ps)).
Proof.
  intros Hne Hps. unfold lex.
  rewrite <- (append_nil_r (join _ _)), lex_pieces_then by done.
  simpl. by rewrite app_nil_r.
Qed.

(** Splitting at the commas gives the pieces back. *)

Lemma split_commas_item item rest :
  comma_free item →
  split_commas (item ++ TComma :: rest)%list = item :: split_commas rest.
Proof.
  unfold comma_free. induction item as [|t item IH]; intros Hi; [done|].
  apply not_elem_of_cons in Hi as [Ht Hi].
  change ((t :: item) ++ TComma :: rest)%list with (t :: (item ++ TComma :: rest))%list.
  destruct t; try done; simpl; by rewrite IH.
Qed.

Lemma split_commas_last item :
  comma_free item → split_commas item = [item].
Proof.
  unfold comma_free. induction item as [|t item IH]; intros Hi; [done|].
  apply not_elem_of_cons in Hi as [Ht Hi].
  destruct t; try done; simpl; by rewrite IH.
Qed.

Lemma split_commas_sep_tokens items :
  items ≠ [] → Forall comma_free items →
  split_commas (sep_tokens items) = items.
Proof.
  intros Hne Hi. induction Hi as [|i items Hi His IH]; [done|].
  destruct items as [|j items].
  - simpl. by apply split_commas_last.
  - change (sep_tokens (i :: j :: items))
      with (i ++ TComma :: sep_tokens (j :: items))%list.
    rewrite split_commas_item, IH by done. done.
Qed.

Lemma piece_tokens_comma_free p : comma_free (piece_tokens p).
Proof.
  unfold comma_free. intros H.
  destruct p; simpl in H;
    repeat (apply elem_of_cons in H as [H|H]; [discriminate|]);
    by apply elem_of_nil in H.
Qed.

Lemma split_commas_pieces ps :
  ps ≠ [] → split_commas (sep_tokens (piece_tokens <$> ps)) = piece_tokens <$> ps.
Proof.
  intros Hne. apply split_commas_sep_tokens.
  - by destruct ps.
  - apply Forall_fmap, Forall_forall. intros p _. apply piece_tokens_comma_free.
Qed.

Lemma sep_tokens_nonempty ps :
  ps ≠ [] → sep_tokens (piece_tokens <$> ps) ≠ [].
Proof.
  destruct ps as [|p ps]; [done|]. intros _.
  destruct ps, p; simpl; done.
Qed.

(** ** The parser on the texts that [with_kwonly] builds *)

Lemma parse_param_piece p :
  piece_ok p → parse_param (piece_tokens p) = param_of p.
Proof.
  destruct p as [n|n|n|k n]; simpl; intros H; by rewrite ?H.
Qed.

Lemma parse_argument_piece p :
  piece_ok p → parse_argument (piece_tokens p) = argument_of p.
Proof.
  destruct p as [n|n|n|k n]; simpl; intros H; try by rewrite ?H.
  destruct H as [-> ->]. done.
Qed.

Lemma mapM_pieces {A} (parse : list token → option A) (conv : piece → option A)
  (ps : list piece) (l : list A) :
  (∀ p, piece_ok p → parse (piece_tokens p) = conv p) →
  Forall piece_ok ps → Forall2 (λ p x, conv p = Some x) ps l →
  mapM parse (piece_tokens <$> ps) = Some l.
Proof.
  intros Hparse Hok Hl. apply mapM_Some. apply Forall2_fmap_l.
  induction Hl as [|p x ps l Hp Hl IH]; constructor.
  - simpl. rewrite Hparse; [done|]. by apply Forall_inv in Hok.
  - apply IH. by apply Forall_inv_tail in Hok.
Qed.

Lemma arrange_params_pieces plain v k :
  arrange_params ((PPlain <$> plain) ++ (PStar <$> option_list v) ++ [PDStar k])
  = Some (plain, v, Some k).
Proof.
  induction plain as [|n plain IH]; [by destruct v|].
  rewrite fmap_cons, <- app_comm_cons. cbn [arrange_params]. by rewrite IH.
Qed.

Lemma arrange_keywords names k :
  arrange_arguments (((λ n, AKeyword n n) <$> names) ++ [ADStar k])
  = Some ([], (λ n, (n, n)) <$> names, Some k).
Proof.
  induction names as [|n names IH]; [done|].
  rewrite !fmap_cons, <- app_comm_cons. cbn [arrange_arguments].
  by rewrite IH.
Qed.

Lemma arrange_arguments_pieces pos names k :
  arrange_arguments
    ((APos <$> pos) ++ ((λ n, AKeyword n n) <$> names) ++ [ADStar k])
  = Some (pos, (λ n, (n, n)) <$> names, Some k).
Proof.
  induction pos as [|n pos IH]; [apply arrange_keywords|].
  rewrite fmap_cons, <- app_comm_cons. cbn [arrange_arguments].
  by rewrite IH.
Qed.

Lemma param_pieces_ok plain v k :
  Forall (λ n, is_identifier n = true) (plain ++ option_list v ++ [k]) →
  Forall piece_ok (param_pieces plain v k).
Proof.
  intros H. apply Forall_app in H as [Hp H]. apply Forall_app in H as [Hv Hk].
  unfold param_pieces. rewrite !Forall_app, !Forall_fmap. split_and!.
  - by eapply Forall_impl.
  - by eapply Forall_impl.
  - apply Forall_inv in Hk. by repeat constructor.
Qed.

Lemma parse_params_pieces plain v k :
  Forall (λ n, is_identifier n = true) (plain ++ option_list v ++ [k]) →
  NoDup (plain ++ option_list v ++ [k]) →
  parse_params (join ", " (piece_text <$> param_pieces plain v k))
  = Some (plain, v, Some k).
Proof.
  intros Hid Hnd. pose proof (param_pieces_ok _ _ _ Hid) as Hok.
  assert (Hne : param_pieces plain v k ≠ []).
  { unfold param_pieces. by destruct plain, v. }
  unfold parse_params. rewrite lex_pieces by done. simpl.
  destruct (sep_tokens (piece_tokens <$> param_pieces plain v k)) eqn:Hts.
  { by apply sep_tokens_nonempty in Hts. }
  rewrite <- Hts, split_commas_pieces by done.
  rewrite (mapM_pieces parse_param param_of _
    ((PPlain <$> plain) ++ (PStar <$> option_list v) ++ [PDStar k]));
    [|apply parse_param_piece|done|].
  - simpl. rewrite arrange_params_pieces. simpl.
    rewrite bool_decide_true; [done|].
    replace (option_list (Some k)) with [k] by done. done.
  - unfold param_pieces. repeat apply Forall2_app.
    + apply Forall2_fmap, Forall2_same_length_lookup. split; [done|].
      intros i x y Hx Hy. by simplify_eq.
    + apply Forall2_fmap. destruct v; repeat constructor.
    + by repeat constructor.
Qed.

Lemma argument_pieces_ok pos names k :
  Forall (λ n, is_identifier n = true) (pos ++ names ++ [k]) →
  Forall piece_ok (argument_pieces pos names k).
Proof.
  intros H. apply Forall_app in H as [Hp H]. apply Forall_app in H as [Hn Hk].
  unfold argument_pieces. rewrite !Forall_app, !Forall_fmap. split_and!.
  - by eapply Forall_impl.
  - eapply Forall_impl; [done|]. by intros n Hid.
  - apply Forall_inv in Hk. by repeat constructor.
Qed.

Lemma parse_call_args_pieces pos names k :
  Forall (λ n, is_identifier n = true) (pos ++ names ++ [k]) →
  NoDup names →
  parse_call_args (join ", " (piece_text <$> argument_pieces pos names k))
  = Some (pos, (λ n, (n, n)) <$> names, Some k).
Proof.
  intros Hid Hnd. pose proof (argument_pieces_ok _ _ _ Hid) as Hok.
  assert (Hne : argument_pieces pos names k ≠ []).
  { unfold argument_pieces. by destruct pos, names. }
  unfold parse_call_args. rewrite lex_pieces by done. simpl.
  destruct (sep_tokens (piece_tokens <$> argument_pieces pos names k)) eqn:Hts.
  { by apply sep_tokens_nonempty in Hts. }
  rewrite <- Hts, split_commas_pieces by done.
  rewrite (mapM_pieces parse_argument argument_of _
    ((APos <$> pos) ++ ((λ n, AKeyword n n) <$> names) ++ [ADStar k]));
    [|apply parse_argument_piece|done|].
  - simpl. rewrite arrange_arguments_pieces. simpl.
    rewrite bool_decide_true; [done|].
    rewrite <- list_fmap_compose. by rewrite list_fmap_id.
  - unfold argument_pieces. repeat apply Forall2_app.
    + apply Forall2_fmap, Forall2_same_length_lookup. split; [done|].
      intros i x y Hx Hy. by simplify_eq.
    + apply Forall2_fmap, Forall2_same_length_lookup. split; [done|].
      intros i x y Hx Hy. by simplify_eq.
    + by repeat constructor.
Qed.

Lemma split_commas_sep_tokens_comma items :
  items ≠ [] → Forall comma_free items →
  split_commas (sep_tokens items ++ [TComma]) = (items ++ [[]])%list.
Proof.
  intros Hne Hi. induction Hi as [|i items Hi His IH]; [done|].
  destruct items as [|j items].
  - simpl. by rewrite split_commas_item.
  - change (sep_tokens (i :: j :: items))
      with (i ++ TComma :: sep_tokens (j :: items))%list.
    rewrite <- app_assoc, <- app_comm_cons, split_commas_item, IH by done.
    done.
Qed.

Lemma split_eq_app l r :
  TEq ∉ l → split_eq (l ++ TEq :: r) = Some (l, r).
Proof.
  induction l as [|t l IH]; intros Hl; [done|].
  apply not_elem_of_cons in Hl as [Ht Hl].
  rewrite <- app_comm_cons. destruct t; try done; simpl; by rewrite IH.
Qed.

Lemma sep_tokens_names_no_eq names :
  TEq ∉ sep_tokens (piece_tokens <$> (PcName <$> names)).
Proof.
  induction names as [|n names IH]; [by apply not_elem_of_nil|].
  destruct names as [|m names].
  - simpl. intros H. apply list_elem_of_singleton in H. discriminate.
  - change (sep_tokens (piece_tokens <$> (PcName <$> n :: m :: names)))
      with (TName n :: TComma
              :: sep_tokens (piece_tokens <$> (PcName <$> m :: names))).
    intros H. apply elem_of_cons in H as [H|H]; [discriminate|].
    apply elem_of_cons in H as [H|H]; [discriminate|]. by apply IH.
Qed.

Lemma parse_targets_names names :
  names ≠ [] → Forall (λ n, is_identifier n = true) names →
  parse_targets (sep_tokens (piece_tokens <$> (PcName <$> names)) ++ [TComma])
  = Some names.
Proof.
  intros Hne Hid. unfold parse_targets.
  rewrite split_commas_sep_tokens_comma; first last.
  - apply Forall_fmap, Forall_forall. intros p _. apply piece_tokens_comma_free.
  - by destruct names.
  - rewrite last_snoc, removelast_last.
    destruct (piece_tokens <$> (PcName <$> names)) eqn:Hitems.
    { by destruct names. }
    rewrite <- Hitems. apply mapM_Some, Forall2_fmap_l, Forall2_fmap_l.
    apply Forall2_same_length_lookup. split; [done|].
    intros i x y Hx Hy. simplify_eq. simpl.
    rewrite Forall_forall in Hid.
    rewrite Hid; [done|]. by eapply list_elem_of_lookup_2.
Qed.

Lemma lex_go_space s cur :
  lex_go (String " " s) cur = flush cur <$> lex_go s "".
Proof. reflexivity. Qed.

Lemma lex_go_symbol c t s cur :
  is_name_char c = false → Ascii.eqb c " " = false →
  Ascii.eqb c "*" = false → symbol c = Some t →
  lex_go (String c s) cur = (λ ts, flush cur (t :: ts)) <$> lex_go s "".
Proof. intros H1 H2 H3 H4. by rewrite lex_go_cons, H1, H2, H3, H4. Qed.

Lemma lex_assign_call e k :
  is_identifier e = true → is_identifier k = true →
  lex_go (", = " +:+ e +:+ "(" +:+ k +:+ ")") ""
  = Some [TComma; TEq; TName e; TLParen; TName k; TRParen].
Proof.
  intros He Hk. rewrite !append_cons, !append_nil_l.
  rewrite (lex_go_symbol "," TComma), lex_go_space by reflexivity.
  rewrite (lex_go_symbol "=" TEq), lex_go_space by reflexivity.
  rewrite lex_name_then by done.
  rewrite (lex_go_symbol "(" TLParen) by reflexivity.
  rewrite lex_name_then by done. reflexivity.
Qed.

Lemma parse_assign_generated names e k :
  names ≠ [] → Forall (λ n, is_identifier n = true) names →
  is_identifier e = true → is_identifier k = true →
  parse_assign (join ", " names +:+ ", = " +:+ e +:+ "(" +:+ k +:+ ")")
  = Some (Some (names, e, k)).
Proof.
  intros Hne Hid He Hk. unfold parse_assign, lex.
  replace names with (piece_text <$> (PcName <$> names)) at 1
    by (rewrite <- list_fmap_compose; apply list_fmap_id).
  rewrite lex_pieces_then; first last.
  - by rewrite !append_cons.
  - apply Forall_fmap. by eapply Forall_impl.
  - by destruct names.
  - rewrite lex_assign_call by done. simpl.
    destruct (sep_tokens _ ++ _)%list eqn:Hts.
    { by destruct (sep_tokens (piece_tokens <$> (PcName <$> names))). }
    rewrite <- Hts.
    change [TComma; TEq; TName e; TLParen; TName k; TRParen]
      with ([TComma] ++ TEq :: [TName e; TLParen; TName k; TRParen])%list.
    rewrite app_assoc, split_eq_app; simpl.
    + rewrite parse_targets_names by done. simpl. by rewrite He, Hk.
    + intros H. apply elem_of_app in H as [H|H].
      * by apply sep_tokens_names_no_eq in H.
      * apply list_elem_of_singleton in H. discriminate.
Qed.

(** ** What the walk leaves behind *)

Lemma zip_longest_fst {A B} (xs : list A) (ys : list B) fa fb :
  (length ys ≤ length xs)%nat → (zip_longest xs ys fa fb).*1 = xs.
Proof.
  revert ys. induction xs as [|x xs IH]; intros ys Hlen.
  - destruct ys; [done | simpl in Hlen; lia].
  - destruct ys as [|y ys]; simpl; rewrite IH; simpl in *; (done || lia).
Qed.

Lemma paired_defaults_names argspec :
  (length (default [] (defaults argspec)) ≤ length (args argspec))%nat →
  (paired_defaults argspec).*1 = args argspec.
Proof.
  intros Hlen. unfold paired_defaults.
  rewrite fmap_reverse, zip_longest_fst, reverse_involutive; [done|].
  by rewrite !length_reverse.
Qed.

Lemma walk_step_plain_inv w fn st nv st' :
  plain_param nv → walk_step w fn st nv = Return st' → st' = st.
Proof.
  destruct nv as [name v]. unfold plain_param, is_plain. simpl.
  intros Hp Hs. apply andb_true_iff in Hp as [Hp1 Hp2].
  apply negb_true_iff in Hp1, Hp2. rewrite Hp1, Hp2 in Hs.
  destruct (is_not_None (found_vararg st) && negb (real_vararg st)).
  { destruct (raise_syntax_error_raises (A := walk_state) w fn
      ("non keyword only argument " +:+ repr name +:+ " follows vararg "
       +:+ repr (default "" (found_vararg st)))) as [e He].
    rewrite He in Hs. discriminate. }
  destruct (truthy (found_kwonly st)).
  { destruct (raise_syntax_error_raises (A := walk_state) w fn
      ("non keyword only argument " +:+ repr name
       +:+ " follows keyword argument "
       +:+ repr (default "" (found_kwonly st)))) as [e He].
    rewrite He in Hs. discriminate. }
  by injection Hs.
Qed.

Lemma walk_inv w fn l st st' :
  walk w fn st l = Return st' →
  ∃ kds mk,
    kwonly_defaults st' = (kwonly_defaults st ++ kds)%list
    ∧ marker_met st st' mk
    ∧ (kds.*1 ++ mk)%list ⊆+ l.*1
    ∧ (kds ≠ [] → is_not_None (found_kwonly st') = true)
    ∧ (is_not_None (found_kwonly st) = true →
       is_not_None (found_kwonly st') = true).
Proof.
  revert st. induction l as [|nv l IH]; intros st Hw.
  - injection Hw as <-. exists [], []. rewrite app_nil_r.
    split_and!; try done. by left.
  - cbn [walk] in Hw. apply bind_Return_inv in Hw as (st1 & Hstep & Hw).
    destruct (IH _ Hw) as (kds & mk & Hkd & Hmk & Hsub & Hfk & Hmono).
    destruct (param_cases nv) as [Hk|[Hm|Hp]].
    + rewrite walk_step_kwonly in Hstep by done. injection Hstep as <-.
      exists (recorded_default nv :: kds), mk. simpl in *.
      split_and!.
      * by rewrite Hkd, <- app_assoc.
      * done.
      * by apply submseteq_skip.
      * intros _. by apply Hmono.
      * intros _. by apply Hmono.
    + destruct nv as [name v]. simpl in Hm. subst v.
      destruct (is_not_None (found_vararg st)) eqn:Hfv.
      { rewrite walk_step_duplicate in Hstep by done.
        destruct (raise_syntax_error_raises (A := walk_state) w fn
                    "duplicate 'vararg' arguments") as [e He].
        rewrite He in Hstep. discriminate. }
      assert (found_vararg st = None) as Hnone
        by (by destruct (found_vararg st)).
      rewrite walk_step_marker in Hstep by done. injection Hstep as <-.
      simpl in *. destruct Hmk as [[Hfv' ->]|[? _]]; [|done].
      exists kds, [name]. split_and!; try done.
      * right. eauto.
      * rewrite app_nil_r in Hsub.
        rewrite (Permutation_app_comm _ [name]). by apply submseteq_skip.
    + apply walk_step_plain_inv in Hstep; [|done]. subst st1.
      exists kds, mk. split_and!; try done. by apply submseteq_cons.
Qed.

(** The facts about the end of a walk that the synthesis relies on. *)
Lemma walk_names w fn st :
  well_formed w fn →
  walk w fn (initial_walk_state (argspec_of fn))
       (paired_defaults (argspec_of fn)) = Return st →
  let names := (kwonly_defaults st).*1 in
  (names ++ option_list (found_vararg st))%list
    ⊆+ (args (argspec_of fn) ++ option_list (varargs (argspec_of fn)))%list
  ∧ (names ≠ [] → is_not_None (found_kwonly st) = true)
  ∧ (found_vararg st = varargs (argspec_of fn)
     ∨ varargs (argspec_of fn) = None).
Proof.
  intros (_ & _ & Hlen & _) Hw.
  apply walk_inv in Hw as (kds & mk & Hkd & Hmk & Hsub & Hfk & _).
  simpl in Hkd. subst kds. rewrite paired_defaults_names in Hsub by done.
  split_and!.
  - destruct Hmk as [[Hfv ->]|[Hnone (m & Hfv & ->)]]; simpl in *.
    + rewrite Hfv. rewrite app_nil_r in Hsub. by apply submseteq_app.
    + rewrite Hfv, Hnone. simpl. by rewrite app_nil_r.
  - intros Hne. apply Hfk. by destruct (kwonly_defaults st).
  - destruct Hmk as [[Hfv _]|[Hnone _]]; [by left | by right].
Qed.

(** ** [compile] on the text of a function with plain and keyword-only
    parameters *)

Lemma all_name_chars_app a b :
  all_name_chars (a +:+ b) = all_name_chars a && all_name_chars b.
Proof.
  induction a as [|c a IH]; [done|].
  rewrite append_cons. simpl. rewrite IH. by rewrite andb_assoc.
Qed.

Lemma private_namespace_identifier hex name :
  all_name_chars hex = true → all_name_chars name = true →
  is_identifier (private_namespace hex name) = true.
Proof.
  intros Hh Hn. unfold private_namespace.
  rewrite append_cons, append_nil_l.
  change (is_identifier (String "_" (hex +:+ "_" +:+ name)))
    with (all_name_chars (hex +:+ "_" +:+ name)).
  by rewrite !all_name_chars_app, Hh, Hn.
Qed.

Lemma truthy_identifier (o : option string) :
  Forall (λ n, is_identifier n = true) (option_list o) →
  truthy o = is_not_None o.
Proof.
  destruct o as [n|]; [|done]. intros Hn%Forall_inv. simpl.
  rewrite bool_decide_false; [done|]. by apply is_identifier_nonempty.
Qed.

Lemma fmap_piece_text_names (names : list string) :
  piece_text <$> (PcName <$> names) = names.
Proof. rewrite <- list_fmap_compose. apply list_fmap_id. Qed.

Lemma param_pieces_text plain v k :
  plain ≠ [] →
  join ", " (piece_text <$> param_pieces plain v k)
  = (join ", " plain
     +:+ match v with Some v => ", *" +:+ v | None => "" end)
    +:+ ", **" +:+ k.
Proof.
  intros Hne. unfold param_pieces.
  rewrite fmap_app, fmap_piece_text_names, join_app; [|done|by destruct v].
  destruct v as [v|]; simpl.
  - by rewrite !append_assoc.
  - by rewrite append_nil_r.
Qed.

Lemma argument_pieces_text pos names k :
  pos ≠ [] → names ≠ [] →
  join ", " (piece_text <$> argument_pieces pos names k)
  = (join ", " pos +:+ ", " +:+ join ", " ((λ n, n +:+ "=" +:+ n) <$> names))
    +:+ ", **" +:+ k.
Proof.
  intros Hp Hn. unfold argument_pieces.
  rewrite fmap_app, fmap_piece_text_names, join_app;
    [|done|by destruct names].
  rewrite fmap_app, join_app; [|by destruct names|done].
  rewrite <- list_fmap_compose, !append_assoc. done.
Qed.

Lemma compile_generated plain fv names k e filename :
  plain ≠ [] → names ≠ [] →
  Forall (λ n, is_identifier n = true)
         (e :: plain ++ option_list fv ++ names ++ [k]) →
  NoDup (plain ++ option_list fv ++ [k]) → NoDup names →
  compile
    (SourceCode e
       ((join ", " plain
         +:+ match fv with Some v => ", *" +:+ v | None => "" end)
        +:+ ", **" +:+ k)
       (join ", " names +:+ ", = " +:+ e +:+ "(" +:+ k +:+ ")")
       ((join ", " (plain ++ option_list fv) +:+ ", "
         +:+ join ", " ((λ n, n +:+ "=" +:+ n) <$> names))
        +:+ ", **" +:+ k))
    filename
  = Return (Code filename "function" 2 plain fv (Some k)
              (Synthesized
                 (WrapperBody (Some (names, e, k)) "f"
                    (plain ++ option_list fv) ((λ n, (n, n)) <$> names)
                    (Some k)))).
Proof.
  intros Hp Hn Hid Hnd Hndn.
  apply Forall_cons in Hid as [He Hid].
  apply Forall_app in Hid as [Hidp Hid].
  apply Forall_app in Hid as [Hidv Hid].
  apply Forall_app in Hid as [Hidn Hidk].
  unfold compile. cbn [sc_extract_kwonlies sc_wrapper_argspec
                       sc_assign_kwonlies sc_call_sig].
  unfold parse_name. rewrite lex_name by done. simpl. rewrite He.
  rewrite <- param_pieces_text, parse_params_pieces; [| |done|done].
  2:{ by rewrite !Forall_app. }
  rewrite parse_assign_generated; [|done|done|done|by apply Forall_inv in Hidk].
  rewrite <- argument_pieces_text, parse_call_args_pieces;
    [done| |done|by destruct plain|done].
  by rewrite !Forall_app.
Qed.

Lemma elem_of_option_list {A} (x : A) (o : option A) :
  x ∈ option_list o ↔ o = Some x.
Proof.
  destruct o as [y|]; simpl.
  - rewrite list_elem_of_singleton. naive_solver.
  - split; [by intros ?%elem_of_nil | done].
Qed.

Lemma NoDup_of_submseteq {A} (l k : list A) : l ⊆+ k → NoDup k → NoDup l.
Proof.
  intros (k' & Hk)%submseteq_Permutation Hnd. rewrite Hk in Hnd.
  by apply NoDup_app in Hnd as (? & _ & _).
Qed.

(** The texts that [with_kwonly] builds, in the shape of the lemma above. *)
Lemma with_kwonly_after_walk_synthesizes w h f fn st :
  well_formed w fn →
  (kwonly_defaults st).*1 ++ option_list (found_vararg st)
    ⊆+ args (argspec_of fn) ++ option_list (varargs (argspec_of fn)) →
  is_not_None (found_kwonly st) = true →
  kwonly_defaults st ≠ [] →
  plain_names (argspec_of fn) st ≠ [] →
  with_kwonly_after_walk w h f fn (argspec_of fn) st
  = Return (<[fresh (dom h) := synthesized w f fn st]> h,
            VFunc (fresh (dom h))).
Proof.
  intros (Hid & Hnd & Hlen & Hu1 & Hu2 & Hk & He) Hsub Hfk Hkd Hplain.
  set (argspec := argspec_of fn) in *.
  unfold declared_names in Hid, Hnd.
  (* the names of the synthesized function *)
  assert (Hidd : Forall (λ n, is_identifier n = true)
                   (args argspec ++ option_list (varargs argspec))).
  { rewrite app_assoc in Hid. by apply Forall_app in Hid as [? _]. }
  assert (Hndd : NoDup (args argspec ++ option_list (varargs argspec))).
  { rewrite app_assoc in Hnd. by apply NoDup_app in Hnd as (? & _ & _). }
  assert (Hsub' : (kwonly_defaults st).*1 ++ option_list (found_vararg st)
                    ⊆ args argspec ++ option_list (varargs argspec))
    by (intros n Hn; by eapply elem_of_submseteq).
  assert (Hidn : Forall (λ n, is_identifier n = true)
                   ((kwonly_defaults st).*1 ++ option_list (found_vararg st))).
  { rewrite Forall_forall in Hidd |- *. intros n Hn. apply Hidd. by apply Hsub'. }
  apply Forall_app in Hidn as [Hidn Hidv].
  assert (Hidk : is_identifier (kwargname_of w argspec) = true).
  { unfold kwargname_of. destruct (keywords argspec) as [kw|] eqn:Hkw; simpl.
    - rewrite Forall_app in Hid. destruct Hid as [_ Hid].
      rewrite Forall_app in Hid. destruct Hid as [_ Hid].
      apply Forall_inv in Hid. rewrite bool_decide_false; [done|].
      by apply is_identifier_nonempty.
    - by apply private_namespace_identifier. }
  assert (Hide : is_identifier (extract_name_of w) = true)
    by (by apply private_namespace_identifier).
  assert (Hidp : Forall (λ n, is_identifier n = true) (plain_names argspec st)).
  { apply Forall_app in Hidd as [Hida _]. rewrite Forall_forall in Hida |- *.
    intros n [_ Hn]%list_elem_of_filter. by apply Hida. }
  assert (Hndp : NoDup (plain_names argspec st ++ option_list (found_vararg st)
                        ++ [kwargname_of w argspec])).
  { rewrite !NoDup_app. split_and!.
    - apply NoDup_filter. by apply NoDup_app in Hndd as (? & _ & _).
    - intros n [Hn1 Hn2]%list_elem_of_filter Hin.
      apply elem_of_app in Hin as [Hin|Hin].
      + apply elem_of_option_list in Hin. by destruct Hn1 as [_ Hn1].
      + apply list_elem_of_singleton in Hin. subst n.
        apply Hk. by apply elem_of_app; left.
    - destruct (found_vararg st); simpl; [apply NoDup_singleton|apply NoDup_nil_2].
    - intros n Hn Hin. apply list_elem_of_singleton in Hin. subst n.
      apply Hk, Hsub'. by apply elem_of_app; right.
    - apply NoDup_singleton. }
  assert (Hndn : NoDup ((kwonly_defaults st).*1)).
  { eapply NoDup_of_submseteq in Hndd; [|exact Hsub].
    by apply NoDup_app in Hndd as (? & _ & _). }
  (* the body of the function, step by step *)
  unfold with_kwonly_after_walk. rewrite Hfk. cbn [negb andb].
  rewrite (truthy_identifier (found_vararg st)) by done.
  fold argspec. fold (kwargname_of w argspec). fold (extract_name_of w).
  fold (plain_names argspec st).
  pose proof (compile_generated (plain_names argspec st) (found_vararg st)
                ((kwonly_defaults st).*1) (kwargname_of w argspec)
                (extract_name_of w) (co_filename (__code__ fn))) as Hc.
  destruct (kwonly_defaults st) as [|kd kds] eqn:Hkds; [done|].
  destruct (found_vararg st) as [v|] eqn:Hfv; cbn [is_not_None default].
  - change (option_list (Some v)) with [v] in *.
    rewrite join_snoc in Hc by done.
    rewrite !append_assoc in Hc |- *. change (id v) with v.
    rewrite Hc; first last; try done.
    { constructor; [done|]. rewrite !Forall_app. split_and!; try done.
      by repeat constructor. }
    unfold synthesized. rewrite Hkds, Hfv. reflexivity.
  - change (option_list (@None string)) with (@nil string) in *.
    rewrite app_nil_r, append_nil_r in Hc.
    rewrite !append_assoc in Hc |- *.
    rewrite Hc; first last; try done.
    { constructor; [done|]. rewrite !Forall_app. split_and!; try done.
      by repeat constructor. }
    unfold synthesized. rewrite Hkds, Hfv.
    change (option_list (@None string)) with (@nil string).
    rewrite app_nil_r. reflexivity.
Qed.

(** ** What [with_kwonly] returns *)

Lemma with_kwonly_synthesizes w h a fn st :
  h !! a = Some fn → well_formed w fn →
  walk w fn (initial_walk_state (argspec_of fn))
       (paired_defaults (argspec_of fn)) = Return st →
  kwonly_defaults st ≠ [] →
  plain_names (argspec_of fn) st ≠ [] →
  with_kwonly w h (VFunc a)
  = Return (<[fresh (dom h) := synthesized w (VFunc a) fn st]> h,
            VFunc (fresh (dom h))).
Proof.
  intros Ha Hwf Hw Hkd Hplain.
  rewrite (with_kwonly_unfold _ _ _ fn), Hw, bind_Return by done.
  destruct (walk_names _ _ _ Hwf Hw) as (Hsub & Hfk & _).
  apply with_kwonly_after_walk_synthesizes; try done.
  apply Hfk. by destruct (kwonly_defaults st).
Qed.

Lemma compile_inv src filename c :
  compile src filename = Return c →
  ∃ a v k body, c = Code filename "function" 2 a v k (Synthesized body).
Proof.
  unfold compile. intros Hc.
  destruct (parse_name _); [|discriminate].
  destruct (parse_params _) as [[[a v] k]|]; [|discriminate].
  destruct (parse_assign _); [|discriminate].
  destruct (parse_call_args _) as [[[p ks] d]|]; [|discriminate].
  injection Hc as <-. eauto.
Qed.

Lemma with_kwonly_after_walk_inv w h f fn argspec st h' g :
  with_kwonly_after_walk w h f fn argspec st = Return (h', g) →
  (negb (is_not_None (found_kwonly st))
   && bool_decide (found_vararg st = varargs argspec) = true
   ∧ h' = h ∧ g = f)
  ∨ (negb (is_not_None (found_kwonly st))
     && bool_decide (found_vararg st = varargs argspec) = false
     ∧ ∃ new_f, g = VFunc (fresh (dom h)) ∧ h' = <[fresh (dom h) := new_f]> h
                ∧ stands_for fn new_f).
Proof.
  unfold with_kwonly_after_walk.
  destruct (negb _ && _).
  - intros [= <- <-]. by left.
  - intros Hr. right. split; [done|].
    destruct (if truthy (found_vararg st) then _ else _) as [call_sig argspec_str].
    apply bind_Return_inv in Hr as (c & Hc & Hr).
    apply compile_inv in Hc as (a & v & k & body & ->).
    injection Hr as <- <-. eexists. split_and!; try done.
    unfold stands_for. simpl. split_and!; eauto.
Qed.

Lemma walk_not_plain w fn l st st' :
  walk w fn st l = Return st' → ¬ Forall plain_param l →
  is_not_None (found_kwonly st') = true
  ∨ (found_vararg st = None ∧ is_not_None (found_vararg st') = true).
Proof.
  revert st. induction l as [|nv l IH]; intros st Hw Hnp.
  { destruct Hnp. constructor. }
  cbn [walk] in Hw. apply bind_Return_inv in Hw as (st1 & Hstep & Hw).
  destruct (param_cases nv) as [Hk|[Hm|Hp]].
  - rewrite walk_step_kwonly in Hstep by done. injection Hstep as <-.
    apply walk_inv in Hw as (_ & _ & _ & _ & _ & _ & Hmono). left. by apply Hmono.
  - destruct nv as [name v]. simpl in Hm. subst v.
    destruct (is_not_None (found_vararg st)) eqn:Hfv.
    { rewrite walk_step_duplicate in Hstep by done.
      destruct (raise_syntax_error_raises (A := walk_state) w fn
                  "duplicate 'vararg' arguments") as [e He].
      rewrite He in Hstep. discriminate. }
    assert (found_vararg st = None) as Hnone by (by destruct (found_vararg st)).
    rewrite walk_step_marker in Hstep by done. injection Hstep as <-.
    apply walk_inv in Hw as (_ & mk & _ & Hmk & _). right. split; [done|].
    destruct Hmk as [[-> _]|[? _]]; done.
  - apply walk_step_plain_inv in Hstep; [|done]. subst st1.
    apply (IH _ Hw). intros Hl. apply Hnp. by constructor.
Qed.

(** C3, as amended: a function with no keyword-only parameter and no
    vararg marker is returned as it is, the very same object in an
    unchanged heap.  With a keyword-only parameter or a marker, the
    object of the function is never returned: when decoration returns, it
    returns a new function object, at an address that was not in use; and
    it does return when the parameters pass the checks of the walk, one
    of them at least is keyword-only and one at least stays positional. *)
Theorem decorating_returns_same_or_new w h a fn :
  h !! a = Some fn →
  let params := paired_defaults (argspec_of fn) in
  (Forall plain_param params →
   with_kwonly w h (VFunc a) = Return (h, VFunc a))
  ∧ (¬ Forall plain_param params →
     ∀ h' g, with_kwonly w h (VFunc a) = Return (h', g) →
       ∃ b new_f, g = VFunc b ∧ b ≠ a ∧ h !! b = None
                  ∧ h' = <[b := new_f]> h ∧ stands_for fn new_f)
  ∧ (¬ Forall plain_param params → well_formed w fn →
     ∀ st, walk w fn (initial_walk_state (argspec_of fn)) params = Return st →
       kwonly_defaults st ≠ [] → plain_names (argspec_of fn) st ≠ [] →
       ∃ b new_f, with_kwonly w h (VFunc a) = Return (<[b := new_f]> h, VFunc b)
                  ∧ b ≠ a ∧ h !! b = None ∧ stands_for fn new_f).
Proof.
  intros Ha params.
  assert (Hfresh : h !! fresh (dom h) = None)
    by (apply not_elem_of_dom, is_fresh).
  assert (Hne : fresh (dom h) ≠ a) by (intros Heq; by rewrite Heq, Ha in Hfresh).
  split_and!.
  - intros Hplain.
    rewrite (with_kwonly_unfold _ _ _ fn) by done.
    rewrite walk_plains; [|done|apply no_marker_initially|done].
    rewrite bind_Return. unfold with_kwonly_after_walk. simpl.
    by rewrite bool_decide_true.
  - intros Hnp h' g Hr.
    apply (with_kwonly_returns_inv _ _ _ fn) in Hr as (st & Hw & Hr); [|done].
    apply with_kwonly_after_walk_inv in Hr
      as [(Hfast & _)|(_ & new_f & -> & -> & Hnew)].
    + apply andb_true_iff in Hfast as [Hfk Hfv].
      apply negb_true_iff in Hfk. apply bool_decide_eq_true in Hfv.
      destruct (walk_not_plain _ _ _ _ _ Hw Hnp) as [Hk|[Hv1 Hv2]].
      * by rewrite Hfk in Hk.
      * change (varargs (argspec_of fn) = None) in Hv1.
        rewrite Hfv, Hv1 in Hv2. done.
    + eauto 10.
  - intros Hnp Hwf st Hw Hkd Hpl. eexists _, _. split_and!.
    + by apply (with_kwonly_synthesizes _ _ _ fn st).
    + done.
    + done.
    + unfold stands_for, synthesized. simpl. split_and!; eauto.
Qed.


(** ** extract_kwonlies *)

Lemma py_index_last {A} (l : list A) :
  l ≠ [] → py_index l (-1) = last l.
Proof.
  intros Hne. unfold py_index.
  assert (0 < length l)%nat by (destruct l; [done | simpl; lia]).
  rewrite bool_decide_false by lia. rewrite bool_decide_true by lia.
  rewrite last_lookup. f_equal. lia.
Qed.

Lemma oxford_join x l :
  l ≠ [] →
  join ", " (repr <$> removelast (x :: l)) +:+ ", and "
    +:+ repr (default "" (last (x :: l)))
  = repr x +:+ oxford_tail l.
Proof.
  revert x. induction l as [|y l IH]; intros x Hne; [done|].
  destruct l as [|z l]; [done|].
  change (removelast (x :: y :: z :: l)) with (x :: removelast (y :: z :: l)).
  change (last (x :: y :: z :: l)) with (last (y :: z :: l)).
  rewrite fmap_cons, join_cons by done.
  rewrite !append_assoc, IH by done. done.
Qed.

Lemma missing_args_spec l :
  l ≠ [] → missing_args l = Return (name_list l).
Proof.
  intros Hne. unfold missing_args.
  destruct l as [|a [|b [|c l]]]; try done.
  rewrite !bool_decide_false by (simpl; lia).
  rewrite py_index_last by done.
  destruct (last (a :: b :: c :: l)) as [z|] eqn:Hlast.
  2:{ by apply last_None in Hlast. }
  pose proof (oxford_join a (b :: c :: l)) as Hj.
  rewrite Hlast in Hj.
  change (name_list (a :: b :: c :: l))
    with (repr a +:+ oxford_tail (b :: c :: l)).
  rewrite <- Hj by done. reflexivity.
Qed.

Lemma filter_ext_in {A} (P Q : A → Prop) `{!∀ x, Decision (P x)}
  `{!∀ x, Decision (Q x)} (l : list A) :
  (∀ x, x ∈ l → P x ↔ Q x) → filter P l = filter Q l.
Proof.
  induction l as [|x l IH]; intros Hpq; [done|].
  rewrite !filter_cons, IH by (intros y Hy; apply Hpq; by right).
  destruct (decide (P x)) as [Hp|Hp], (decide (Q x)) as [Hq|Hq]; try done.
  - destruct Hq. by apply Hpq; [left|].
  - destruct Hp. by apply Hpq; [left|].
Qed.

Lemma fmap_ext_in {A B} (f g : A → B) (l : list A) :
  (∀ x, x ∈ l → f x = g x) → f <$> l = g <$> l.
Proof.
  induction l as [|x l IH]; intros Hfg; [done|].
  rewrite !fmap_cons, IH, (Hfg x)
    by (by left || (intros y Hy; apply Hfg; by right)).
  done.
Qed.

(** The loop of [extract_kwonlies], from any state. *)
Lemma unresolved_delete kd n (kwargs : gmap string value) :
  n ∉ kd.*1 → unresolved kd (delete n kwargs) = unresolved kd kwargs.
Proof.
  intros Hn. unfold unresolved. f_equal. apply filter_ext_in.
  intros nd Hnd. unfold resolved.
  rewrite lookup_delete_ne; [done|].
  intros ->. apply Hn. by apply list_elem_of_fmap_2.
Qed.

Lemma resolved_values_delete kd n (kwargs : gmap string value) :
  n ∉ kd.*1 →
  resolved_values kd (delete n kwargs) = resolved_values kd kwargs.
Proof.
  intros Hn. unfold resolved_values.
  assert (Hres : ∀ nd, nd ∈ kd →
            resolved (delete n kwargs) nd = resolved kwargs nd).
  { intros nd Hnd. unfold resolved. rewrite lookup_delete_ne; [done|].
    intros ->. apply Hn. by apply list_elem_of_fmap_2. }
  rewrite (filter_ext_in _
    (λ nd, is_ (resolved kwargs nd) no_default ≠ true)).
  2:{ intros nd Hnd. by rewrite Hres. }
  apply fmap_ext_in. intros nd [_ Hnd]%list_elem_of_filter.
  by apply Hres.
Qed.

Lemma unresolved_cons n d kd (kwargs : gmap string value) :
  unresolved ((n, d) :: kd) kwargs
  = (if is_ (resolved kwargs (n, d)) no_default then [n] else [])
    ++ unresolved kd kwargs.
Proof.
  unfold unresolved. rewrite filter_cons.
  destruct (decide (is_ (resolved kwargs (n, d)) no_default = true))
    as [His|His].
  - by rewrite His.
  - apply not_true_is_false in His. by rewrite His.
Qed.

Lemma resolved_values_cons n d kd (kwargs : gmap string value) :
  resolved_values ((n, d) :: kd) kwargs
  = (if is_ (resolved kwargs (n, d)) no_default then []
     else [resolved kwargs (n, d)])
    ++ resolved_values kd kwargs.
Proof.
  unfold resolved_values. rewrite filter_cons.
  destruct (decide (is_ (resolved kwargs (n, d)) no_default ≠ true))
    as [His|His].
  - apply not_true_is_false in His. by rewrite His.
  - apply dec_stable in His. by rewrite His.
Qed.

Lemma extract_step_spec st n d :
  extract_step st (n, d)
  = ExtractState (delete n (es_kwargs st))
      (es_ret st ++ (if is_ (resolved (es_kwargs st) (n, d)) no_default
                     then [] else [resolved (es_kwargs st) (n, d)]))
      (es_missing_kwonlies st
       ++ (if is_ (resolved (es_kwargs st) (n, d)) no_default
           then [n] else [])).
Proof.
  unfold extract_step, pop, resolved. cbn [fst snd].
  destruct (is_ (default d (es_kwargs st !! n)) no_default);
    by rewrite app_nil_r.
Qed.

Lemma extract_loop_from kd st :
  NoDup (kd.*1) →
  foldl extract_step st kd
  = ExtractState (foldl (λ m n, delete n m) (es_kwargs st) (kd.*1))
                 (es_ret st ++ resolved_values kd (es_kwargs st))
                 (es_missing_kwonlies st ++ unresolved kd (es_kwargs st)).
Proof.
  revert st. induction kd as [|[n d] kd IH]; intros st Hnd.
  - unfold resolved_values, unresolved. simpl.
    rewrite !app_nil_r. by destruct st.
  - rewrite fmap_cons in Hnd. apply NoDup_cons in Hnd as [Hn Hnd].
    cbn [foldl]. rewrite IH, extract_step_spec by done.
    cbn [es_kwargs es_ret es_missing_kwonlies].
    rewrite unresolved_cons, resolved_values_cons, fmap_cons.
    rewrite unresolved_delete, resolved_values_delete by done.
    by rewrite <- !app_assoc.
Qed.

Lemma extract_loop_spec kd (kwargs : gmap string value) :
  NoDup (kd.*1) →
  extract_loop kd kwargs
  = ExtractState (foldl (λ m n, delete n m) kwargs (kd.*1))
                 (resolved_values kd kwargs) (unresolved kd kwargs).
Proof. intros Hnd. unfold extract_loop. by rewrite extract_loop_from. Qed.

(** The two outcomes of [extract_kwonlies]. *)
Lemma extract_kwonlies_missing h f fname kd (kwargs : gmap string value) :
  NoDup (kd.*1) → getattr_name h f = Return fname →
  unresolved kd kwargs ≠ [] →
  extract_kwonlies h f kd kwargs
  = Raise (missing_error fname (unresolved kd kwargs)).
Proof.
  intros Hnd Hname Hne. unfold extract_kwonlies.
  rewrite extract_loop_spec by done. cbn [es_missing_kwonlies].
  destruct (unresolved kd kwargs) as [|m ms] eqn:Hm; [done|].
  rewrite missing_args_spec by done. rewrite bind_Return, Hname, bind_Return.
  unfold missing_error. destruct ms as [|m2 ms]; [done|].
  by rewrite bool_decide_false.
Qed.

Lemma extract_kwonlies_resolved h f kd (kwargs : gmap string value) :
  NoDup (kd.*1) → unresolved kd kwargs = [] →
  extract_kwonlies h f kd kwargs
  = Return (resolved kwargs <$> kd,
            foldl (λ m n, delete n m) kwargs (kd.*1)).
Proof.
  intros Hnd Hm. unfold extract_kwonlies.
  rewrite extract_loop_spec by done. cbn [es_missing_kwonlies es_ret es_kwargs].
  rewrite Hm. do 2 f_equal. unfold resolved_values.
  unfold unresolved in Hm. apply fmap_nil_inv in Hm.
  f_equal. induction kd as [|nd kd IH]; [done|].
  rewrite filter_cons in Hm |- *.
  destruct (decide (is_ (resolved kwargs nd) no_default = true)); [done|].
  rewrite decide_True by done. f_equal. apply IH; [|done].
  rewrite fmap_cons in Hnd. by apply NoDup_cons in Hnd as [_ ?].
Qed.

(** The parameters with neither a value nor a default resolve to the
    sentinel; with no sentinel among the values supplied, they are the
    only ones. *)
Lemma neither_sublist_unresolved kd (kwargs : gmap string value) :
  neither_supplied_nor_defaulted kd kwargs `sublist_of` unresolved kd kwargs.
Proof.
  unfold neither_supplied_nor_defaulted, unresolved. apply fmap_sublist.
  induction kd as [|nd kd IH]; [done|]. rewrite !filter_cons.
  destruct (decide (kwargs !! nd.1 = None ∧ _)) as [[Hn Hd]|Hn].
  - rewrite decide_True; [by apply sublist_skip|].
    unfold resolved. by rewrite Hn.
  - destruct (decide _); [by apply sublist_cons | done].
Qed.

Lemma neither_is_unresolved kd (kwargs : gmap string value) :
  (∀ n v, kwargs !! n = Some v → is_ v no_default = false) →
  neither_supplied_nor_defaulted kd kwargs = unresolved kd kwargs.
Proof.
  intros Hsup. unfold neither_supplied_nor_defaulted, unresolved. f_equal.
  apply filter_ext_in. intros nd _. unfold resolved.
  destruct (kwargs !! nd.1) as [v|] eqn:Hv; simpl.
  - rewrite (Hsup _ _ Hv). split; [by intros [? _] | done].
  - split; [by intros [_ ?] | done].
Qed.

(** ** Calling a synthesized function *)

Lemma foldl_insert_notin (l : list (string * value)) (m : gmap string value) x :
  x ∉ l.*1 → foldl (λ m tv, <[tv.1 := tv.2]> m) m l !! x = m !! x.
Proof.
  revert m. induction l as [|[k v] l IH]; intros m Hx; [done|].
  rewrite fmap_cons in Hx. apply not_elem_of_cons in Hx as [Hne Hx].
  cbn [foldl fst snd]. rewrite IH by done. by rewrite lookup_insert_ne.
Qed.

Lemma foldl_delete_in (ns : list string) (m : gmap string value) x :
  x ∈ ns → foldl (λ m n, delete n m) m ns !! x = None.
Proof.
  revert m. induction ns as [|n ns IH]; intros m Hx.
  { by apply elem_of_nil in Hx. }
  cbn [foldl]. destruct (decide (x ∈ ns)) as [Hin|Hin]; [by apply IH|].
  apply elem_of_cons in Hx as [->|Hx]; [|done].
  clear IH. revert m. induction ns as [|n' ns IH]; intros m.
  - apply lookup_delete_eq.
  - apply not_elem_of_cons in Hin as [Hne Hin]. cbn [foldl].
    rewrite delete_delete. by apply IH.
Qed.

Lemma foldl_delete_notin (ns : list string) (m : gmap string value) x :
  x ∉ ns → foldl (λ m n, delete n m) m ns !! x = m !! x.
Proof.
  revert m. induction ns as [|n ns IH]; intros m Hx; [done|].
  apply not_elem_of_cons in Hx as [Hne Hx]. cbn [foldl].
  rewrite IH by done. by rewrite lookup_delete_ne.
Qed.

Lemma zip_app_r {A B} (l : list A) (k k' : list B) :
  length l = length k → zip l (k ++ k') = zip l k.
Proof.
  revert k. induction l as [|x l IH]; intros [|y k] Hlen; try done.
  simpl in *. f_equal. apply IH. lia.
Qed.

Lemma bound_ext m m' xs vs :
  (∀ x, x ∈ xs → m' !! x = m !! x) → bound m xs vs → bound m' xs vs.
Proof.
  intros Hext Hb. unfold bound in *.
  induction Hb as [|x v xs vs Hx Hb IH]; constructor.
  - rewrite Hext; [done | by left].
  - apply IH. intros y Hy. apply Hext. by right.
Qed.

Lemma bound_list_to_map_zip xs vs :
  NoDup xs → length xs = length vs → bound (list_to_map (zip xs vs)) xs vs.
Proof.
  revert vs. induction xs as [|x xs IH]; intros [|v vs] Hnd Hlen; try done.
  { constructor. }
  apply NoDup_cons in Hnd as [Hx Hnd]. simpl in Hlen.
  constructor; [apply lookup_insert_eq|].
  eapply bound_ext; [|apply IH; [done|lia]].
  intros y Hy. simpl. rewrite lookup_insert_ne; [done|]. by intros ->.
Qed.

Lemma bound_foldl_insert m xs vs :
  NoDup xs → length xs = length vs →
  bound (foldl (λ m tv, <[tv.1 := tv.2]> m) m (zip xs vs)) xs vs.
Proof.
  revert m vs. induction xs as [|x xs IH]; intros m [|v vs] Hnd Hlen; try done.
  { constructor. }
  apply NoDup_cons in Hnd as [Hx Hnd]. simpl in Hlen.
  constructor.
  - cbn [zip zip_with foldl fst snd]. rewrite foldl_insert_notin.
    + apply lookup_insert_eq.
    + rewrite fst_zip by lia. done.
  - apply IH; [done|lia].
Qed.

Lemma lookup_bind_opt_ne (o : option string) val (m : gmap string value) x :
  (∀ v, o = Some v → v ≠ x) → bind_opt o val m !! x = m !! x.
Proof.
  intros Hne. destruct o as [v|]; [|done]. simpl.
  rewrite lookup_insert_ne; [done|]. by apply Hne.
Qed.

Lemma bound_option_list m (o : option string) x :
  (∀ v, o = Some v → m !! v = Some x) →
  bound m (option_list o) (match o with Some _ => [x] | None => [] end).
Proof.
  intros Hv. destruct o as [v|]; simpl; [|constructor].
  repeat constructor. by apply Hv.
Qed.

Section wrapper_call.

Variable hp : heap.
Variables (f : value) (kd : list (string * value)).
Variables (plain : list string) (fv : option string) (k e : string).
Variables (nm fl cn : string) (ln : Z).

Let names := kd.*1.

Let body :=
  WrapperBody (Some (names, e, k)) "f" (plain ++ option_list fv)
              ((λ n, (n, n)) <$> names) (Some k).

Let W :=
  Function nm (Code fl cn ln plain fv (Some k) (Synthesized body)) None
           {[ "f" := f ]} [(e, ExtractKwonlies f kd)].

(** The local variables of the synthesized function are distinct, and
    the name of [extract_kwonlies] is none of them. *)
Hypothesis Hdistinct : NoDup (plain ++ option_list fv ++ [k] ++ names).
Hypothesis He : e ∉ plain ++ option_list fv ++ [k] ++ names.

Lemma local_names_W :
  local_names (__code__ W) body = plain ++ option_list fv ++ [k] ++ names.
Proof. reflexivity. Qed.

Lemma read_name_local locals x v :
  x ∈ plain ++ option_list fv ++ [k] ++ names → locals !! x = Some v →
  read_name W body locals x = Return v.
Proof.
  intros Hx Hv. unfold read_name. rewrite local_names_W.
  by rewrite bool_decide_true, Hv.
Qed.

Lemma read_names_bound locals xs vs :
  (∀ x, x ∈ xs → x ∈ plain ++ option_list fv ++ [k] ++ names) →
  bound locals xs vs → read_names W body locals xs = Return vs.
Proof.
  intros Hloc Hb. induction Hb as [|x v xs vs Hx Hb IH]; [done|].
  cbn [read_names]. rewrite (read_name_local _ _ v); [|apply Hloc; by left|done].
  rewrite bind_Return, IH; [done|]. intros y Hy. apply Hloc. by right.
Qed.

Lemma read_keywords_bound locals xs vs :
  (∀ x, x ∈ xs → x ∈ plain ++ option_list fv ++ [k] ++ names) →
  bound locals xs vs →
  read_keywords W body locals ((λ n, (n, n)) <$> xs) = Return (zip xs vs).
Proof.
  intros Hloc Hb. induction Hb as [|x v xs vs Hx Hb IH]; [done|].
  rewrite fmap_cons. cbn [read_keywords].
  rewrite (read_name_local _ _ v); [|apply Hloc; by left|done].
  rewrite bind_Return, IH; [done|]. intros y Hy. apply Hloc. by right.
Qed.

(** The binding of a call that gives every plain parameter by position
    and none of them by keyword. *)
Lemma bind_args_W pvals extras (kw : gmap string value) :
  length pvals = length plain →
  (fv = None → extras = []) →
  (∀ n, n ∈ plain → kw !! n = None) →
  bind_args W (pvals ++ extras) kw
  = Return (<[k := VDict kw]>
              (bind_opt fv (VTuple extras) (list_to_map (zip plain pvals)))).
Proof.
  intros Hlen Hextras Hkw. unfold bind_args.
  change (args (argspec_of W)) with plain.
  change (keywords (argspec_of W)) with (Some k).
  change (varargs (argspec_of W)) with fv.
  rewrite take_ge by (rewrite length_app; lia).
  rewrite drop_ge by (rewrite length_app; lia).
  rewrite <- Hlen, drop_app_length, zip_app_r by done.
  rewrite bool_decide_false.
  2:{ rewrite Exists_exists. intros (n & Hn & Hsome).
      rewrite Hkw in Hsome by done. by destruct Hsome. }
  rewrite andb_false_r.
  assert (bool_decide (length pvals < length (pvals ++ extras))
          && negb (is_not_None fv) = false) as ->.
  { destruct fv; [apply andb_false_r|]. rewrite Hextras by done.
    rewrite app_nil_r. rewrite bool_decide_false; [done|lia]. }
  cbn [bind_rest bind_opt]. rewrite app_nil_r.
  rewrite map_filter_id; [done|].
  intros n v Hn Hin. simpl in Hin. by rewrite Hkw in Hn.
Qed.

Lemma distinct_facts :
  NoDup plain ∧ NoDup names ∧ (k ∉ names) ∧ (k ∉ plain)
  ∧ (∀ x, x ∈ plain → x ∉ names)
  ∧ (∀ v, fv = Some v → (v ∉ plain) ∧ (v ∉ names) ∧ v ≠ k).
Proof.
  pose proof Hdistinct as Hd.
  apply NoDup_app in Hd as (Hp & Hp' & Hd).
  apply NoDup_app in Hd as (Hv & Hv' & Hd).
  apply NoDup_app in Hd as (Hk & Hk' & Hn).
  split_and!; try done.
  - apply Hk'. by left.
  - intros Hin. apply (Hp' _ Hin). rewrite !elem_of_app. right. left. by left.
  - intros x Hx Hin. apply (Hp' _ Hx). rewrite !elem_of_app. by right; right.
  - intros v ->. split_and!.
    + intros Hin. apply (Hp' _ Hin). rewrite !elem_of_app. left. by left.
    + intros Hin. apply (Hv' v); [by left|]. rewrite elem_of_app. by right.
    + intros ->. apply (Hv' k); [by left|]. rewrite elem_of_app. left. by left.
Qed.

Lemma final_locals_plain pvals extras kw :
  length pvals = length plain →
  bound (final_locals kd plain fv k pvals extras kw) plain pvals.
Proof.
  intros Hlen.
  destruct distinct_facts as (Hp & Hn & Hkn & Hkp & Hpn & Hv).
  eapply bound_ext; [|by apply bound_list_to_map_zip].
  intros x Hx. unfold final_locals.
  rewrite foldl_insert_notin.
  2:{ rewrite fst_zip by (unfold names; by rewrite !length_fmap). by apply Hpn. }
  rewrite !lookup_insert_ne by (by intros ->).
  apply lookup_bind_opt_ne. intros v Hfv ->.
  by destruct (Hv x Hfv) as (? & _).
Qed.

Lemma final_locals_vararg pvals extras kw v :
  fv = Some v →
  final_locals kd plain fv k pvals extras kw !! v = Some (VTuple extras).
Proof.
  intros Hfv.
  destruct distinct_facts as (Hp & Hn & Hkn & Hkp & Hpn & Hv).
  destruct (Hv v Hfv) as (Hvp & Hvn & Hvk).
  unfold final_locals. rewrite foldl_insert_notin.
  2:{ by rewrite fst_zip by (unfold names; by rewrite !length_fmap). }
  rewrite !lookup_insert_ne by done. rewrite Hfv. apply lookup_insert_eq.
Qed.

Lemma final_locals_kwargs pvals extras kw :
  final_locals kd plain fv k pvals extras kw !! k
  = Some (VDict (foldl (λ m n, delete n m) kw names)).
Proof.
  destruct distinct_facts as (Hp & Hn & Hkn & Hkp & Hpn & Hv).
  unfold final_locals. rewrite foldl_insert_notin.
  2:{ by rewrite fst_zip by (unfold names; by rewrite !length_fmap). }
  apply lookup_insert_eq.
Qed.

Lemma final_locals_kwonly pvals extras kw :
  bound (final_locals kd plain fv k pvals extras kw) names (resolved kw <$> kd).
Proof.
  destruct distinct_facts as (Hp & Hn & _).
  apply bound_foldl_insert; [done|]. unfold names. by rewrite !length_fmap.
Qed.

Lemma read_forwarded_args pvals extras kw :
  length pvals = length plain →
  read_names W body (final_locals kd plain fv k pvals extras kw) (plain ++ option_list fv)
  = Return (forwarded_args fv pvals extras).
Proof.
  intros Hlen. apply read_names_bound.
  - intros x Hx. rewrite app_assoc. apply elem_of_app. by left.
  - apply Forall2_app; [by apply final_locals_plain|].
    apply bound_option_list. apply final_locals_vararg.
Qed.

Lemma run_W call pvals extras (kw : gmap string value) :
  length pvals = length plain →
  unresolved kd kw = [] →
  run_wrapper call hp W body
    (<[k := VDict kw]>
       (bind_opt fv (VTuple extras) (list_to_map (zip plain pvals))))
  = read_name W body (final_locals kd plain fv k pvals extras kw) "f"
    ≫= λ g, call g (forwarded_args fv pvals extras) (forwarded_keywords kd kw).
Proof.
  intros Hlen Hres.
  destruct distinct_facts as (Hp & Hn & Hkn & Hkp & Hpn & Hv).
  assert (Hk : k ∈ plain ++ option_list fv ++ [k] ++ names).
  { rewrite !elem_of_app. right. right. left. by left. }
  unfold run_wrapper, run_assign. change (wb_assign body) with
    (Some (names, e, k)). cbn iota beta.
  rewrite local_names_W, bool_decide_false by done.
  cbn [__closure__ W lookup_cell]. rewrite bool_decide_true by done.
  rewrite (read_name_local _ _ (VDict kw)) by (done || apply lookup_insert_eq).
  rewrite bind_Return. cbn iota.
  rewrite extract_kwonlies_resolved, bind_Return by done. cbn iota beta.
  rewrite bool_decide_true by done.
  unfold unpack.
  rewrite bool_decide_true by (unfold names; by rewrite !length_fmap).
  rewrite bind_Return.
  match goal with
  | |- context [run_return _ _ _ ?L] =>
      change L with (final_locals kd plain fv k pvals extras kw)
  end.
  unfold run_return. change (wb_callee body) with "f".
  destruct (read_name W body (final_locals kd plain fv k pvals extras kw) "f") as [g|err];
    [|done].
  rewrite !bind_Return.
  change (wb_call_args body) with (plain ++ option_list fv).
  rewrite read_forwarded_args, bind_Return by done.
  change (wb_call_keywords body) with ((λ n, (n, n)) <$> names).
  rewrite (read_keywords_bound _ _ (resolved kw <$> kd)), bind_Return.
  2:{ intros x Hx. rewrite !elem_of_app. by right; right; right. }
  2:{ apply final_locals_kwonly. }
  change (wb_call_kwargs body) with (Some k). cbn iota beta.
  rewrite (read_name_local _ _ _ Hk (final_locals_kwargs _ _ _)).
  rewrite !bind_Return. unfold merge_keywords.
  rewrite bool_decide_false; [done|].
  rewrite Exists_exists. intros (x & Hx & Hsome).
  rewrite fst_zip in Hx by (unfold names; by rewrite !length_fmap).
  rewrite foldl_delete_in in Hsome by done. by destruct Hsome.
Qed.

Variable b : positive.
Hypothesis Hb : hp !! b = Some W.

(** The call of the synthesized function, when some keyword-only
    parameter resolves to the sentinel. *)
Lemma call_W_missing fuel pvals extras (kw : gmap string value) fname :
  length pvals = length plain →
  (fv = None → extras = []) →
  (∀ n, n ∈ plain → kw !! n = None) →
  getattr_name hp f = Return fname →
  unresolved kd kw ≠ [] →
  call_value (S fuel) hp (VFunc b) (pvals ++ extras) kw
  = Raise (missing_error fname (unresolved kd kw)).
Proof.
  intros Hlen Hextras Hkw Hname Hmiss.
  destruct distinct_facts as (Hp & Hn & Hkn & Hkp & Hpn & Hv).
  assert (Hk : k ∈ plain ++ option_list fv ++ [k] ++ names).
  { rewrite !elem_of_app. right. right. left. by left. }
  cbn [call_value]. rewrite Hb, bind_args_W, bind_Return by done.
  change (co_code (__code__ W)) with (Synthesized body). cbn iota.
  unfold run_wrapper, run_assign. change (wb_assign body) with
    (Some (names, e, k)). cbn iota beta.
  rewrite local_names_W, bool_decide_false by done.
  cbn [__closure__ W lookup_cell]. rewrite bool_decide_true by done.
  rewrite (read_name_local _ _ (VDict kw)) by (done || apply lookup_insert_eq).
  rewrite bind_Return. cbn iota.
  by rewrite (extract_kwonlies_missing _ _ fname).
Qed.

(** The call of the synthesized function, when every keyword-only
    parameter resolves to a value. *)
Lemma call_W_resolved fuel pvals extras (kw : gmap string value) :
  length pvals = length plain →
  (fv = None → extras = []) →
  (∀ n, n ∈ plain → kw !! n = None) →
  unresolved kd kw = [] →
  call_value (S fuel) hp (VFunc b) (pvals ++ extras) kw
  = read_name W body (final_locals kd plain fv k pvals extras kw) "f"
    ≫= λ g, call_value fuel hp g (forwarded_args fv pvals extras)
                       (forwarded_keywords kd kw).
Proof.
  intros Hlen Hextras Hkw Hres.
  cbn [call_value]. rewrite Hb, bind_args_W, bind_Return by done.
  change (co_code (__code__ W)) with (Synthesized body). cbn iota.
  by apply run_W.
Qed.

(** When no local variable of the synthesized function is called [f],
    the name [f] of its body is the global one: the function given to
    [with_kwonly]. *)
Lemma call_W_forwards fuel pvals extras (kw : gmap string value) :
  length pvals = length plain →
  (fv = None → extras = []) →
  (∀ n, n ∈ plain → kw !! n = None) →
  unresolved kd kw = [] →
  "f" ∉ plain ++ option_list fv ++ [k] ++ names →
  call_value (S fuel) hp (VFunc b) (pvals ++ extras) kw
  = call_value fuel hp f (forwarded_args fv pvals extras)
               (forwarded_keywords kd kw).
Proof.
  intros Hlen Hextras Hkw Hres Hf.
  rewrite call_W_resolved by done. unfold read_name.
  rewrite local_names_W, bool_decide_false by done.
  change (__globals__ W) with ({[ "f" := f ]} : gmap string value).
  by rewrite lookup_singleton_eq, bind_Return.
Qed.

End wrapper_call.

(** ** Calls to the function that [with_kwonly] returns *)

Lemma synthesized_names_distinct w fn st :
  well_formed w fn →
  walk w fn (initial_walk_state (argspec_of fn))
       (paired_defaults (argspec_of fn)) = Return st →
  let l := plain_names (argspec_of fn) st ++ option_list (found_vararg st)
           ++ [kwargname_of w (argspec_of fn)] ++ (kwonly_defaults st).*1 in
  NoDup l ∧ extract_name_of w ∉ l.
Proof.
  intros Hwf Hw.
  destruct (walk_names _ _ _ Hwf Hw) as (Hsub & _ & _).
  destruct Hwf as (_ & Hnd & _ & _ & _ & Hk & He).
  unfold declared_names in Hnd. rewrite app_assoc in Hnd.
  apply NoDup_app in Hnd as (Hnd & _ & _).
  pose proof (NoDup_of_submseteq _ _ Hsub Hnd) as Hnv.
  apply NoDup_app in Hnv as (Hn & Hnv & _).
  assert (Hin : ∀ x, x ∈ (kwonly_defaults st).*1 ++ option_list (found_vararg st)
                     → x ∈ args (argspec_of fn) ++ option_list (varargs (argspec_of fn))).
  { intros x Hx. by eapply elem_of_submseteq. }
  assert (Hpl : ∀ x, x ∈ plain_names (argspec_of fn) st →
                x ∈ args (argspec_of fn) ∧ (x ∉ (kwonly_defaults st).*1)
                ∧ (found_vararg st ≠ Some x)).
  { intros x Hx. unfold plain_names in Hx.
    apply list_elem_of_filter in Hx as [[? ?] ?]. done. }
  intros l. subst l. split.
  - apply NoDup_app. split_and!.
    + unfold plain_names. apply NoDup_filter.
      by apply NoDup_app in Hnd as (? & _ & _).
    + intros x Hx. apply Hpl in Hx as (Ha & Hxn & Hxv).
      rewrite !elem_of_app, elem_of_option_list, list_elem_of_singleton.
      intros [Hv|[->|Hxk]]; [done| |done].
      apply Hk. apply elem_of_app. by left.
    + apply NoDup_app. split_and!.
      * destruct (found_vararg st); [apply NoDup_singleton | apply NoDup_nil_2].
      * intros x Hx. rewrite elem_of_app, list_elem_of_singleton.
        intros [->|Hxn].
        -- apply Hk, Hin. apply elem_of_app. by right.
        -- by apply (Hnv x).
      * apply NoDup_app. split_and!; [apply NoDup_singleton| |done].
        intros x ->%list_elem_of_singleton Hxn.
        apply Hk, Hin. apply elem_of_app. by left.
  - rewrite !elem_of_app, list_elem_of_singleton.
    intros [Hx|[Hx|[Hx|Hx]]].
    + apply Hpl in Hx as (Ha & _). apply He. right. apply elem_of_app. by left.
    + apply He. right. apply Hin. apply elem_of_app. by right.
    + apply He. rewrite Hx. by left.
    + apply He. right. apply Hin. apply elem_of_app. by left.
Qed.

Section decorated_call.
Variables (w : world) (h : heap) (a : positive) (fn : function)
  (st : walk_state).
Hypothesis Ha : h !! a = Some fn.
Hypothesis Hwf : well_formed w fn.
Hypothesis Hwalk :
  walk w fn (initial_walk_state (argspec_of fn))
       (paired_defaults (argspec_of fn)) = Return st.

Let b := fresh (dom h).
Let h' := <[b := synthesized w (VFunc a) fn st]> h.
Let plain := plain_names (argspec_of fn) st.
Let kd := kwonly_defaults st.

Lemma original_survives : h' !! a = Some fn.
Proof.
  unfold h'. rewrite lookup_insert_ne; [done|].
  intros Heq. assert (Hf : h !! b = None) by apply not_elem_of_dom, is_fresh.
  by rewrite Heq, Ha in Hf.
Qed.

Lemma call_synthesized_missing fuel pvals extras (kw : gmap string value) :
  length pvals = length plain →
  (found_vararg st = None → extras = []) →
  (∀ n, n ∈ plain → kw !! n = None) →
  unresolved kd kw ≠ [] →
  call_value (S fuel) h' (VFunc b) (pvals ++ extras) kw
  = Raise (missing_error (__name__ fn) (unresolved kd kw)).
Proof.
  intros Hlen Hex Hkw Hm.
  destruct (synthesized_names_distinct _ _ _ Hwf Hwalk) as [Hnd He].
  apply (call_W_missing h' (VFunc a) kd plain (found_vararg st)
           (kwargname_of w (argspec_of fn)) (extract_name_of w)
           (__name__ fn) (co_filename (__code__ fn)) (co_name (__code__ fn))
           (co_firstlineno (__code__ fn)) Hnd He b); try done.
  - apply lookup_insert_eq.
  - simpl. by rewrite original_survives.
Qed.

Lemma call_synthesized_resolved fuel pvals extras (kw : gmap string value) :
  length pvals = length plain →
  (found_vararg st = None → extras = []) →
  (∀ n, n ∈ plain → kw !! n = None) →
  unresolved kd kw = [] →
  "f" ∉ plain ++ option_list (found_vararg st)
        ++ [kwargname_of w (argspec_of fn)] ++ kd.*1 →
  call_value (S fuel) h' (VFunc b) (pvals ++ extras) kw
  = call_value fuel h' (VFunc a)
      (forwarded_args (found_vararg st) pvals extras)
      (forwarded_keywords kd kw).
Proof.
  intros Hlen Hex Hkw Hm Hf.
  destruct (synthesized_names_distinct _ _ _ Hwf Hwalk) as [Hnd He].
  apply (call_W_forwards h' (VFunc a) kd plain (found_vararg st)
           (kwargname_of w (argspec_of fn)) (extract_name_of w)
           (__name__ fn) (co_filename (__code__ fn)) (co_name (__code__ fn))
           (co_firstlineno (__code__ fn)) Hnd He b); try done.
  apply lookup_insert_eq.
Qed.

End decorated_call.

(** ** The examples are well formed *)

Ltac example_well_formed :=
  unfold well_formed; split_and!;
  [ by apply (bool_decide_unpack _); vm_compute
  | by apply (bool_decide_unpack _); vm_compute
  | vm_compute; lia
  | reflexivity
  | reflexivity
  | by apply (bool_decide_unpack _); vm_compute
  | by apply (bool_decide_unpack _); vm_compute ].

Lemma h_three_kwonly_well_formed : well_formed example_world h_three_kwonly.
Proof. example_well_formed. Qed.

Lemma f_doc_well_formed : well_formed example_world f_doc.
Proof. example_well_formed. Qed.

Lemma f_kwonly_with_default_well_formed :
  well_formed example_world f_kwonly_with_default.
Proof. example_well_formed. Qed.

Lemma elem_of_unresolved kd (kw : gmap string value) n d :
  (n, d) ∈ kd → is_ (resolved kw (n, d)) no_default = true →
  n ∈ unresolved kd kw.
Proof.
  intros Hin Hres. unfold unresolved.
  apply (list_elem_of_fmap_2 fst _ (n, d)).
  by apply list_elem_of_filter.
Qed.

Lemma unresolved_sentinel kd (kw : gmap string value) n d :
  NoDup (kd.*1) → (n, d) ∈ kd → is_ d no_default = true →
  unresolved kd (<[n := no_default]> kw) = unresolved kd (delete n kw).
Proof.
  intros Hnd Hin Hd. unfold unresolved. f_equal. apply filter_ext_in.
  intros [m d'] Hm. unfold resolved. simpl.
  destruct (decide (m = n)) as [->|Hne].
  - rewrite lookup_insert_eq, lookup_delete_eq. simpl.
    assert (d' = d) as ->.
    { apply (elem_of_list_to_map_1 (M := gmap string)) in Hin, Hm; try done.
      congruence. }
    by rewrite Hd.
  - by rewrite lookup_insert_ne, lookup_delete_ne.
Qed.

(** ** Texts that the interpreter refuses

    With no parameter left positional, the parameter list that
    [with_kwonly] writes starts with a comma; with no keyword-only
    parameter, the argument list of the call it writes has two commas in
    a row.  [compile] refuses both. *)

Lemma compile_refuses_params src filename :
  parse_params (sc_wrapper_argspec src) = None →
  compile src filename = Raise (Exc SyntaxError [VStr "invalid syntax"]).
Proof.
  unfold compile. intros ->. by destruct (parse_name (sc_extract_kwonlies src)).
Qed.

Lemma compile_refuses_call src filename :
  parse_call_args (sc_call_sig src) = None →
  compile src filename = Raise (Exc SyntaxError [VStr "invalid syntax"]).
Proof.
  unfold compile. intros ->.
  by destruct (parse_name (sc_extract_kwonlies src)),
    (parse_params (sc_wrapper_argspec src)) as [[[??]?]|],
    (parse_assign (sc_assign_kwonlies src)).
Qed.

Lemma parse_params_leading_comma_fails s : parse_params (", " +:+ s) = None.
Proof.
  unfold parse_params, lex. rewrite lex_comma_then.
  by destruct (lex_go s "").
Qed.

Lemma split_commas_sep_tokens_then items rest :
  items ≠ [] → Forall comma_free items →
  split_commas (sep_tokens items ++ TComma :: rest)
  = items ++ split_commas rest.
Proof.
  intros Hne Hi. induction Hi as [|i items Hi His IH]; [done|].
  destruct items as [|j items].
  - simpl. by rewrite split_commas_item.
  - change (sep_tokens (i :: j :: items))
      with (i ++ TComma :: sep_tokens (j :: items))%list.
    rewrite <- app_assoc, <- app_comm_cons, split_commas_item, IH by done.
    done.
Qed.

Lemma parse_call_args_empty_item ps k :
  ps ≠ [] → Forall piece_ok ps → is_identifier k = true →
  parse_call_args
    ((join ", " (piece_text <$> ps) +:+ ", " +:+ "") +:+ ", **" +:+ k)
  = None.
Proof.
  intros Hne Hps Hk. unfold parse_call_args, lex.
  rewrite append_nil_r, !append_assoc.
  change (", **" +:+ k) with (", " +:+ "**" +:+ k).
  rewrite lex_pieces_then by done.
  rewrite !lex_comma_then, lex_dstar_then.
  fold (lex k). rewrite lex_name by done. cbn [fmap option_fmap option_map].
  cbn [mbind option_bind].
  destruct (sep_tokens (piece_tokens <$> ps) ++ _) as [|t ts] eqn:Hts.
  { by destruct (sep_tokens (piece_tokens <$> ps)). }
  rewrite <- Hts. rewrite split_commas_sep_tokens_then; first last.
  - apply Forall_fmap, Forall_forall. intros p _. apply piece_tokens_comma_free.
  - by destruct ps.
  - assert (Hnone : mapM parse_argument
                      ((piece_tokens <$> ps)
                       ++ split_commas [TComma; TDStar; TName k]) = None).
    { apply mapM_None, Exists_app. right. by left. }
    by rewrite Hnone.
Qed.

Lemma with_kwonly_after_walk_refused w h f fn st :
  well_formed w fn →
  (kwonly_defaults st).*1 ++ option_list (found_vararg st)
    ⊆+ args (argspec_of fn) ++ option_list (varargs (argspec_of fn)) →
  negb (is_not_None (found_kwonly st))
  && bool_decide (found_vararg st = varargs (argspec_of fn)) = false →
  plain_names (argspec_of fn) st = [] ∨ kwonly_defaults st = [] →
  with_kwonly_after_walk w h f fn (argspec_of fn) st
  = Raise (Exc SyntaxError [VStr "invalid syntax"]).
Proof.
  intros (Hid & Hnd & _ & Hu1 & _) Hsub Hslow Hempty.
  set (argspec := argspec_of fn) in *.
  unfold declared_names in Hid.
  assert (Hidd : Forall (λ n, is_identifier n = true)
                   (args argspec ++ option_list (varargs argspec))).
  { rewrite app_assoc in Hid. by apply Forall_app in Hid as [? _]. }
  assert (Hidv : Forall (λ n, is_identifier n = true)
                   (option_list (found_vararg st))).
  { rewrite Forall_forall in Hidd |- *. intros n Hn. apply Hidd.
    eapply elem_of_submseteq; [|exact Hsub]. apply elem_of_app. by right. }
  assert (Hidk : is_identifier (kwargname_of w argspec) = true).
  { unfold kwargname_of. destruct (keywords argspec) as [kw|] eqn:Hkw; simpl.
    - rewrite Forall_app in Hid. destruct Hid as [_ Hid].
      rewrite Forall_app in Hid. destruct Hid as [_ Hid].
      apply Forall_inv in Hid. rewrite bool_decide_false; [done|].
      by apply is_identifier_nonempty.
    - by apply private_namespace_identifier. }
  assert (Hidp : Forall (λ n, is_identifier n = true) (plain_names argspec st)).
  { apply Forall_app in Hidd as [Hida _]. rewrite Forall_forall in Hida |- *.
    intros n [_ Hn]%list_elem_of_filter. by apply Hida. }
  unfold with_kwonly_after_walk. rewrite Hslow.
  rewrite (truthy_identifier (found_vararg st)) by done.
  fold argspec. fold (kwargname_of w argspec). fold (extract_name_of w).
  fold (plain_names argspec st).
  destruct (plain_names argspec st) as [|p plain] eqn:Hplain.
  - (* the parameter list starts with a comma *)
    destruct (found_vararg st) as [v|]; cbn [is_not_None default];
      rewrite compile_refuses_params; try done; cbn [sc_wrapper_argspec].
    + apply (parse_params_leading_comma_fails
               ("*" +:+ v +:+ ", **" +:+ kwargname_of w argspec)).
    + apply (parse_params_leading_comma_fails
               ("**" +:+ kwargname_of w argspec)).
  - (* the argument list has an empty item *)
    destruct Hempty as [?|Hkd]; [done|]. rewrite Hkd.
    destruct (found_vararg st) as [v|]; cbn [is_not_None default];
      rewrite compile_refuses_call; try done; cbn [sc_call_sig fmap list_fmap].
    + change (id v) with v. rewrite <- join_snoc by done.
      rewrite <- (fmap_piece_text_names ((p :: plain) ++ [v])).
      apply parse_call_args_empty_item; [done| |done].
      apply Forall_fmap. change (option_list (Some v)) with [v] in Hidv.
      apply Forall_app. split.
      * eapply Forall_impl; [exact Hidp|]. done.
      * eapply Forall_impl; [exact Hidv|]. done.
    + rewrite <- (fmap_piece_text_names (p :: plain)).
      apply parse_call_args_empty_item; [done| |done].
      apply Forall_fmap. eapply Forall_impl; [exact Hidp|]. done.
Qed.

(** Whenever [with_kwonly] returns another object than the function it
    was given, that object is the synthesized function, at a new address;
    the function has a keyword-only parameter and a parameter that stays
    positional. *)
Lemma with_kwonly_rewrites_inv w h a fn h' g :
  h !! a = Some fn → well_formed w fn →
  with_kwonly w h (VFunc a) = Return (h', g) → g ≠ VFunc a →
  ∃ st,
    walk w fn (initial_walk_state (argspec_of fn))
         (paired_defaults (argspec_of fn)) = Return st
    ∧ kwonly_defaults st ≠ []
    ∧ plain_names (argspec_of fn) st ≠ []
    ∧ h' = <[fresh (dom h) := synthesized w (VFunc a) fn st]> h
    ∧ g = VFunc (fresh (dom h)).
Proof.
  intros Ha Hwf Hr Hg.
  destruct (with_kwonly_returns_inv _ _ _ fn _ Ha Hr) as (st & Hw & Hafter).
  destruct (walk_names _ _ _ Hwf Hw) as (Hsub & _ & _).
  exists st. split; [done|].
  apply with_kwonly_after_walk_inv in Hafter as Hcases.
  destruct Hcases as [(_ & _ & ->)|(Hslow & _)]; [done|].
  assert (Hkd : kwonly_defaults st ≠ []).
  { intros Hkd.
    rewrite with_kwonly_after_walk_refused in Hafter;
      [discriminate|done|done|done|by right]. }
  assert (Hpl : plain_names (argspec_of fn) st ≠ []).
  { intros Hpl.
    rewrite with_kwonly_after_walk_refused in Hafter;
      [discriminate|done|done|done|by left]. }
  split_and!; [done|done| |].
  - rewrite (with_kwonly_synthesizes _ _ _ fn st) in Hr by done. congruence.
  - rewrite (with_kwonly_synthesizes _ _ _ fn st) in Hr by done. congruence.
Qed.

(** ** Calls of the new function, however its parameters are given *)

Lemma bind_rest_unbound sp (kw : gmap string value) i names n :
  (∀ j, default_for sp j = None) → n ∈ names → kw !! n = None →
  bind_rest sp kw i names = None.
Proof.
  intros Hd Hin Hn. revert i.
  induction names as [|x names IH]; intros i; [by apply elem_of_nil in Hin|].
  cbn [bind_rest]. apply elem_of_cons in Hin as [<-|Hin].
  - by rewrite Hn, Hd.
  - rewrite (IH Hin). by destruct (kw !! x) as [v|]; [|rewrite Hd].
Qed.

Lemma default_for_no_defaults sp j :
  defaults sp = None → default_for sp j = None.
Proof.
  intros Hd. unfold default_for. rewrite Hd. simpl.
  by destruct (bool_decide _).
Qed.

Lemma bind_rest_given sp (kw : gmap string value) i names :
  (∀ n, n ∈ names → is_Some (kw !! n)) →
  is_Some (bind_rest sp kw i names).
Proof.
  revert i. induction names as [|n names IH]; intros i Hall; [by eexists|].
  cbn [bind_rest]. destruct (Hall n) as [v Hv]; [by left|]. rewrite Hv.
  destruct (IH (S i)) as [rest Hrest]; [intros m Hm; apply Hall; by right|].
  rewrite Hrest. by eexists.
Qed.

(** The interpreter binds a call to the new function exactly when the
    call [binds]; the parameter for the other keyword arguments then
    holds the keyword arguments that name no positional parameter. *)
Lemma bind_args_synthesized w f fn st pos (kw : gmap string value) :
  let plain := plain_names (argspec_of fn) st in
  (binds plain (found_vararg st) pos kw
   ∧ ∃ locals,
       bind_args (synthesized w f fn st) pos kw = Return locals
       ∧ locals !! kwargname_of w (argspec_of fn)
         = Some (VDict (keyword_bag plain kw)))
  ∨ (¬ binds plain (found_vararg st) pos kw
     ∧ bind_args (synthesized w f fn st) pos kw
       = Raise (arg_error (co_name (__code__ fn)))).
Proof.
  intros plain. unfold bind_args.
  change (args (argspec_of (synthesized w f fn st))) with plain.
  change (co_name (__code__ (synthesized w f fn st)))
    with (co_name (__code__ fn)).
  change (keywords (argspec_of (synthesized w f fn st)))
    with (Some (kwargname_of w (argspec_of fn))).
  change (varargs (argspec_of (synthesized w f fn st)))
    with (found_vararg st).
  cbn [is_not_None negb]. rewrite andb_false_r.
  destruct (bool_decide (Exists _ _)) eqn:Hex.
  { right. split; [|done]. intros (_ & Hgiven & _).
    apply bool_decide_eq_true, Exists_exists in Hex as (n & Hn & [v Hv]).
    by rewrite Hgiven in Hv. }
  apply bool_decide_eq_false in Hex.
  destruct (bool_decide (length plain < length pos)%nat
            && negb (is_not_None (found_vararg st))) eqn:Hmany.
  { right. split; [|done]. intros (Hlen & _ & _).
    apply andb_true_iff in Hmany as [Hlt Hfv].
    apply bool_decide_eq_true in Hlt.
    destruct (found_vararg st); [done|]. specialize (Hlen eq_refl). lia. }
  destruct (bind_rest _ kw (length pos) (drop (length pos) plain))
    as [rest|] eqn:Hrest.
  - left. split.
    + split_and!.
      * intros Hfv. rewrite Hfv in Hmany. simpl in Hmany.
        rewrite andb_true_r in Hmany. apply bool_decide_eq_false in Hmany.
        lia.
      * intros n Hn. destruct (kw !! n) as [v|] eqn:Hv; [|done].
        destruct Hex. apply Exists_exists. exists n. by split; [|eexists].
      * intros n Hn. destruct (kw !! n) as [v|] eqn:Hv; [by eexists|].
        rewrite (bind_rest_unbound _ _ _ _ n) in Hrest; try done.
        intros j. by apply default_for_no_defaults.
    + eexists. split; [done|]. apply lookup_insert_eq.
  - right. split; [|done]. intros (_ & _ & Hkw).
    destruct (bind_rest_given (argspec_of (synthesized w f fn st)) kw
                (length pos) (drop (length pos) plain) Hkw) as [rest Hsome].
    by rewrite Hsome in Hrest.
Qed.

Lemma lookup_keyword_bag plain (kw : gmap string value) n :
  n ∉ plain → keyword_bag plain kw !! n = kw !! n.
Proof.
  intros Hn. unfold keyword_bag. destruct (kw !! n) as [v|] eqn:Hv.
  - by apply map_lookup_filter_Some.
  - apply map_lookup_filter_None. by left.
Qed.

Lemma resolved_keyword_bag plain (kw : gmap string value) nd :
  nd.1 ∉ plain → resolved (keyword_bag plain kw) nd = resolved kw nd.
Proof. intros Hn. unfold resolved. by rewrite lookup_keyword_bag. Qed.

Lemma unresolved_keyword_bag kd plain (kw : gmap string value) :
  (∀ n, n ∈ kd.*1 → n ∉ plain) →
  unresolved kd (keyword_bag plain kw) = unresolved kd kw.
Proof.
  intros Hd. unfold unresolved. f_equal. apply filter_ext_in.
  intros nd Hnd. rewrite resolved_keyword_bag; [done|].
  apply Hd. by apply list_elem_of_fmap_2.
Qed.

Lemma binds_insert plain fv pos (kw : gmap string value) n v :
  n ∉ plain → binds plain fv pos (<[n := v]> kw) ↔ binds plain fv pos kw.
Proof.
  intros Hn. unfold binds.
  assert (Hne : ∀ m, m ∈ plain → <[n := v]> kw !! m = kw !! m).
  { intros m Hm. apply lookup_insert_ne. by intros ->. }
  split; intros (H1 & H2 & H3); split_and!; try done; intros m Hm.
  - rewrite <- Hne; [by apply H2|]. by apply (subseteq_take (length pos) plain).
  - rewrite <- Hne; [by apply H3|]. by apply (subseteq_drop (length pos) plain).
  - rewrite Hne; [by apply H2|]. by apply (subseteq_take (length pos) plain).
  - rewrite Hne; [by apply H3|]. by apply (subseteq_drop (length pos) plain).
Qed.

Lemma binds_delete plain fv pos (kw : gmap string value) n :
  n ∉ plain → binds plain fv pos (delete n kw) ↔ binds plain fv pos kw.
Proof.
  intros Hn. unfold binds.
  assert (Hne : ∀ m, m ∈ plain → delete n kw !! m = kw !! m).
  { intros m Hm. apply lookup_delete_ne. by intros ->. }
  split; intros (H1 & H2 & H3); split_and!; try done; intros m Hm.
  - rewrite <- Hne; [by apply H2|]. by apply (subseteq_take (length pos) plain).
  - rewrite <- Hne; [by apply H3|]. by apply (subseteq_drop (length pos) plain).
  - rewrite Hne; [by apply H2|]. by apply (subseteq_take (length pos) plain).
  - rewrite Hne; [by apply H3|]. by apply (subseteq_drop (length pos) plain).
Qed.

Section any_call.
Variables (w : world) (h : heap) (a : positive) (fn : function)
  (st : walk_state).
Hypothesis Ha : h !! a = Some fn.
Hypothesis Hwf : well_formed w fn.
Hypothesis Hwalk :
  walk w fn (initial_walk_state (argspec_of fn))
       (paired_defaults (argspec_of fn)) = Return st.

(** A call that the new function does not bind. *)
Lemma call_synthesized_unbound fuel pos (kw : gmap string value) :
  ¬ binds (plain_names (argspec_of fn) st) (found_vararg st) pos kw →
  call_value (S fuel) (<[fresh (dom h) := synthesized w (VFunc a) fn st]> h)
             (VFunc (fresh (dom h))) pos kw
  = Raise (arg_error (co_name (__code__ fn))).
Proof.
  intros Hnb. cbn [call_value]. rewrite lookup_insert_eq.
  destruct (bind_args_synthesized w (VFunc a) fn st pos kw)
    as [[Hb _]|[_ ->]]; [done|]. by rewrite bind_Raise.
Qed.

(** A call that the new function binds, with a keyword-only parameter
    that resolves to the sentinel. *)
Lemma call_synthesized_bound_missing fuel pos (kw : gmap string value) :
  binds (plain_names (argspec_of fn) st) (found_vararg st) pos kw →
  unresolved (kwonly_defaults st) kw ≠ [] →
  call_value (S fuel) (<[fresh (dom h) := synthesized w (VFunc a) fn st]> h)
             (VFunc (fresh (dom h))) pos kw
  = Raise (missing_error (__name__ fn) (unresolved (kwonly_defaults st) kw)).
Proof.
  intros Hb Hm.
  destruct (synthesized_names_distinct _ _ _ Hwf Hwalk) as [Hnd He].
  assert (Hnames : NoDup (kwonly_defaults st).*1).
  { rewrite !app_assoc in Hnd. by apply NoDup_app in Hnd as (_ & _ & ?). }
  assert (Hdisj : ∀ n, n ∈ (kwonly_defaults st).*1 →
                    n ∉ plain_names (argspec_of fn) st).
  { apply NoDup_app in Hnd as (_ & Hd & _). intros n Hn Hp.
    apply (Hd _ Hp). rewrite !elem_of_app. auto. }
  cbn [call_value]. rewrite lookup_insert_eq.
  destruct (bind_args_synthesized w (VFunc a) fn st pos kw)
    as [(_ & locals & -> & Hk)|[Hnb _]]; [|done].
  rewrite bind_Return.
  change (co_code (__code__ (synthesized w (VFunc a) fn st)))
    with (Synthesized
            (WrapperBody
               (Some ((kwonly_defaults st).*1, extract_name_of w,
                      kwargname_of w (argspec_of fn))) "f"
               (plain_names (argspec_of fn) st
                ++ option_list (found_vararg st))
               ((λ n, (n, n)) <$> (kwonly_defaults st).*1)
               (Some (kwargname_of w (argspec_of fn))))).
  cbn iota. unfold run_wrapper, run_assign. cbn [wb_assign].
  change (local_names (__code__ (synthesized w (VFunc a) fn st)) _)
    with (plain_names (argspec_of fn) st ++ option_list (found_vararg st)
          ++ [kwargname_of w (argspec_of fn)] ++ (kwonly_defaults st).*1).
  rewrite bool_decide_false by done.
  change (__closure__ (synthesized w (VFunc a) fn st))
    with [(extract_name_of w, ExtractKwonlies (VFunc a) (kwonly_defaults st))].
  cbn [lookup_cell]. rewrite bool_decide_true by done.
  unfold read_name.
  change (local_names (__code__ (synthesized w (VFunc a) fn st)) _)
    with (plain_names (argspec_of fn) st ++ option_list (found_vararg st)
          ++ [kwargname_of w (argspec_of fn)] ++ (kwonly_defaults st).*1).
  rewrite bool_decide_true, Hk, bind_Return.
  2:{ rewrite !elem_of_app. right. right. left. by left. }
  rewrite (extract_kwonlies_missing _ _ (__name__ fn)).
  - by rewrite unresolved_keyword_bag.
  - done.
  - simpl. by rewrite (original_survives w h a fn st Ha).
  - by rewrite unresolved_keyword_bag.
Qed.

End any_call.

(** ** The missing keyword-only arguments *)

(** C2, as amended: let [with_kwonly] rewrite a function.  The missing
    parameters of a call of the result are the keyword-only parameters
    that resolve to the sentinel, in declaration order; every parameter
    with neither a value supplied nor a recorded default is one of them,
    and they are the only ones when the caller supplies no sentinel.
    When the call binds to the parameters of the new function (no more
    positional values than plain parameters unless there is a variadic
    parameter, and every plain parameter given once, by position or by
    keyword) and a keyword-only parameter has neither a value nor a
    default, the call raises the TypeError "<fname>() missing N required
    keyword-only argument(s): ..." that lists the missing parameters: one
    name alone, two names joined by "and", three or more separated by
    commas with "and" before the last, and "argument" in the singular
    for one name only.  A call that does not bind raises the TypeError
    of the interpreter for the binding instead.  When no parameter is
    missing, the check returns the resolved values and raises nothing. *)
Theorem missing_keyword_only_arguments_are_reported w h a fn h' g :
  h !! a = Some fn → well_formed w fn →
  with_kwonly w h (VFunc a) = Return (h', g) → g ≠ VFunc a →
  ∃ st,
    walk w fn (initial_walk_state (argspec_of fn))
         (paired_defaults (argspec_of fn)) = Return st
    ∧ ∀ fuel pos (kw : gmap string value),
        let plain := plain_names (argspec_of fn) st in
        let neither := neither_supplied_nor_defaulted (kwonly_defaults st) kw in
        let missing := unresolved (kwonly_defaults st) kw in
        neither `sublist_of` missing
        ∧ ((∀ n v, kw !! n = Some v → is_ v no_default = false) →
           missing = neither)
        ∧ (binds plain (found_vararg st) pos kw → neither ≠ [] →
           call_value (S fuel) h' g pos kw
           = Raise (Exc TypeError [VStr (
               __name__ fn +:+ "() missing " +:+ fmt_d (length missing)
               +:+ " required keyword-only argument"
               +:+ (if bool_decide (length missing = 1%nat) then "" else "s")
               +:+ ": " +:+ name_list missing)]))
        ∧ (¬ binds plain (found_vararg st) pos kw →
           call_value (S fuel) h' g pos kw
           = Raise (arg_error (co_name (__code__ fn))))
        ∧ (missing = [] →
           extract_kwonlies h' (VFunc a) (kwonly_defaults st)
                            (keyword_bag plain kw)
           = Return (resolved kw <$> kwonly_defaults st,
                     foldl (λ m n, delete n m) (keyword_bag plain kw)
                           (kwonly_defaults st).*1)).
Proof.
  intros Ha Hwf Hr Hg.
  destruct (with_kwonly_rewrites_inv _ _ _ _ _ _ Ha Hwf Hr Hg)
    as (st & Hw & Hkd & Hpl & -> & ->).
  exists st. split; [done|].
  intros fuel pos kw plain neither missing.
  destruct (synthesized_names_distinct _ _ _ Hwf Hw) as [Hnd _].
  assert (Hnames : NoDup (kwonly_defaults st).*1).
  { rewrite !app_assoc in Hnd. by apply NoDup_app in Hnd as (_ & _ & ?). }
  assert (Hdisj : ∀ n, n ∈ (kwonly_defaults st).*1 → n ∉ plain).
  { apply NoDup_app in Hnd as (_ & Hd & _). intros n Hn Hp.
    apply (Hd _ Hp). rewrite !elem_of_app. auto. }
  assert (Hsub : neither `sublist_of` missing)
    by apply neither_sublist_unresolved.
  split_and!.
  - done.
  - intros Hsup. symmetry. by apply neither_is_unresolved.
  - intros Hb Hne.
    assert (Hm : missing ≠ []).
    { intros Hm. rewrite Hm in Hsub. by apply sublist_nil_r in Hsub. }
    rewrite (call_synthesized_bound_missing w h a fn st) by done.
    unfold missing_error. fold missing. do 5 f_equal.
    destruct missing as [|m1 [|m2 ms]]; done.
  - intros Hnb. by apply call_synthesized_unbound.
  - intros Hm. rewrite extract_kwonlies_resolved.
    + do 2 f_equal. apply fmap_ext_in. intros nd Hin.
      apply resolved_keyword_bag, Hdisj. by apply list_elem_of_fmap_2.
    + done.
    + by rewrite unresolved_keyword_bag.
Qed.

Lemma missing_keyword_only_arguments_are_reported_witness :
  ∃ h' g,
    with_kwonly example_world (example_heap h_three_kwonly)
                (VFunc example_addr) = Return (h', g)
    ∧ call_value 2 h' g [VInt 1] ∅
      = Raise (Exc TypeError [VStr
          "h() missing 3 required keyword-only arguments: 'b', 'c', and 'd'"])
    ∧ call_value 2 h' g [] {[ "a" := VInt 1 ]}
      = Raise (Exc TypeError [VStr
          "h() missing 3 required keyword-only arguments: 'b', 'c', and 'd'"])
    ∧ call_value 2 h' g [VInt 1] {[ "c" := VInt 3 ]}
      = Raise (Exc TypeError [VStr
          "h() missing 2 required keyword-only arguments: 'b' and 'd'"])
    ∧ call_value 2 h' g [VInt 1] {[ "b" := VInt 2; "c" := VInt 3 ]}
      = Raise (Exc TypeError [VStr
          "h() missing 1 required keyword-only argument: 'd'"]).
Proof.
  pose (st := WalkState [("b", no_default); ("c", no_default);
                         ("d", no_default)] (Some "d") None false).
  pose (hp := example_heap h_three_kwonly).
  assert (Hr : with_kwonly example_world hp (VFunc example_addr)
    = Return (<[fresh (dom hp)
                := synthesized example_world (VFunc example_addr)
                     h_three_kwonly st]> hp,
              VFunc (fresh (dom hp)))).
  { apply (with_kwonly_synthesizes _ _ _ h_three_kwonly st);
      [reflexivity|exact h_three_kwonly_well_formed|reflexivity
      |discriminate|discriminate]. }
  destruct (missing_keyword_only_arguments_are_reported
              example_world hp example_addr h_three_kwonly _ _
              (eq_refl : hp !! example_addr = Some h_three_kwonly)
              h_three_kwonly_well_formed Hr)
    as (st' & Hw & Hcall).
  { vm_compute. discriminate. }
  assert (st' = st) as -> by (vm_compute in Hw; by injection Hw as <-).
  assert (Hbinds : ∀ pos (kw : gmap string value),
            bool_decide
              (length pos ≤ 1
               ∧ Forall (λ n, kw !! n = None) (take (length pos) ["a"])
               ∧ Forall (λ n, is_Some (kw !! n)) (drop (length pos) ["a"]))%nat
            = true →
            binds (plain_names (argspec_of h_three_kwonly) st)
                  (found_vararg st) pos kw).
  { intros pos kw (H1 & H2 & H3)%bool_decide_eq_true.
    rewrite Forall_forall in H2, H3. by split_and!. }
  eexists _, _. split; [exact Hr|]. split_and!.
  - destruct (Hcall 1%nat [VInt 1] ∅) as (_ & _ & Hraise & _).
    apply Hraise; [by apply Hbinds | discriminate].
  - destruct (Hcall 1%nat [] {[ "a" := VInt 1 ]}) as (_ & _ & Hraise & _).
    apply Hraise; [by apply Hbinds | discriminate].
  - destruct (Hcall 1%nat [VInt 1] {[ "c" := VInt 3 ]})
      as (_ & _ & Hraise & _).
    apply Hraise; [by apply Hbinds | discriminate].
  - destruct (Hcall 1%nat [VInt 1] {[ "b" := VInt 2; "c" := VInt 3 ]})
      as (_ & _ & Hraise & _).
    apply Hraise; [by apply Hbinds | discriminate].
Defined.

(** C2, as stated, fails at [def f(a, b=kwonly())] called as [f(1, 2)],
    as the test suite does: [b] has neither a value nor a default, and
    the call raises the TypeError of the interpreter for a positional
    value too many, not the one that names [b]. *)
Lemma keyword_only_missing_but_binding_fails :
  ∃ h' g,
    with_kwonly example_world (example_heap f_one_kwonly)
                (VFunc example_addr) = Return (h', g)
    ∧ neither_supplied_nor_defaulted [("b", no_default)] ∅ = ["b"]
    ∧ call_value 2 h' g [VInt 1; VInt 2] ∅ = Raise (arg_error "f")
    ∧ call_value 2 h' g [VInt 1; VInt 2] ∅
      ≠ Raise (Exc TypeError [VStr
          "f() missing 1 required keyword-only argument: 'b'"]).
Proof.
  eexists _, _. split; [by vm_compute|].
  split_and!; [by vm_compute|by vm_compute|].
  vm_compute. discriminate.
Qed.

(** ** The sentinel supplied by the caller *)

(** C10, as amended: at a call of a rewritten function, a keyword-only
    parameter for which the caller supplies the sentinel [no_default]
    itself counts as missing, whether a default is recorded for it or
    not; a call that binds to the parameters of the new function (no
    more positional values than plain parameters unless there is a
    variadic parameter, and every plain parameter given once, by
    position or by keyword) then raises the TypeError for the missing
    keyword-only arguments.  For a parameter without a recorded default,
    any call that supplies the sentinel is the same as the call that
    omits the argument. *)
Theorem supplied_sentinel_counts_as_missing w h a fn h' g :
  h !! a = Some fn → well_formed w fn →
  with_kwonly w h (VFunc a) = Return (h', g) → g ≠ VFunc a →
  ∃ st,
    walk w fn (initial_walk_state (argspec_of fn))
         (paired_defaults (argspec_of fn)) = Return st
    ∧ ∀ fuel pos (kw : gmap string value) n d,
        (n, d) ∈ kwonly_defaults st →
        let supplied := <[n := no_default]> kw in
        n ∈ unresolved (kwonly_defaults st) supplied
        ∧ (binds (plain_names (argspec_of fn) st) (found_vararg st)
                 pos supplied →
           call_value (S fuel) h' g pos supplied
           = Raise (missing_error (__name__ fn)
                      (unresolved (kwonly_defaults st) supplied)))
        ∧ (is_ d no_default = true →
           call_value (S fuel) h' g pos supplied
           = call_value (S fuel) h' g pos (delete n kw)).
Proof.
  intros Ha Hwf Hr Hg.
  destruct (with_kwonly_rewrites_inv _ _ _ _ _ _ Ha Hwf Hr Hg)
    as (st & Hw & Hkd & Hpl & -> & ->).
  exists st. split; [done|].
  intros fuel pos kw n d Hin supplied.
  destruct (synthesized_names_distinct _ _ _ Hwf Hw) as [Hnd _].
  assert (Hn : n ∈ (kwonly_defaults st).*1)
    by apply (list_elem_of_fmap_2 fst _ (n, d)), Hin.
  assert (Hnp : n ∉ plain_names (argspec_of fn) st).
  { apply NoDup_app in Hnd as (_ & Hdisj & _). intros Hp.
    apply (Hdisj _ Hp). rewrite !elem_of_app. auto. }
  assert (Hnames : NoDup (kwonly_defaults st).*1).
  { rewrite !app_assoc in Hnd. by apply NoDup_app in Hnd as (_ & _ & ?). }
  assert (Hmiss : n ∈ unresolved (kwonly_defaults st) supplied).
  { apply (elem_of_unresolved _ _ n d); [done|]. unfold resolved, supplied.
    simpl. by rewrite lookup_insert_eq. }
  assert (Hne : unresolved (kwonly_defaults st) supplied ≠ []).
  { intros Hnil. rewrite Hnil in Hmiss. by apply elem_of_nil in Hmiss. }
  split_and!; [done| |].
  - intros Hb. by apply call_synthesized_bound_missing.
  - intros Hd.
    destruct (bind_args_synthesized w (VFunc a) fn st pos supplied)
      as [[Hb _]|[Hnb _]].
    + rewrite (call_synthesized_bound_missing w h a fn st) by done.
      symmetry. unfold supplied in *.
      rewrite (unresolved_sentinel _ _ n d) in * by done.
      apply call_synthesized_bound_missing; try done.
      by apply binds_delete, (binds_insert _ _ _ _ n no_default).
    + rewrite (call_synthesized_unbound w h a fn st) by done.
      symmetry. apply call_synthesized_unbound.
      intros Hb. apply Hnb. unfold supplied.
      by apply binds_insert, (binds_delete _ _ _ _ n).
Qed.

Lemma supplied_sentinel_counts_as_missing_witness :
  ∃ h' g,
    with_kwonly example_world (example_heap h_three_kwonly)
                (VFunc example_addr) = Return (h', g)
    ∧ call_value 2 h' g []
        (<[ "c" := no_default ]>
           {[ "a" := VInt 1; "b" := VInt 2; "d" := VInt 4 ]})
      = Raise (Exc TypeError [VStr
          "h() missing 1 required keyword-only argument: 'c'"])
    ∧ call_value 2 h' g [VInt 1; VInt 7]
        (<[ "c" := no_default ]> {[ "b" := VInt 2; "d" := VInt 4 ]})
      = call_value 2 h' g [VInt 1; VInt 7]
          (delete "c" {[ "b" := VInt 2; "d" := VInt 4 ]}).
Proof.
  pose (st := WalkState [("b", no_default); ("c", no_default);
                         ("d", no_default)] (Some "d") None false).
  pose (hp := example_heap h_three_kwonly).
  assert (Hr : with_kwonly example_world hp (VFunc example_addr)
    = Return (<[fresh (dom hp)
                := synthesized example_world (VFunc example_addr)
                     h_three_kwonly st]> hp,
              VFunc (fresh (dom hp)))).
  { apply (with_kwonly_synthesizes _ _ _ h_three_kwonly st);
      [reflexivity|exact h_three_kwonly_well_formed|reflexivity
      |discriminate|discriminate]. }
  destruct (supplied_sentinel_counts_as_missing
              example_world hp example_addr h_three_kwonly _ _
              (eq_refl : hp !! example_addr = Some h_three_kwonly)
              h_three_kwonly_well_formed Hr)
    as (st' & Hw & Hcall).
  { vm_compute. discriminate. }
  assert (st' = st) as -> by (vm_compute in Hw; by injection Hw as <-).
  assert (Hc : ("c", no_default) ∈ kwonly_defaults st)
    by (apply list_elem_of_lookup_2 with 1%nat; reflexivity).
  eexists _, _. split; [exact Hr|]. split.
  - destruct (Hcall 1%nat []
                {[ "a" := VInt 1; "b" := VInt 2; "d" := VInt 4 ]}
                "c" no_default Hc) as (_ & Hraise & _).
    rewrite Hraise; [by vm_compute|]. split_and!.
    + intros _. simpl. lia.
    + intros n Hn. cbn [length] in Hn. rewrite take_0 in Hn.
      destruct (not_elem_of_nil n Hn).
    + intros n Hn. apply list_elem_of_singleton in Hn as ->. by eexists.
  - destruct (Hcall 1%nat [VInt 1; VInt 7]
                {[ "b" := VInt 2; "d" := VInt 4 ]}
                "c" no_default Hc) as (_ & _ & Hsame).
    apply Hsame. reflexivity.
Defined.

(** C10, as stated, fails for a parameter with a recorded default: the
    call that supplies the sentinel raises, the call that omits the
    argument returns with the default. *)
Lemma supplied_sentinel_differs_from_omission :
  ∃ h' g,
    with_kwonly example_world (example_heap f_kwonly_with_default)
                (VFunc example_addr) = Return (h', g)
    ∧ call_value 3 h' g [VInt 1] {[ "c" := no_default ]}
      = Raise (Exc TypeError [VStr
          "f() missing 1 required keyword-only argument: 'c'"])
    ∧ call_value 3 h' g [VInt 1] ∅
      = Return (VTuple [VInt 1; VStr "default"])
    ∧ call_value 3 h' g [VInt 1] {[ "c" := no_default ]}
      ≠ call_value 3 h' g [VInt 1] ∅.
Proof.
  eexists _, _. split; [by vm_compute|].
  split_and!.
  - by vm_compute.
  - by vm_compute.
  - vm_compute. discriminate.
Qed.

(** ** Forwarding to the function given *)

(** X11: when [with_kwonly] rewrites a function none of whose names is [f],
    a call of the result with every keyword-only parameter resolved is
    the call of the function given, on the plain values, the tuple of
    the extra values, the keyword-only parameters with what they resolve
    to, and the rest of the keyword arguments. *)
Lemma with_kwonly_forwards w h a fn h' g :
  h !! a = Some fn → well_formed w fn →
  with_kwonly w h (VFunc a) = Return (h', g) → g ≠ VFunc a →
  "f" ∉ declared_names (argspec_of fn) →
  kwargname_of w (argspec_of fn) ≠ "f" →
  ∃ st,
    walk w fn (initial_walk_state (argspec_of fn))
         (paired_defaults (argspec_of fn)) = Return st
    ∧ ∀ fuel pvals extras (kw : gmap string value),
        length pvals = length (plain_names (argspec_of fn) st) →
        (found_vararg st = None → extras = []) →
        (∀ n, n ∈ plain_names (argspec_of fn) st → kw !! n = None) →
        unresolved (kwonly_defaults st) kw = [] →
        call_value (S fuel) h' g (pvals ++ extras) kw
        = call_value fuel h' (VFunc a)
            (forwarded_args (found_vararg st) pvals extras)
            (forwarded_keywords (kwonly_defaults st) kw).
Proof.
  intros Ha Hwf Hr Hg Hf Hk.
  destruct (with_kwonly_rewrites_inv _ _ _ _ _ _ Ha Hwf Hr Hg)
    as (st & Hw & Hkd & Hpl & -> & ->).
  exists st. split; [done|].
  intros fuel pvals extras kw Hlen Hex Hkw Hm.
  apply call_synthesized_resolved; try done.
  destruct (walk_names _ _ _ Hwf Hw) as (Hsub & _ & _).
  assert (Hargs : "f" ∉ args (argspec_of fn)
                        ++ option_list (varargs (argspec_of fn))).
  { intros Hin. apply Hf. unfold declared_names. rewrite app_assoc.
    apply elem_of_app. by left. }
  assert (Hin : ∀ x, x ∈ (kwonly_defaults st).*1
                         ++ option_list (found_vararg st) → x ≠ "f").
  { intros x Hx ->. apply Hargs. by eapply elem_of_submseteq. }
  rewrite !elem_of_app, list_elem_of_singleton.
  intros [Hx|[Hx|[Hx|Hx]]].
  - unfold plain_names in Hx. apply list_elem_of_filter in Hx as [_ Hx].
    apply Hargs, elem_of_app. by left.
  - apply (Hin "f"); [|done]. apply elem_of_app. by right.
  - done.
  - apply (Hin "f"); [|done]. apply elem_of_app. by left.
Qed.

(** C1 at [def g(f, b=kwonly())], decorated and called as [g(1, b=2)]:
    decoration returns a function, whose call raises the TypeError of
    calling what is not callable, for the name [f] of the synthesized body
    is its own parameter, bound to 1; the call of the function given, with
    [f] bound to 1 and [b] to 2, returns [(1, 2)]. *)
Theorem parameter_named_f_is_called :
  ∃ h' g,
    with_kwonly example_world (example_heap g_parameter_named_f)
                (VFunc example_addr) = Return (h', g)
    ∧ g ≠ VFunc example_addr
    ∧ h' !! example_addr = Some g_parameter_named_f
    ∧ call_value 3 h' g [VInt 1] {[ "b" := VInt 2 ]}
      = Raise (Exc TypeError [VStr "'int' object is not callable"])
    ∧ call_value 3 h' (VFunc example_addr) [VInt 1; VInt 2] ∅
      = Return (VTuple [VInt 1; VInt 2])
    ∧ call_value 3 h' (VFunc example_addr) [VInt 1] {[ "b" := VInt 2 ]}
      = Return (VTuple [VInt 1; VInt 2]).
Proof.
  eexists _, _. split; [by vm_compute|].
  split_and!; by vm_compute.
Qed.

(** ** Decoration on the examples *)

Lemma decorating_returns_same_or_new_witness :
  with_kwonly example_world (example_heap f_nothing_to_do)
              (VFunc example_addr)
  = Return (example_heap f_nothing_to_do, VFunc example_addr)
  ∧ ∃ b new_f,
      with_kwonly example_world (example_heap f_doc) (VFunc example_addr)
      = Return (<[b := new_f]> (example_heap f_doc), VFunc b)
      ∧ b ≠ example_addr ∧ example_heap f_doc !! b = None
      ∧ stands_for f_doc new_f.
Proof.
  split.
  - destruct (decorating_returns_same_or_new
                example_world (example_heap f_nothing_to_do) example_addr
                f_nothing_to_do) as (Hsame & _); [reflexivity|].
    apply Hsame. repeat constructor.
  - destruct (decorating_returns_same_or_new
                example_world (example_heap f_doc) example_addr f_doc)
      as (_ & _ & Hnew); [reflexivity|].
    apply (Hnew ltac:(intros Hall; by inversion_clear Hall as [|?? _ Hall'];
                      inversion_clear Hall' as [|?? Hm _])
                f_doc_well_formed
                (WalkState [("b", no_default); ("c", VStr "default")]
                           (Some "c") (Some "args") false)).
    + reflexivity.
    + discriminate.
    + discriminate.
Defined.

(** C3, as stated, fails at [def f(a=kwonly(), b=2)]: a keyword-only
    parameter is present and decoration returns no callable, it raises. *)
Lemma kwonly_present_and_nothing_returned :
  ¬ Forall plain_param (paired_defaults (argspec_of f_plain_after_kwonly))
  ∧ ∀ h' g,
      with_kwonly example_world (example_heap f_plain_after_kwonly)
                  (VFunc example_addr) ≠ Return (h', g).
Proof.
  split.
  - intros Hall. by inversion_clear Hall as [|?? Hp _].
  - intros h' g. vm_compute. discriminate.
Qed.


(** * Further properties of the module *)

(** ** The parameters paired with their defaults *)

Lemma zip_longest_fill {A B} (xs : list A) (ys : list B) fa fb :
  (length ys ≤ length xs)%nat →
  zip_longest xs ys fa fb
  = zip xs (ys ++ replicate (length xs - length ys) fb).
Proof.
  revert ys. induction xs as [|x xs IH]; intros ys Hlen.
  - destruct ys; [done | simpl in Hlen; lia].
  - destruct ys as [|y ys]; simpl.
    + f_equal. rewrite (IH []) by (simpl; lia). simpl.
      by rewrite Nat.sub_0_r.
    + f_equal. apply IH. simpl in Hlen. lia.
Qed.

Lemma reverse_zip {A B} (xs : list A) (ys : list B) :
  length xs = length ys →
  reverse (zip xs ys) = zip (reverse xs) (reverse ys).
Proof.
  revert ys. induction xs as [|x xs IH]; intros [|y ys] Hlen;
    try done; simpl in Hlen.
  change (zip (x :: xs) (y :: ys)) with ((x, y) :: zip xs ys).
  rewrite !reverse_cons, IH by lia.
  rewrite zip_with_app by (rewrite !length_reverse; lia). done.
Qed.

(** X1: the loop of [with_kwonly] sees every positional parameter once,
    in declaration order; the defaults belong to the last parameters, and
    the parameters before them are paired with [no_default]. *)
Theorem paired_defaults_fills_the_front argspec :
  let dflts := default [] (defaults argspec) in
  (length dflts ≤ length (args argspec))%nat →
  paired_defaults argspec
  = zip (args argspec)
        (replicate (length (args argspec) - length dflts) no_default
         ++ dflts).
Proof.
  intros dflts Hlen. unfold paired_defaults. fold dflts.
  rewrite zip_longest_fill by (by rewrite !length_reverse).
  rewrite reverse_zip; first last.
  { rewrite length_app, length_replicate, !length_reverse. lia. }
  rewrite reverse_involutive, reverse_app, reverse_replicate,
    reverse_involutive, !length_reverse. done.
Qed.

Lemma paired_defaults_fills_the_front_witness :
  paired_defaults (argspec_of f_doc)
  = [("a", no_default); ("args", vararg); ("b", VKwonly no_default);
     ("c", VKwonly (VStr "default"))].
Proof.
  rewrite paired_defaults_fills_the_front; [reflexivity | simpl; lia].
Defined.

(** ** The private names *)

Lemma append_inj_r (a b c : string) : a +:+ b = a +:+ c → b = c.
Proof.
  induction a as [|x a IH]; [done|]. rewrite !append_cons.
  intros [= H]. by apply IH.
Qed.

Lemma length_append (a b : string) :
  String.length (a +:+ b) = (String.length a + String.length b)%nat.
Proof.
  induction a as [|x a IH]; [done|]. rewrite append_cons. simpl. by rewrite IH.
Qed.

(** X2: a name made private is an identifier, whatever digit the random
    part starts with, since an underscore comes first; it is never the
    name given, and two names stay apart under one random part. *)
Theorem private_namespace_hides_the_name hex name :
  all_name_chars hex = true → all_name_chars name = true →
  is_identifier (private_namespace hex name) = true
  ∧ private_namespace hex name ≠ name
  ∧ ∀ name', private_namespace hex name = private_namespace hex name' →
             name = name'.
Proof.
  intros Hhex Hname. split_and!.
  - by apply private_namespace_identifier.
  - intros Heq. apply (f_equal String.length) in Heq.
    unfold private_namespace in Heq. rewrite !length_append in Heq.
    simpl in Heq. lia.
  - intros name' Heq. unfold private_namespace in Heq.
    by repeat apply append_inj_r in Heq.
Qed.

Lemma private_namespace_hides_the_name_witness :
  is_identifier
    (private_namespace "0123456789abcdef0123456789abcdef" "kwargs") = true
  ∧ private_namespace "0123456789abcdef0123456789abcdef" "kwargs"
    = "_0123456789abcdef0123456789abcdef_kwargs".
Proof.
  split; [|reflexivity].
  apply (private_namespace_hides_the_name
           "0123456789abcdef0123456789abcdef" "kwargs"); reflexivity.
Defined.

(** ** What a decoration can raise *)

Lemma walk_step_raises_inv w fn st nv e :
  walk_step w fn st nv = Raise e →
  ∃ msg, raise_syntax_error (A := walk_state) w fn msg = Raise e.
Proof.
  destruct nv as [name v]. unfold walk_step.
  destruct (isinstance_kwonly v) eqn:Hk.
  { destruct v; discriminate. }
  destruct (is_ v vararg).
  { destruct (is_not_None (found_vararg st)); [eauto | discriminate]. }
  destruct (is_not_None (found_vararg st) && negb (real_vararg st)); [eauto|].
  destruct (truthy (found_kwonly st)); [eauto | discriminate].
Qed.

Lemma walk_raises_inv w fn st l e :
  walk w fn st l = Raise e →
  ∃ msg, raise_syntax_error (A := walk_state) w fn msg = Raise e.
Proof.
  revert st. induction l as [|nv l IH]; intros st Hw; [discriminate|].
  cbn [walk] in Hw. destruct (walk_step w fn st nv) as [st'|e'] eqn:Hstep.
  - rewrite bind_Return in Hw. by eapply IH.
  - rewrite bind_Raise in Hw. injection Hw as ->.
    by eapply walk_step_raises_inv.
Qed.

Lemma compile_raises_inv src filename e :
  compile src filename = Raise e → e = Exc SyntaxError [VStr "invalid syntax"].
Proof.
  unfold compile.
  destruct (parse_name (sc_extract_kwonlies src)); [|by intros [= <-]].
  destruct (parse_params (sc_wrapper_argspec src)) as [[[??]?]|];
    [|by intros [= <-]].
  destruct (parse_assign (sc_assign_kwonlies src)); [|by intros [= <-]].
  destruct (parse_call_args (sc_call_sig src)) as [[[??]?]|];
    [discriminate | by intros [= <-]].
Qed.

(** X3: everything that decorating a function object can raise.  Either
    the interpreter refuses the generated text, or a check of the walk
    fails; the exception of a failed check depends on the file of the
    function: a SyntaxError that carries the file name, the line number
    and the line of the file with its length; the same with "???" for
    the line when the file cannot be opened; and an IndexError, not a
    SyntaxError, when the file is too short to have that line. *)
Theorem decoration_raises_only w h a fn e :
  h !! a = Some fn →
  with_kwonly w h (VFunc a) = Raise e →
  e = Exc SyntaxError [VStr "invalid syntax"]
  ∨ match files w !! co_filename (__code__ fn) with
    | None => ∃ msg, e = syntax_error_of fn msg "???"
    | Some lines =>
        match py_index lines (co_firstlineno (__code__ fn) - 1) with
        | Some line => ∃ msg, e = syntax_error_of fn msg line
        | None => e = Exc IndexError [VStr "list index out of range"]
        end
    end.
Proof.
  intros Ha Hr. rewrite (with_kwonly_unfold _ _ _ fn) in Hr by done.
  destruct (walk w fn _ _) as [st|e'] eqn:Hw.
  - left. rewrite bind_Return in Hr. unfold with_kwonly_after_walk in Hr.
    destruct (negb _ && _); [discriminate|].
    destruct (if truthy (found_vararg st) then _ else _) as [call_sig spec].
    destruct (compile _ _) as [c|e''] eqn:Hc.
    + rewrite bind_Return in Hr. discriminate.
    + rewrite bind_Raise in Hr. injection Hr as <-.
      by apply compile_raises_inv in Hc.
  - right. rewrite bind_Raise in Hr. injection Hr as ->.
    apply walk_raises_inv in Hw as [msg Hmsg].
    unfold raise_syntax_error, _format_syntax_error, read_line in Hmsg.
    destruct (files w !! co_filename (__code__ fn)) as [lines|].
    + destruct (py_index lines _) as [line|].
      * rewrite !bind_Return in Hmsg. injection Hmsg as <-. by exists msg.
      * rewrite !bind_Raise in Hmsg. by injection Hmsg as <-.
    + rewrite !bind_Return in Hmsg. injection Hmsg as <-. by exists msg.
Qed.

Lemma decoration_raises_only_witness :
  with_kwonly example_world (example_heap f_duplicate_vararg)
              (VFunc example_addr)
  = Raise (syntax_error_of f_duplicate_vararg
             "duplicate 'vararg' arguments" "def f(...):")
  ∧ (syntax_error_of f_duplicate_vararg
       "duplicate 'vararg' arguments" "def f(...):"
     = Exc SyntaxError [VStr "invalid syntax"]
     ∨ ∃ msg, syntax_error_of f_duplicate_vararg
                "duplicate 'vararg' arguments" "def f(...):"
              = syntax_error_of f_duplicate_vararg msg "def f(...):").
Proof.
  split; [reflexivity|].
  apply (decoration_raises_only
           example_world (example_heap f_duplicate_vararg) example_addr
           f_duplicate_vararg); reflexivity.
Defined.

(** ** What [extract_kwonlies] returns *)

Lemma lookup_foldl_delete (m : gmap string value) (l : list string) n :
  foldl (λ m n, delete n m) m l !! n
  = if bool_decide (n ∈ l) then None else m !! n.
Proof.
  revert m. induction l as [|x l IH]; intros m; [done|].
  cbn [foldl]. rewrite IH.
  destruct (decide (n = x)) as [->|Hne].
  - rewrite lookup_delete_eq, (bool_decide_true (x ∈ x :: l)) by by left.
    by destruct (bool_decide _).
  - rewrite lookup_delete_ne by done.
    destruct (decide (n ∈ l)) as [Hin|Hin].
    + rewrite !bool_decide_true; [done|by right|done].
    + rewrite !bool_decide_false; [done| |done].
      by intros [?|?]%elem_of_cons.
Qed.

(** X4: when [extract_kwonlies] returns, it returns one value for every
    keyword-only parameter, in declaration order: the value of the
    dictionary under the name of the parameter, or else the recorded
    default; none of the values is the sentinel [no_default]; and the
    dictionary has lost the names of the keyword-only parameters and
    nothing else. *)
Theorem extract_kwonlies_returns h f kd (kwargs : gmap string value) ret rest :
  NoDup (kd.*1) →
  extract_kwonlies h f kd kwargs = Return (ret, rest) →
  ret = resolved kwargs <$> kd
  ∧ Forall (λ v, is_ v no_default = false) ret
  ∧ ∀ n, rest !! n = if bool_decide (n ∈ kd.*1) then None else kwargs !! n.
Proof.
  intros Hnd Hr.
  assert (Hm : unresolved kd kwargs = []).
  { unfold extract_kwonlies in Hr. rewrite extract_loop_spec in Hr by done.
    cbn [es_missing_kwonlies] in Hr.
    destruct (unresolved kd kwargs) as [|m ms]; [done|].
    destruct (missing_args (m :: ms)); [|discriminate].
    rewrite bind_Return in Hr. by destruct (getattr_name h f). }
  rewrite extract_kwonlies_resolved in Hr by done.
  injection Hr as <- <-. split_and!; [done| |].
  - apply Forall_fmap, Forall_forall. intros nd Hin. simpl.
    destruct (is_ (resolved kwargs nd) no_default) eqn:Hs; [|done].
    assert (nd.1 ∈ unresolved kd kwargs) as Hin'.
    { destruct nd as [n d]. by apply (elem_of_unresolved _ _ n d). }
    rewrite Hm in Hin'. by apply elem_of_nil in Hin'.
  - intros n. apply lookup_foldl_delete.
Qed.

Lemma extract_kwonlies_returns_witness :
  ∃ ret rest,
    extract_kwonlies kwo_module no_default
      [("b", no_default); ("c", VStr "default")]
      {[ "b" := VInt 1; "z" := VInt 2 ]}
    = Return (ret, rest)
    ∧ ret = [VInt 1; VStr "default"]
    ∧ rest !! "b" = None ∧ rest !! "z" = Some (VInt 2).
Proof.
  assert (Hnd : NoDup ([("b", no_default); ("c", VStr "default")].*1))
    by (apply (bool_decide_unpack _); by vm_compute).
  destruct (extract_kwonlies kwo_module no_default
              [("b", no_default); ("c", VStr "default")]
              {[ "b" := VInt 1; "z" := VInt 2 ]}) as [[ret rest]|e] eqn:Hr;
    [|by vm_compute in Hr].
  destruct (extract_kwonlies_returns _ _ _ _ _ _ Hnd Hr) as (Hret & _ & Hrest).
  exists ret, rest. split_and!; [done|by rewrite Hret|by rewrite Hrest..].
Defined.

(** ** The signatures that pass the checks of the walk *)

Lemma walk_step_raise_contra w fn msg (st : walk_state) :
  raise_syntax_error w fn msg = Return st → False.
Proof.
  destruct (raise_syntax_error_raises (A := walk_state) w fn msg) as [e He].
  by rewrite He.
Qed.

(** From a keyword-only parameter on: keyword-only parameters, with at
    most one marker among them. *)
Lemma walk_after_kwonly_inv w fn st l st' k :
  Forall (λ nv, nv.1 ≠ "") l →
  found_kwonly st = Some k → k ≠ "" → no_marker_yet st →
  walk w fn st l = Return st' →
  Forall kwonly_param l
  ∨ ∃ kws m kws2,
      found_vararg st = None ∧ Forall kwonly_param kws
      ∧ Forall kwonly_param kws2 ∧ l = kws ++ (m, vararg) :: kws2.
Proof.
  intros Hnames. revert st k.
  induction Hnames as [|nv l Hn Hnames IH]; intros st k Hfk Hk Hnm Hw.
  { left. constructor. }
  cbn [walk] in Hw. apply bind_Return_inv in Hw as (st1 & Hstep & Hw).
  destruct (param_cases nv) as [Hkw|[Hm|Hp]].
  - rewrite walk_step_kwonly in Hstep by done. injection Hstep as <-.
    destruct (IH (WalkState _ (Some nv.1) _ _) nv.1 eq_refl Hn Hnm Hw)
      as [Hall|(kws & m & kws2 & Hfv & Hk1 & Hk2 & ->)].
    + left. by constructor.
    + right. exists (nv :: kws), m, kws2. split_and!; try done.
      by constructor.
  - destruct nv as [name v]. simpl in Hm. subst v.
    destruct (found_vararg st) as [v|] eqn:Hfv.
    { rewrite walk_step_duplicate in Hstep by (by rewrite Hfv).
      by apply walk_step_raise_contra in Hstep. }
    rewrite walk_step_marker in Hstep by done. injection Hstep as <-.
    right. exists [], name, l. split_and!; try done.
    by apply (walk_after_marker _ _ _ _ _ name) in Hw.
  - rewrite (walk_step_after_kwonly _ _ _ _ k) in Hstep by done.
    by apply walk_step_raise_contra in Hstep.
Qed.

(** From the start: plain parameters, then the rest. *)
Lemma walk_from_start_inv w fn st l st' :
  Forall (λ nv, nv.1 ≠ "") l →
  found_kwonly st = None → no_marker_yet st →
  walk w fn st l = Return st' →
  ∃ plains kws,
    Forall plain_param plains ∧ Forall kwonly_param kws
    ∧ (l = plains ++ kws
       ∨ ∃ m kws2,
           found_vararg st = None ∧ Forall kwonly_param kws2
           ∧ l = plains ++ kws ++ (m, vararg) :: kws2).
Proof.
  intros Hnames. revert st.
  induction Hnames as [|nv l Hn Hnames IH]; intros st Hfk Hnm Hw.
  { exists [], []. split_and!; try done. by left. }
  cbn [walk] in Hw. apply bind_Return_inv in Hw as (st1 & Hstep & Hw).
  destruct (param_cases nv) as [Hkw|[Hm|Hp]].
  - rewrite walk_step_kwonly in Hstep by done. injection Hstep as <-.
    destruct (walk_after_kwonly_inv _ _ (WalkState _ (Some nv.1) _ _) _ _
                nv.1 Hnames eq_refl Hn Hnm Hw)
      as [Hall|(kws & m & kws2 & Hfv & Hk1 & Hk2 & ->)].
    + exists [], (nv :: l). split_and!; try done; [by constructor | by left].
    + exists [], (nv :: kws). split_and!; try done; [by constructor|].
      right. by exists m, kws2.
  - destruct nv as [name v]. simpl in Hm. subst v.
    destruct (found_vararg st) as [v|] eqn:Hfv.
    { rewrite walk_step_duplicate in Hstep by (by rewrite Hfv).
      by apply walk_step_raise_contra in Hstep. }
    rewrite walk_step_marker in Hstep by done. injection Hstep as <-.
    exists [], []. split_and!; try done. right. exists name, l.
    split_and!; try done.
    by apply (walk_after_marker _ _ _ _ _ name) in Hw.
  - rewrite walk_step_plain in Hstep by done. injection Hstep as <-.
    destruct (IH _ Hfk Hnm Hw)
      as (plains & kws & Hpl & Hk & [->|(m & kws2 & Hfv & Hk2 & ->)]).
    + exists (nv :: plains), kws. split_and!; try done; [by constructor|].
      by left.
    + exists (nv :: plains), kws. split_and!; try done; [by constructor|].
      right. by exists m, kws2.
Qed.

(** X5: the signatures that the checks of [with_kwonly] let through.  The
    walk over the parameters returns exactly when the plain parameters
    come first and keyword-only parameters follow, with at most one
    marker among these, and none if the function has a variadic
    parameter of its own; it then has recorded the keyword-only
    parameters with their defaults in declaration order, and the marker
    as the variadic parameter. *)
Theorem walk_accepts_exactly w fn argspec params :
  Forall (λ nv, nv.1 ≠ "") params →
  ((∃ st, walk w fn (initial_walk_state argspec) params = Return st)
   ↔ accepted_order argspec params)
  ∧ (∀ plains kws,
       Forall plain_param plains → Forall kwonly_param kws →
       params = plains ++ kws →
       ∃ st, walk w fn (initial_walk_state argspec) params = Return st
             ∧ kwonly_defaults st = recorded_default <$> kws
             ∧ found_vararg st = varargs argspec)
  ∧ (∀ plains kws m kws2,
       Forall plain_param plains → Forall kwonly_param kws →
       Forall kwonly_param kws2 → varargs argspec = None →
       params = plains ++ kws ++ (m, vararg) :: kws2 →
       ∃ st, walk w fn (initial_walk_state argspec) params = Return st
             ∧ kwonly_defaults st = recorded_default <$> (kws ++ kws2)
             ∧ found_vararg st = Some m).
Proof.
  intros Hnames.
  assert (H1 : ∀ plains kws,
       Forall plain_param plains → Forall kwonly_param kws →
       params = plains ++ kws →
       ∃ st, walk w fn (initial_walk_state argspec) params = Return st
             ∧ kwonly_defaults st = recorded_default <$> kws
             ∧ found_vararg st = varargs argspec).
  { intros plains kws Hp Hk ->. eexists. split; [by apply walk_valid_prefix|].
    done. }
  assert (H2 : ∀ plains kws m kws2,
       Forall plain_param plains → Forall kwonly_param kws →
       Forall kwonly_param kws2 → varargs argspec = None →
       params = plains ++ kws ++ (m, vararg) :: kws2 →
       ∃ st, walk w fn (initial_walk_state argspec) params = Return st
             ∧ kwonly_defaults st = recorded_default <$> (kws ++ kws2)
             ∧ found_vararg st = Some m).
  { intros plains kws m kws2 Hp Hk Hk2 Hva ->.
    replace (plains ++ kws ++ (m, vararg) :: kws2)
      with ((plains ++ kws ++ [(m, vararg)]) ++ kws2)
      by (by rewrite <- !app_assoc).
    rewrite walk_app, walk_to_marker, bind_Return by done.
    rewrite walk_kwonlys by done. eexists. split; [done|]. simpl.
    by rewrite fmap_app. }
  split_and!; [|done|done]. split.
  - intros [st Hw].
    apply walk_from_start_inv in Hw
      as (plains & kws & Hp & Hk & Hshape);
      [|done|done|apply no_marker_initially].
    exists plains, kws. split_and!; [done|done|exact Hshape].
  - intros (plains & kws & Hp & Hk & [->|(m & kws2 & Hva & Hk2 & ->)]).
    + destruct (H1 plains kws) as (st & Hw & _); eauto.
    + destruct (H2 plains kws m kws2) as (st & Hw & _); eauto.
Qed.

Lemma walk_accepts_exactly_witness :
  accepted_order (argspec_of f_doc) (paired_defaults (argspec_of f_doc))
  ∧ ¬ accepted_order (argspec_of f_plain_after_kwonly)
        (paired_defaults (argspec_of f_plain_after_kwonly)).
Proof.
  split.
  - destruct (walk_accepts_exactly example_world f_doc (argspec_of f_doc)
                (paired_defaults (argspec_of f_doc))) as ([Hacc _] & _ & _).
    + by apply (bool_decide_unpack _); vm_compute.
    + apply Hacc. by eexists.
  - destruct (walk_accepts_exactly example_world f_plain_after_kwonly
                (argspec_of f_plain_after_kwonly)
                (paired_defaults (argspec_of f_plain_after_kwonly)))
      as ([_ Hwalk] & _ & _).
    + by apply (bool_decide_unpack _); vm_compute.
    + intros [st Hw]%Hwalk. by vm_compute in Hw.
Defined.

(** ** Decorations that the interpreter refuses *)

Lemma f_only_kwonly_well_formed : well_formed example_world f_only_kwonly.
Proof. example_well_formed. Qed.

Lemma f_plain_after_vararg_well_formed :
  well_formed example_world f_plain_after_vararg.
Proof. example_well_formed. Qed.

(** X6: a function whose parameters pass the checks, but of which none
    stays positional, or which has a marker and no keyword-only
    parameter, cannot be decorated: the text that [with_kwonly] writes
    for it has a comma with nothing before it, and the decoration raises
    the SyntaxError of the interpreter. *)
Theorem decoration_refused_by_interpreter w h a fn st :
  h !! a = Some fn → well_formed w fn →
  walk w fn (initial_walk_state (argspec_of fn))
       (paired_defaults (argspec_of fn)) = Return st →
  ¬ Forall plain_param (paired_defaults (argspec_of fn)) →
  plain_names (argspec_of fn) st = [] ∨ kwonly_defaults st = [] →
  with_kwonly w h (VFunc a) = Raise (Exc SyntaxError [VStr "invalid syntax"]).
Proof.
  intros Ha Hwf Hw Hnp Hempty.
  rewrite (with_kwonly_unfold _ _ _ fn), Hw, bind_Return by done.
  destruct (walk_names _ _ _ Hwf Hw) as (Hsub & _ & _).
  apply with_kwonly_after_walk_refused; try done.
  apply andb_false_iff.
  destruct (walk_not_plain _ _ _ _ _ Hw Hnp) as [Hk|[Hv1 Hv2]].
  - left. by rewrite Hk.
  - right. apply bool_decide_eq_false. intros Heq.
    change (varargs (argspec_of fn) = None) in Hv1.
    by rewrite Heq, Hv1 in Hv2.
Qed.

Lemma decoration_refused_by_interpreter_witness :
  with_kwonly example_world (example_heap f_only_kwonly) (VFunc example_addr)
  = Raise (Exc SyntaxError [VStr "invalid syntax"]).
Proof.
  apply (decoration_refused_by_interpreter
           example_world (example_heap f_only_kwonly) example_addr
           f_only_kwonly
           (WalkState [("b", no_default)] (Some "b") None false)).
  - reflexivity.
  - exact f_only_kwonly_well_formed.
  - reflexivity.
  - intros Hall. by inversion_clear Hall as [|?? Hp _].
  - by left.
Defined.

(** ** Decorating twice *)

Lemma walk_step_any_world w w' fn st nv st' :
  walk_step w fn st nv = Return st' → walk_step w' fn st nv = Return st'.
Proof.
  destruct nv as [name v]. unfold walk_step.
  destruct (isinstance_kwonly v); [done|].
  destruct (is_ v vararg).
  { destruct (is_not_None (found_vararg st)); [|done].
    by intros ?%walk_step_raise_contra. }
  destruct (is_not_None (found_vararg st) && negb (real_vararg st)).
  { by intros ?%walk_step_raise_contra. }
  destruct (truthy (found_kwonly st)); [|done].
  by intros ?%walk_step_raise_contra.
Qed.

Lemma walk_any_world w w' fn st l st' :
  walk w fn st l = Return st' → walk w' fn st l = Return st'.
Proof.
  revert st. induction l as [|nv l IH]; intros st Hw; [done|].
  cbn [walk] in *. apply bind_Return_inv in Hw as (st1 & Hstep & Hw).
  rewrite (walk_step_any_world _ w' _ _ _ _ Hstep), bind_Return. by apply IH.
Qed.

Lemma with_kwonly_fast_path w h a fn :
  h !! a = Some fn →
  Forall plain_param (paired_defaults (argspec_of fn)) →
  with_kwonly w h (VFunc a) = Return (h, VFunc a).
Proof.
  intros Ha Hplain. rewrite (with_kwonly_unfold _ _ _ fn) by done.
  rewrite walk_plains; [|done|apply no_marker_initially|done].
  rewrite bind_Return. unfold with_kwonly_after_walk. simpl.
  by rewrite bool_decide_true.
Qed.

(** X7: decorating the result of a decoration changes nothing.  Whatever
    [with_kwonly] returns for a function, [with_kwonly] returns that very
    object for it again, in an unchanged heap, and whatever the random
    names and the files are by then. *)
Theorem decorating_twice_changes_nothing w w' h a fn h' g :
  h !! a = Some fn → well_formed w fn →
  with_kwonly w h (VFunc a) = Return (h', g) →
  with_kwonly w' h' g = Return (h', g).
Proof.
  intros Ha Hwf Hr.
  destruct (with_kwonly_returns_inv _ _ _ fn _ Ha Hr) as (st & Hw & Hafter).
  apply with_kwonly_after_walk_inv in Hafter
    as [(Hfast & -> & ->)|(_ & new_f & Hg & Hh & _)].
  - rewrite (with_kwonly_unfold _ _ _ fn) by done.
    rewrite (walk_any_world _ w' _ _ _ _ Hw), bind_Return.
    unfold with_kwonly_after_walk. by rewrite Hfast.
  - assert (Hne : g ≠ VFunc a).
    { rewrite Hg. intros [= Heq].
      assert (Hf : h !! fresh (dom h) = None) by apply not_elem_of_dom, is_fresh.
      by rewrite Heq, Ha in Hf. }
    destruct (with_kwonly_rewrites_inv _ _ _ _ _ _ Ha Hwf Hr Hne)
      as (st' & _ & _ & _ & -> & ->).
    apply (with_kwonly_fast_path _ _ _ (synthesized w (VFunc a) fn st')).
    + apply lookup_insert_eq.
    + apply (paired_defaults_snd _ (λ v, is_plain v = true)); [done|].
      constructor.
Qed.

Lemma decorating_twice_changes_nothing_witness :
  ∃ h' g,
    with_kwonly example_world (example_heap f_doc) (VFunc example_addr)
    = Return (h', g)
    ∧ g ≠ VFunc example_addr
    ∧ with_kwonly example_world h' g = Return (h', g).
Proof.
  pose (st := WalkState [("b", no_default); ("c", VStr "default")]
                        (Some "c") (Some "args") false).
  assert (Hr : with_kwonly example_world (example_heap f_doc)
                 (VFunc example_addr)
    = Return (<[fresh (dom (example_heap f_doc))
                := synthesized example_world (VFunc example_addr) f_doc st]>
                (example_heap f_doc),
              VFunc (fresh (dom (example_heap f_doc))))).
  { apply (with_kwonly_synthesizes _ _ _ f_doc st);
      [reflexivity|exact f_doc_well_formed|reflexivity|discriminate
      |discriminate]. }
  eexists _, _. split; [exact Hr|]. split; [by vm_compute|].
  apply (decorating_twice_changes_nothing
           example_world example_world (example_heap f_doc) example_addr
           f_doc); [reflexivity|exact f_doc_well_formed|exact Hr].
Defined.

(** ** The signature of the function that a decoration returns *)

Lemma filter_partition_NoDup (l out : list string) (P : string → Prop)
  `{!∀ x, Decision (P x)} :
  NoDup l → NoDup out → (∀ x, x ∈ out ↔ x ∈ l ∧ ¬ P x) →
  l ≡ₚ filter P l ++ out.
Proof.
  intros Hl Hout Hiff. apply NoDup_Permutation; [done| |].
  - apply NoDup_app. split_and!; [by apply NoDup_filter| |done].
    intros x [HP _]%list_elem_of_filter [_ HnP]%Hiff. done.
  - intros x. rewrite elem_of_app, list_elem_of_filter, Hiff.
    destruct (decide (P x)); tauto.
Qed.

(** X8: what [inspect.getargspec] shows of the function that a
    decoration returns.  Its positional parameters are the plain
    parameters of the function given, in their order; its variadic
    parameter is the marker, or the variadic parameter of the function
    given; it always has a parameter for the other keyword arguments; and
    it has no default at all, also for the plain parameters that had
    one.  Every positional parameter of the function given is among the
    positional parameters of the new function, or has been recorded as
    keyword-only, or is the marker, and only one of these. *)
Theorem rewritten_function_signature w h a fn h' g :
  h !! a = Some fn → well_formed w fn →
  with_kwonly w h (VFunc a) = Return (h', g) → g ≠ VFunc a →
  ∃ st b new_f,
    walk w fn (initial_walk_state (argspec_of fn))
         (paired_defaults (argspec_of fn)) = Return st
    ∧ g = VFunc b ∧ h' !! b = Some new_f
    ∧ argspec_of new_f
      = MkArgSpec (plain_names (argspec_of fn) st) (found_vararg st)
                  (Some (kwargname_of w (argspec_of fn))) None
    ∧ plain_names (argspec_of fn) st `sublist_of` args (argspec_of fn)
    ∧ (found_vararg st = varargs (argspec_of fn)
       ∨ varargs (argspec_of fn) = None)
    ∧ args (argspec_of fn)
      ≡ₚ plain_names (argspec_of fn) st ++ (kwonly_defaults st).*1
         ++ match varargs (argspec_of fn) with
            | None => option_list (found_vararg st)
            | Some _ => []
            end.
Proof.
  intros Ha Hwf Hr Hg.
  destruct (with_kwonly_rewrites_inv _ _ _ _ _ _ Ha Hwf Hr Hg)
    as (st & Hw & Hkd & Hpl & -> & ->).
  destruct (walk_names _ _ _ Hwf Hw) as (Hsub & _ & Hfv).
  exists st, (fresh (dom h)), (synthesized w (VFunc a) fn st).
  split_and!; try done.
  - apply lookup_insert_eq.
  - apply sublist_filter.
  - destruct Hwf as (_ & Hnd & _).
    unfold declared_names in Hnd. rewrite app_assoc in Hnd.
    apply NoDup_app in Hnd as (Hnd & _ & _).
    pose proof (NoDup_of_submseteq _ _ Hsub Hnd) as Hnv.
    assert (Hin : ∀ x, x ∈ (kwonly_defaults st).*1
                           ++ option_list (found_vararg st)
                  → x ∈ args (argspec_of fn)
                        ++ option_list (varargs (argspec_of fn)))
      by (intros x Hx; by eapply elem_of_submseteq).
    apply NoDup_app in Hnd as (Hargs & Hdisj & _).
    unfold plain_names. apply filter_partition_NoDup; [done| |].
    + destruct (varargs (argspec_of fn)) as [v|] eqn:Hva; [|done].
      rewrite app_nil_r. by apply NoDup_app in Hnv as (? & _ & _).
    + intros x. destruct (varargs (argspec_of fn)) as [v|] eqn:Hva.
      * destruct Hfv as [Hfv|?]; [|done]. rewrite app_nil_r. split.
        -- intros Hx. assert (Hx' : x ∈ args (argspec_of fn) ++ [v]).
           { apply Hin, elem_of_app. by left. }
           apply elem_of_app in Hx' as [Hx'|Hx'].
           ++ split; [done|]. by intros [? _].
           ++ apply list_elem_of_singleton in Hx' as ->.
              apply NoDup_app in Hnv as (_ & Hd & _).
              destruct (Hd v Hx). rewrite Hfv. by left.
        -- intros [Hx Hnot].
           destruct (decide (x ∈ (kwonly_defaults st).*1)); [done|].
           destruct Hnot. split; [done|]. rewrite Hfv. intros [= <-].
           apply (Hdisj _ Hx). by left.
      * rewrite app_nil_r in Hin. split.
        -- intros Hx. split; [by apply Hin|].
           intros [Hn Hv]. apply elem_of_app in Hx as [Hx|Hx]; [done|].
           by apply elem_of_option_list in Hx.
        -- intros [Hx Hnot]. apply elem_of_app.
           destruct (decide (x ∈ (kwonly_defaults st).*1)); [by left|].
           right. apply elem_of_option_list.
           destruct (decide (found_vararg st = Some x)); [done|].
           by destruct Hnot.
Qed.

Lemma rewritten_function_signature_witness :
  ∃ h' b new_f,
    with_kwonly example_world (example_heap f_doc) (VFunc example_addr)
    = Return (h', VFunc b)
    ∧ h' !! b = Some new_f
    ∧ argspec_of new_f
      = MkArgSpec ["a"] (Some "args") (Some "kwargs") None.
Proof.
  pose (st := WalkState [("b", no_default); ("c", VStr "default")]
                        (Some "c") (Some "args") false).
  assert (Hr : with_kwonly example_world (example_heap f_doc)
                 (VFunc example_addr)
    = Return (<[fresh (dom (example_heap f_doc))
                := synthesized example_world (VFunc example_addr) f_doc st]>
                (example_heap f_doc),
              VFunc (fresh (dom (example_heap f_doc))))).
  { apply (with_kwonly_synthesizes _ _ _ f_doc st);
      [reflexivity|exact f_doc_well_formed|reflexivity|discriminate
      |discriminate]. }
  destruct (rewritten_function_signature
              example_world (example_heap f_doc) example_addr f_doc _ _
              (eq_refl : example_heap f_doc !! example_addr = Some f_doc)
              f_doc_well_formed Hr)
    as (st' & b & new_f & Hw & Hg & Hb & Hspec & _).
  { by vm_compute. }
  assert (st' = st) as -> by (vm_compute in Hw; by injection Hw as <-).
  eexists _, b, new_f. rewrite <- Hg. split_and!; [exact Hr|exact Hb|].
  rewrite Hspec. reflexivity.
Defined.

(** ** Calls that the new function refuses *)

Lemma f_plain_with_default_well_formed :
  well_formed example_world f_plain_with_default.
Proof. example_well_formed. Qed.

Lemma f_one_kwonly_well_formed : well_formed example_world f_one_kwonly.
Proof. example_well_formed. Qed.

(** A positional parameter of the new function that the call gives
    neither by position nor by keyword. *)
Lemma bind_args_synthesized_unbound w f fn st pos (kw : gmap string value) n :
  n ∈ drop (length pos) (plain_names (argspec_of fn) st) → kw !! n = None →
  bind_args (synthesized w f fn st) pos kw
  = Raise (arg_error (co_name (__code__ fn))).
Proof.
  intros Hin Hn. unfold bind_args.
  change (args (argspec_of (synthesized w f fn st)))
    with (plain_names (argspec_of fn) st).
  change (co_name (__code__ (synthesized w f fn st)))
    with (co_name (__code__ fn)).
  destruct (bool_decide (Exists _ _)); [done|].
  change (keywords (argspec_of (synthesized w f fn st)))
    with (Some (kwargname_of w (argspec_of fn))).
  cbn [is_not_None negb]. rewrite andb_false_r.
  destruct (bool_decide _ && _); [done|].
  by rewrite (bind_rest_unbound _ _ _ _ n)
    by (done || by intros j; apply default_for_no_defaults).
Qed.

(** More positional values than positional parameters, and no variadic
    parameter to take them. *)
Lemma bind_args_synthesized_too_many w f fn st pos (kw : gmap string value) :
  found_vararg st = None →
  (length (plain_names (argspec_of fn) st) < length pos)%nat →
  bind_args (synthesized w f fn st) pos kw
  = Raise (arg_error (co_name (__code__ fn))).
Proof.
  intros Hfv Hlen. unfold bind_args.
  change (args (argspec_of (synthesized w f fn st)))
    with (plain_names (argspec_of fn) st).
  change (co_name (__code__ (synthesized w f fn st)))
    with (co_name (__code__ fn)).
  destruct (bool_decide (Exists _ _)); [done|].
  change (keywords (argspec_of (synthesized w f fn st)))
    with (Some (kwargname_of w (argspec_of fn))).
  cbn [is_not_None negb]. rewrite andb_false_r.
  change (varargs (argspec_of (synthesized w f fn st)))
    with (found_vararg st).
  rewrite Hfv. cbn [is_not_None negb]. by rewrite bool_decide_true.
Qed.

(** X9: the new function has forgotten the defaults of the plain
    parameters.  A call that gives a positional parameter of the new
    function neither by position nor by keyword raises a TypeError,
    whether the function given declares a default for it or not. *)
Theorem plain_defaults_are_dropped w h a fn h' g :
  h !! a = Some fn → well_formed w fn →
  with_kwonly w h (VFunc a) = Return (h', g) → g ≠ VFunc a →
  ∃ st,
    walk w fn (initial_walk_state (argspec_of fn))
         (paired_defaults (argspec_of fn)) = Return st
    ∧ ∀ fuel pos (kw : gmap string value) n,
        n ∈ drop (length pos) (plain_names (argspec_of fn) st) →
        kw !! n = None →
        ∃ msg, call_value (S fuel) h' g pos kw
               = Raise (Exc TypeError [VStr msg]).
Proof.
  intros Ha Hwf Hr Hg.
  destruct (with_kwonly_rewrites_inv _ _ _ _ _ _ Ha Hwf Hr Hg)
    as (st & Hw & Hkd & Hpl & -> & ->).
  exists st. split; [done|]. intros fuel pos kw n Hin Hn.
  cbn [call_value]. rewrite lookup_insert_eq.
  rewrite (bind_args_synthesized_unbound _ _ _ _ _ _ n) by done.
  rewrite bind_Raise. by eexists.
Qed.

Lemma plain_defaults_are_dropped_witness :
  ∃ h' g,
    with_kwonly example_world (example_heap f_plain_with_default)
                (VFunc example_addr) = Return (h', g)
    ∧ (∃ msg, call_value 2 h' g [VInt 1] {[ "c" := VInt 3 ]}
              = Raise (Exc TypeError [VStr msg]))
    ∧ call_value 2 h' (VFunc example_addr) [VInt 1] {[ "c" := VInt 3 ]}
      = Return (VTuple [VInt 1; VInt 1; VInt 3]).
Proof.
  pose (st := WalkState [("c", no_default)] (Some "c") None false).
  pose (hp := example_heap f_plain_with_default).
  assert (Hr : with_kwonly example_world hp (VFunc example_addr)
    = Return (<[fresh (dom hp)
                := synthesized example_world (VFunc example_addr)
                     f_plain_with_default st]> hp,
              VFunc (fresh (dom hp)))).
  { apply (with_kwonly_synthesizes _ _ _ f_plain_with_default st);
      [reflexivity|exact f_plain_with_default_well_formed|reflexivity
      |discriminate|discriminate]. }
  destruct (plain_defaults_are_dropped
              example_world hp example_addr f_plain_with_default _ _
              (eq_refl : hp !! example_addr = Some f_plain_with_default)
              f_plain_with_default_well_formed Hr)
    as (st' & Hw & Hcall).
  { by vm_compute. }
  assert (st' = st) as -> by (vm_compute in Hw; by injection Hw as <-).
  eexists _, _. split; [exact Hr|]. split; [|by vm_compute].
  apply (Hcall 1%nat [VInt 1] {[ "c" := VInt 3 ]} "b").
  - apply (bool_decide_unpack _). by vm_compute.
  - reflexivity.
Defined.

(** X10: a keyword-only parameter cannot be given by position.  When the
    function has no variadic parameter, a call of the new function with
    more positional values than plain parameters raises a TypeError,
    whatever its keyword arguments. *)
Theorem keyword_only_not_by_position w h a fn h' g :
  h !! a = Some fn → well_formed w fn →
  with_kwonly w h (VFunc a) = Return (h', g) → g ≠ VFunc a →
  ∃ st,
    walk w fn (initial_walk_state (argspec_of fn))
         (paired_defaults (argspec_of fn)) = Return st
    ∧ ∀ fuel pos (kw : gmap string value),
        found_vararg st = None →
        (length (plain_names (argspec_of fn) st) < length pos)%nat →
        ∃ msg, call_value (S fuel) h' g pos kw
               = Raise (Exc TypeError [VStr msg]).
Proof.
  intros Ha Hwf Hr Hg.
  destruct (with_kwonly_rewrites_inv _ _ _ _ _ _ Ha Hwf Hr Hg)
    as (st & Hw & Hkd & Hpl & -> & ->).
  exists st. split; [done|]. intros fuel pos kw Hfv Hlen.
  cbn [call_value]. rewrite lookup_insert_eq.
  rewrite bind_args_synthesized_too_many by done.
  rewrite bind_Raise. by eexists.
Qed.

Lemma keyword_only_not_by_position_witness :
  ∃ h' g,
    with_kwonly example_world (example_heap f_one_kwonly)
                (VFunc example_addr) = Return (h', g)
    ∧ (∃ msg, call_value 2 h' g [VInt 1; VInt 2] ∅
              = Raise (Exc TypeError [VStr msg]))
    ∧ call_value 2 h' g [VInt 1] {[ "b" := VInt 2 ]}
      = Return (VTuple [VInt 1; VInt 2]).
Proof.
  pose (st := WalkState [("b", no_default)] (Some "b") None false).
  pose (hp := example_heap f_one_kwonly).
  assert (Hr : with_kwonly example_world hp (VFunc example_addr)
    = Return (<[fresh (dom hp)
                := synthesized example_world (VFunc example_addr)
                     f_one_kwonly st]> hp,
              VFunc (fresh (dom hp)))).
  { apply (with_kwonly_synthesizes _ _ _ f_one_kwonly st);
      [reflexivity|exact f_one_kwonly_well_formed|reflexivity
      |discriminate|discriminate]. }
  destruct (keyword_only_not_by_position
              example_world hp example_addr f_one_kwonly _ _
              (eq_refl : hp !! example_addr = Some f_one_kwonly)
              f_one_kwonly_well_formed Hr)
    as (st' & Hw & Hcall).
  { by vm_compute. }
  assert (st' = st) as -> by (vm_compute in Hw; by injection Hw as <-).
  eexists _, _. split; [exact Hr|]. split; [|by vm_compute].
  apply (Hcall 1%nat [VInt 1; VInt 2] ∅); [reflexivity | simpl; lia].
Defined.

(** ** The parameters that the function given sees *)

Lemma bind_rest_keywords sp (kw : gmap string value) i names vs :
  bound kw names vs → bind_rest sp kw i names = Some (zip names vs).
Proof.
  intros Hb. revert i. induction Hb as [|n v names vs Hn Hb IH]; intros i.
  - done.
  - cbn [bind_rest]. rewrite Hn. cbn [mbind option_bind].
    by rewrite IH.
Qed.

Lemma filter_keys_outside (names : list string) (m1 m2 : gmap string value) :
  (∀ n v, m1 !! n = Some v → n ∈ names) →
  (∀ n, n ∈ names → m2 !! n = None) →
  filter (λ kv, kv.1 ∉ names) (m1 ∪ m2) = m2.
Proof.
  intros H1 H2. apply map_eq. intros n.
  destruct (m2 !! n) as [v|] eqn:Hv.
  - apply map_lookup_filter_Some. split.
    + apply lookup_union_Some_raw. right. split; [|done].
      destruct (m1 !! n) as [v1|] eqn:Hv1; [|done].
      apply H1 in Hv1. apply H2 in Hv1. congruence.
    + simpl. intros Hin. apply H2 in Hin. congruence.
  - apply map_lookup_filter_None. destruct (m1 !! n) as [v1|] eqn:Hv1.
    + right. intros v' _. simpl. intros Hout. by apply Hout, (H1 n v1).
    + left. by apply lookup_union_None.
Qed.

(** The binding of a call that gives the first parameters by position
    and all the others by keyword. *)
Lemma bind_args_positions_then_keywords fn pl mk kn pvals T rv
  (rest : gmap string value) :
  args (argspec_of fn) = pl ++ option_list mk ++ kn →
  varargs (argspec_of fn) = None →
  NoDup (pl ++ option_list mk ++ kn) →
  length pvals = length pl → length rv = length kn →
  (∀ n, n ∈ pl ++ option_list mk ++ kn → rest !! n = None) →
  (keywords (argspec_of fn) = None → rest = ∅) →
  bind_args fn (pvals ++ match mk with Some _ => [T] | None => [] end)
            (list_to_map (zip kn rv) ∪ rest)
  = Return (bind_opt (keywords (argspec_of fn)) (VDict rest)
              (list_to_map
                 (zip pl pvals
                  ++ match mk with Some m => [(m, T)] | None => [] end
                  ++ zip kn rv))).
Proof.
  intros Hargs Hva Hnd Hlp Hlr Hrest Hkw.
  set (tl := match mk with Some _ => [T] | None => [] end).
  assert (Htl : length tl = length (option_list mk)) by (by destruct mk).
  assert (Hkn : NoDup kn).
  { rewrite app_assoc in Hnd. by apply NoDup_app in Hnd as (_ & _ & ?). }
  assert (Hfront : ∀ n, n ∈ pl ++ option_list mk → n ∉ kn).
  { rewrite app_assoc in Hnd. apply NoDup_app in Hnd as (_ & Hd & _).
    intros n Hn. by apply Hd. }
  assert (Hkeys : ∀ n v,
            (list_to_map (zip kn rv) : gmap string value) !! n = Some v →
            n ∈ kn).
  { intros n v Hv. apply elem_of_list_to_map_2 in Hv.
    apply (list_elem_of_fmap_2 fst) in Hv. simpl in Hv.
    by rewrite fst_zip in Hv by lia. }
  unfold bind_args. rewrite Hargs, Hva.
  rewrite length_app, Htl.
  replace (take (length pvals + length (option_list mk))
                (pl ++ option_list mk ++ kn))
    with (pl ++ option_list mk)
    by (rewrite app_assoc, take_app_length'; [done|];
        rewrite length_app; lia).
  replace (drop (length pvals + length (option_list mk))
                (pl ++ option_list mk ++ kn)) with kn
    by (rewrite app_assoc, drop_app_length'; [done|];
        rewrite length_app; lia).
  rewrite drop_ge by (rewrite !length_app, Htl; lia).
  rewrite filter_keys_outside; [|intros n v Hv|done].
  2:{ apply Hkeys in Hv. rewrite !elem_of_app. auto. }
  rewrite bool_decide_false; first last.
  { intros Hex. apply Exists_exists in Hex as (n & Hn & [v Hv]).
    apply lookup_union_Some_raw in Hv as [Hv|[_ Hv]].
    - apply Hkeys in Hv. by apply (Hfront n).
    - rewrite Hrest in Hv; [done|]. rewrite app_assoc. apply elem_of_app.
      by left. }
  assert (Hbag : negb (bool_decide (dom rest = ∅))
                 && negb (is_not_None (keywords (argspec_of fn))) = false).
  { destruct (keywords (argspec_of fn)) as [k|].
    - simpl. by rewrite andb_false_r.
    - rewrite Hkw by done. by rewrite dom_empty_L, bool_decide_true. }
  rewrite Hbag.
  rewrite (bool_decide_false (_ < _)%nat) by (rewrite !length_app; lia).
  cbn [andb].
  rewrite (bind_rest_keywords _ _ _ _ rv); first last.
  { apply (bound_ext (list_to_map (zip kn rv))).
    - intros n Hn. apply lookup_union_l. apply Hrest.
      rewrite !elem_of_app. auto.
    - by apply bound_list_to_map_zip. }
  do 3 f_equal. rewrite (zip_with_app pair) by done.
  rewrite <- app_assoc. do 2 f_equal. unfold tl. by destruct mk.
Qed.

Lemma filter_all {A} (P : A → Prop) `{!∀ x, Decision (P x)} (l : list A) :
  (∀ x, x ∈ l → P x) → filter P l = l.
Proof.
  induction l as [|x l IH]; intros Hall; [done|].
  rewrite filter_cons_True by (apply Hall; by left).
  f_equal. apply IH. intros y Hy. apply Hall. by right.
Qed.

Lemma filter_none {A} (P : A → Prop) `{!∀ x, Decision (P x)} (l : list A) :
  (∀ x, x ∈ l → ¬ P x) → filter P l = [].
Proof.
  induction l as [|x l IH]; intros Hall; [done|].
  rewrite filter_cons_False by (apply Hall; by left).
  apply IH. intros y Hy. apply Hall. by right.
Qed.

Lemma fmap_fst_recorded_default kws : (recorded_default <$> kws).*1 = kws.*1.
Proof. rewrite <- list_fmap_compose. by apply list_fmap_ext. Qed.

Lemma fmap_fst_marker (mk : option string) :
  ((λ m, (m, vararg)) <$> option_list mk).*1 = option_list mk.
Proof. by destruct mk. Qed.

(** The walk over plain parameters, a marker or none, and keyword-only
    parameters. *)
Lemma walk_plain_marker_kwonly w fn argspec plains mk kws st :
  varargs argspec = None →
  Forall plain_param plains → Forall kwonly_param kws →
  walk w fn (initial_walk_state argspec)
       (plains ++ ((λ m, (m, vararg)) <$> option_list mk) ++ kws) = Return st →
  kwonly_defaults st = recorded_default <$> kws ∧ found_vararg st = mk.
Proof.
  intros Hva Hp Hk. destruct mk as [m|]; simpl.
  - change (plains ++ (m, vararg) :: kws)
      with (plains ++ [(m, vararg)] ++ kws).
    rewrite app_assoc, walk_app.
    rewrite (walk_to_marker _ _ _ plains [] m) by done.
    rewrite bind_Return, walk_kwonlys by done. by intros [= <-].
  - rewrite walk_valid_prefix by done. intros [= <-]. by rewrite Hva.
Qed.

Lemma kwargname_is_not_f w fn :
  "f" ∉ declared_names (argspec_of fn) → kwargname_of w (argspec_of fn) ≠ "f".
Proof.
  intros Hf. unfold kwargname_of, declared_names in *.
  destruct (keywords (argspec_of fn)) as [k|]; simpl.
  - destruct (bool_decide (k = "")); simpl; [done|].
    intros ->. apply Hf. rewrite !elem_of_app. right. right. by left.
  - done.
Qed.

(** X12: the parameters that the function given sees at a call of the new
    function.  For a function without a variadic parameter of its own,
    whose parameters are plain ones, then a marker or none, then
    keyword-only ones, and none of whose names is [f]: a call of the new
    function that gives the plain parameters by position and leaves no
    keyword-only parameter missing runs the body of the function given
    with the plain parameters bound to the positional values, the marker
    to the tuple of the other positional values, every keyword-only
    parameter to the keyword argument of its name, or else to its
    default, and the parameter for other keyword arguments, if the
    function has one, to the keyword arguments that are left; without
    such a parameter, none may be left. *)
Theorem decorated_call_binds_parameters
  w h a fn h' g impl plains mk kws :
  h !! a = Some fn → well_formed w fn →
  with_kwonly w h (VFunc a) = Return (h', g) → g ≠ VFunc a →
  co_code (__code__ fn) = Native impl →
  varargs (argspec_of fn) = None →
  paired_defaults (argspec_of fn)
  = plains ++ ((λ m, (m, vararg)) <$> option_list mk) ++ kws →
  Forall plain_param plains → Forall kwonly_param kws →
  "f" ∉ declared_names (argspec_of fn) →
  ∀ fuel pvals extras (kw : gmap string value),
    length pvals = length plains →
    (mk = None → extras = []) →
    (∀ n, n ∈ plains.*1 ++ option_list mk → kw !! n = None) →
    unresolved (recorded_default <$> kws) kw = [] →
    (keywords (argspec_of fn) = None →
     ∀ n, n ∉ kws.*1 → kw !! n = None) →
    call_value (S (S fuel)) h' g (pvals ++ extras) kw
    = impl (bind_opt (keywords (argspec_of fn))
              (VDict (foldl (λ m n, delete n m) kw (kws.*1)))
              (list_to_map
                 (zip (plains.*1) pvals
                  ++ match mk with
                     | Some m => [(m, VTuple extras)]
                     | None => []
                     end
                  ++ zip (kws.*1)
                         (resolved kw <$> (recorded_default <$> kws))))).
Proof.
  intros Ha Hwf Hr Hg Himpl Hva Hshape Hp Hk Hf
    fuel pvals extras kw Hlen Hex Hkw Hm Hbag.
  destruct (with_kwonly_rewrites_inv _ _ _ _ _ _ Ha Hwf Hr Hg)
    as (st & Hw & _ & _ & -> & ->).
  assert (Hst := Hw). rewrite Hshape in Hst.
  apply walk_plain_marker_kwonly in Hst as [Hkd Hfv]; try done.
  pose proof Hwf as (_ & Hnd & Hlend & _).
  assert (Hargs : args (argspec_of fn)
                  = plains.*1 ++ option_list mk ++ kws.*1).
  { rewrite <- paired_defaults_names, Hshape by done.
    by rewrite !fmap_app, fmap_fst_marker. }
  assert (Hnda : NoDup (plains.*1 ++ option_list mk ++ kws.*1)).
  { rewrite <- Hargs. unfold declared_names in Hnd. rewrite app_assoc in Hnd.
    apply NoDup_app in Hnd as (Hnd & _ & _).
    by apply NoDup_app in Hnd as (? & _ & _). }
  assert (Hplain : plain_names (argspec_of fn) st = plains.*1).
  { unfold plain_names.
    rewrite Hargs, Hkd, Hfv, fmap_fst_recorded_default, !filter_app.
    apply NoDup_app in Hnda as (_ & Hd1 & Hnda).
    apply NoDup_app in Hnda as (_ & Hd2 & _).
    rewrite filter_all, !filter_none, !app_nil_r; [done| | |].
    - intros x Hx [Hx' _]. done.
    - intros x Hx [_ Hx']. by apply elem_of_option_list in Hx.
    - intros x Hx. split.
      + intros Hx'. apply (Hd1 x Hx). apply elem_of_app. by right.
      + intros Hx'. apply (Hd1 x Hx). apply elem_of_app. left.
        by apply elem_of_option_list. }
  rewrite (call_synthesized_resolved w h a fn st Hwf Hw); first last.
  - rewrite Hplain, Hkd, Hfv, fmap_fst_recorded_default.
    rewrite !elem_of_app, list_elem_of_singleton.
    intros [Hx|[Hx|[Hx|Hx]]].
    + apply Hf. unfold declared_names. rewrite Hargs, !elem_of_app. auto.
    + apply Hf. unfold declared_names. rewrite Hargs, !elem_of_app. auto.
    + by apply (kwargname_is_not_f w fn).
    + apply Hf. unfold declared_names. rewrite Hargs, !elem_of_app. auto.
  - by rewrite Hkd.
  - intros n Hn. apply Hkw. rewrite Hplain in Hn. apply elem_of_app. by left.
  - by rewrite Hfv.
  - by rewrite Hplain, length_fmap.
  - cbn [call_value].
    rewrite (original_survives w h a fn st Ha), Himpl.
    unfold forwarded_args, forwarded_keywords.
    rewrite Hkd, Hfv, fmap_fst_recorded_default.
    rewrite (bind_args_positions_then_keywords fn (plains.*1) mk (kws.*1));
      try done.
    + by rewrite length_fmap.
    + by rewrite !length_fmap.
    + intros n Hn. rewrite app_assoc in Hn.
      apply elem_of_app in Hn as [Hn|Hn].
      * rewrite foldl_delete_notin; [by apply Hkw|].
        rewrite app_assoc in Hnda. apply NoDup_app in Hnda as (_ & Hd & _).
        by apply Hd.
      * by apply foldl_delete_in.
    + intros Hnone. apply map_empty. intros n.
      destruct (decide (n ∈ kws.*1)).
      * by apply foldl_delete_in.
      * rewrite foldl_delete_notin by done. by apply Hbag.
Qed.

Lemma decorated_call_binds_parameters_witness :
  ∃ h' g,
    with_kwonly example_world (example_heap f_doc) (VFunc example_addr)
    = Return (h', g)
    ∧ call_value 2 h' g [VInt 1; VInt 2; VInt 3]
        {[ "b" := VStr "b"; "f" := VStr "f" ]}
      = Return (VTuple [VInt 1; VStr "b"; VStr "default";
                        VTuple [VInt 2; VInt 3];
                        VDict {[ "f" := VStr "f" ]}]).
Proof.
  pose (st := WalkState [("b", no_default); ("c", VStr "default")]
                        (Some "c") (Some "args") false).
  assert (Hr : with_kwonly example_world (example_heap f_doc)
                 (VFunc example_addr)
    = Return (<[fresh (dom (example_heap f_doc))
                := synthesized example_world (VFunc example_addr) f_doc st]>
                (example_heap f_doc),
              VFunc (fresh (dom (example_heap f_doc))))).
  { apply (with_kwonly_synthesizes _ _ _ f_doc st);
      [reflexivity|exact f_doc_well_formed|reflexivity|discriminate
      |discriminate]. }
  eexists _, _. split; [exact Hr|].
  rewrite (decorated_call_binds_parameters
             example_world (example_heap f_doc) example_addr f_doc _ _
             (λ locals, Return (VTuple ((λ n, default VNone (locals !! n))
                <$> ["a"; "b"; "c"; "args"; "kwargs"])))
             [("a", no_default)] (Some "args")
             [("b", VKwonly no_default); ("c", VKwonly (VStr "default"))]
             eq_refl f_doc_well_formed Hr
             ltac:(by vm_compute) eq_refl eq_refl eq_refl
             ltac:(by repeat constructor) ltac:(by repeat constructor)
             ltac:(by apply (bool_decide_unpack _); vm_compute)
             0%nat [VInt 1] [VInt 2; VInt 3]
             {[ "b" := VStr "b"; "f" := VStr "f" ]}).
  - by vm_compute.
  - reflexivity.
  - discriminate.
  - intros n Hn. apply (bool_decide_unpack _) in Hn || idtac.
    repeat (apply elem_of_cons in Hn as [->|Hn]; [reflexivity|]).
    by apply elem_of_nil in Hn.
  - reflexivity.
  - discriminate.
Defined.

(** ** Forwarding on an example *)

Lemma with_kwonly_forwards_witness :
  ∃ h' g,
    with_kwonly example_world (example_heap f_one_kwonly)
                (VFunc example_addr) = Return (h', g)
    ∧ call_value 2 h' g [VInt 1] {[ "b" := VInt 2 ]}
      = call_value 1 h' (VFunc example_addr) [VInt 1] {[ "b" := VInt 2 ]}.
Proof.
  pose (st := WalkState [("b", no_default)] (Some "b") None false).
  pose (hp := example_heap f_one_kwonly).
  assert (Hr : with_kwonly example_world hp (VFunc example_addr)
    = Return (<[fresh (dom hp)
                := synthesized example_world (VFunc example_addr)
                     f_one_kwonly st]> hp,
              VFunc (fresh (dom hp)))).
  { apply (with_kwonly_synthesizes _ _ _ f_one_kwonly st);
      [reflexivity|exact f_one_kwonly_well_formed|reflexivity
      |discriminate|discriminate]. }
  destruct (with_kwonly_forwards
              example_world hp example_addr f_one_kwonly _ _
              (eq_refl : hp !! example_addr = Some f_one_kwonly)
              f_one_kwonly_well_formed Hr)
    as (st' & Hw & Hcall).
  { by vm_compute. }
  { by apply (bool_decide_unpack _); vm_compute. }
  { by vm_compute. }
  assert (st' = st) as -> by (vm_compute in Hw; by injection Hw as <-).
  eexists _, _. split; [exact Hr|].
  rewrite (Hcall 1%nat [VInt 1] [] {[ "b" := VInt 2 ]});
    [by vm_compute|reflexivity|done| |reflexivity].
  intros n Hn. apply list_elem_of_singleton in Hn as ->. reflexivity.
Defined.

(** ** A keyword-only parameter before the variadic one *)

Lemma f_kwonly_before_marker_well_formed :
  well_formed example_world f_kwonly_before_marker.
Proof. example_well_formed. Qed.

Lemma walk_with_marker w fn argspec plains kws m kws2 :
  varargs argspec = None →
  Forall plain_param plains → Forall kwonly_param kws →
  Forall kwonly_param kws2 →
  ∃ fk,
    walk w fn (initial_walk_state argspec)
         (plains ++ kws ++ (m, vararg) :: kws2)
    = Return (WalkState (recorded_default <$> (kws ++ kws2)) fk (Some m) false).
Proof.
  intros Hva Hp Hk Hk2.
  replace (plains ++ kws ++ (m, vararg) :: kws2)
    with ((plains ++ kws ++ [(m, vararg)]) ++ kws2)
    by (by rewrite <- !app_assoc).
  rewrite walk_app, walk_to_marker, bind_Return by done.
  rewrite walk_kwonlys by done. eexists. simpl. by rewrite fmap_app.
Qed.

(** A parameter given by position and by keyword. *)
Lemma bind_args_given_twice fn pos (kw : gmap string value) n :
  n ∈ take (length pos) (args (argspec_of fn)) → is_Some (kw !! n) →
  bind_args fn pos kw = Raise (arg_error (co_name (__code__ fn))).
Proof.
  intros Hin Hn. unfold bind_args. rewrite bool_decide_true; [done|].
  apply Exists_exists. eauto.
Qed.

Lemma identifiers_nonempty (l : list (string * value)) :
  Forall (λ n, is_identifier n = true) (l.*1) → Forall (λ nv, nv.1 ≠ "") l.
Proof.
  intros Hid. apply Forall_fmap in Hid. eapply Forall_impl; [exact Hid|].
  intros nv Hn. by apply is_identifier_nonempty.
Qed.

(** X13: a keyword-only parameter must not come before the variadic
    parameter.  When a keyword-only parameter is declared before the
    marker, or in a function with a variadic parameter of its own, the
    decoration returns a function every call of which raises a
    TypeError: the new function hands the tuple of the extra positional
    values to the function given as the next positional argument, which
    is the keyword-only parameter, and gives that parameter by keyword
    too. *)
Theorem keyword_only_before_variadic_never_binds
  w h a fn h' g plains k d post :
  h !! a = Some fn → well_formed w fn →
  with_kwonly w h (VFunc a) = Return (h', g) → g ≠ VFunc a →
  "f" ∉ declared_names (argspec_of fn) →
  paired_defaults (argspec_of fn) = plains ++ (k, VKwonly d) :: post →
  Forall plain_param plains →
  is_not_None (varargs (argspec_of fn)) = true ∨ (∃ m, (m, vararg) ∈ post) →
  ∀ fuel pvals extras (kw : gmap string value),
    length pvals = length plains →
    (∀ n, n ∈ plains.*1 → kw !! n = None) →
    ∃ msg, call_value (S (S fuel)) h' g (pvals ++ extras) kw
           = Raise (Exc TypeError [VStr msg]).
Proof.
  intros Ha Hwf Hr Hg Hf Hshape Hp Hvar fuel pvals extras kw Hlen Hkw.
  destruct (with_kwonly_rewrites_inv _ _ _ _ _ _ Ha Hwf Hr Hg)
    as (st & Hw & _ & _ & -> & ->).
  pose proof Hwf as (Hid & Hnd & Hlend & _).
  assert (Hargs : args (argspec_of fn) = plains.*1 ++ k :: post.*1).
  { rewrite <- paired_defaults_names, Hshape by done. by rewrite fmap_app. }
  unfold declared_names in Hid, Hnd. rewrite app_assoc in Hid, Hnd.
  apply Forall_app in Hid as [Hid _].
  apply NoDup_app in Hnd as (Hnd & _ & _).
  assert (Hne : Forall (λ nv, nv.1 ≠ "") (paired_defaults (argspec_of fn))).
  { apply identifiers_nonempty. rewrite paired_defaults_names by done.
    by apply Forall_app in Hid as [? _]. }
  (* what the walk has recorded *)
  assert (Hst : ∃ rest v,
            kwonly_defaults st = (k, d) :: rest ∧ rest.*1 ++ [v] ≡ₚ post.*1 ++
              option_list (varargs (argspec_of fn))
            ∧ found_vararg st = Some v).
  { assert (Hw' := Hw). rewrite Hshape in Hw'.
    rewrite walk_app, walk_plains, bind_Return in Hw';
      [|done|apply no_marker_initially|done].
    cbn [walk] in Hw'. rewrite walk_step_kwonly, bind_Return in Hw' by done.
    rewrite Hshape in Hne. apply Forall_app in Hne as [_ Hne].
    apply Forall_cons in Hne as [Hk Hne].
    apply walk_after_kwonly_inv with (k := k) in Hw' as Hpost;
      [|done|done|done|apply no_marker_initially].
    destruct Hpost as [Hall|(kws & m & kws2 & Hfv & Hk1 & Hk2 & ->)].
    - destruct Hvar as [Hnative|[m Hm]].
      + rewrite walk_kwonlys in Hw' by done. injection Hw' as <-.
        destruct (varargs (argspec_of fn)) as [v|] eqn:Hva; [|done].
        exists (recorded_default <$> post), v. simpl.
        split_and!; [done| |exact Hva]. by rewrite fmap_fst_recorded_default.
      + rewrite Forall_forall in Hall. by apply Hall in Hm.
    - change (found_vararg (initial_walk_state (argspec_of fn)) = None)
        in Hfv. simpl in Hfv.
      destruct (walk_with_marker w fn (argspec_of fn) plains
                  ((k, VKwonly d) :: kws) m kws2) as [fk Hwm]; try done.
      { by constructor. }
      rewrite Hshape in Hw. rewrite <- app_comm_cons in Hwm.
      rewrite Hwm in Hw. injection Hw as <-.
      exists (recorded_default <$> (kws ++ kws2)), m. simpl.
      rewrite Hfv, app_nil_r, fmap_fst_recorded_default, !fmap_app.
      split_and!; [done| |done]. simpl.
      rewrite <- app_assoc. apply Permutation_app_head.
      symmetry. apply Permutation_cons_append. }
  destruct Hst as (rest & v & Hkd & Hperm & Hfv).
  rewrite Hargs in Hnd. apply NoDup_app in Hnd as (Hnda & Hdv & _).
  apply NoDup_app in Hnda as (_ & Hd1 & _).
  assert (Hrest : ∀ x, x ∈ rest.*1 ++ [v] →
            x ∈ post.*1 ∨ varargs (argspec_of fn) = Some x).
  { intros x Hx. rewrite Hperm in Hx. apply elem_of_app in Hx as [Hx|Hx].
    - by left.
    - right. by apply elem_of_option_list. }
  assert (Hpost : ∀ x, x ∈ post.*1 → x ∈ rest.*1 ++ [v]).
  { intros x Hx. rewrite Hperm. apply elem_of_app. by left. }
  assert (Hplain : plain_names (argspec_of fn) st = plains.*1).
  { unfold plain_names. rewrite Hargs, Hkd, Hfv, filter_app.
    rewrite filter_all, filter_none, app_nil_r; [done| |].
    - intros x Hx [Hx1 Hx2]. apply elem_of_cons in Hx as [->|Hx].
      { apply Hx1. by left. }
      apply Hpost, elem_of_app in Hx as [Hx|Hx].
      + apply Hx1. by right.
      + apply list_elem_of_singleton in Hx. by subst.
    - intros x Hx. split.
      + intros Hx'. apply elem_of_cons in Hx' as [->|Hx'].
        { apply (Hd1 k Hx). by left. }
        destruct (Hrest x) as [Hx''|Hx''].
        * apply elem_of_app. by left.
        * apply (Hd1 x Hx). by right.
        * apply (Hdv x); [apply elem_of_app; by left|].
          by apply elem_of_option_list.
      + intros [= ->]. destruct (Hrest x) as [Hx''|Hx''].
        * apply elem_of_app. right. by left.
        * apply (Hd1 x Hx). by right.
        * apply (Hdv x); [apply elem_of_app; by left|].
          by apply elem_of_option_list. }
  destruct (unresolved (kwonly_defaults st) kw) as [|m0 ms] eqn:Hm.
  - (* the function given is called, and refuses the call *)
    rewrite (call_synthesized_resolved w h a fn st Hwf Hw); first last.
    + rewrite Hplain, Hkd, Hfv.
      rewrite !elem_of_app, list_elem_of_singleton.
      assert (Hin : ∀ x, x ∈ args (argspec_of fn)
                             ++ option_list (varargs (argspec_of fn))
                    → x ≠ "f").
      { intros x Hx ->. apply Hf. unfold declared_names.
        rewrite app_assoc. apply elem_of_app. by left. }
      assert (Hrestf : ∀ x, x ∈ rest.*1 ++ [v] → x ≠ "f").
      { intros x Hx. apply Hin. destruct (Hrest x Hx) as [Hx'|Hx'].
        - rewrite Hargs, !elem_of_app, elem_of_cons. auto.
        - apply elem_of_app. right. by apply elem_of_option_list. }
      intros [Hx|[Hx|[Hx|Hx]]].
      * apply (Hin "f"); [|done]. rewrite Hargs, !elem_of_app. auto.
      * apply elem_of_option_list in Hx. injection Hx as ->.
        apply (Hrestf "f"); [|done]. apply elem_of_app. right. by left.
      * by apply (kwargname_is_not_f w fn).
      * simpl in Hx. apply elem_of_cons in Hx as [Hx|Hx].
        -- apply (Hin "f"); [|done]. rewrite Hargs, !elem_of_app.
           left. right. rewrite <- Hx. by left.
        -- apply (Hrestf "f"); [|done]. apply elem_of_app. by left.
    + done.
    + intros n Hn. apply Hkw. by rewrite <- Hplain.
    + by rewrite Hfv.
    + by rewrite Hplain, length_fmap.
    + cbn [call_value]. rewrite (original_survives w h a fn st Ha).
      rewrite (bind_args_given_twice _ _ _ k), bind_Raise; [by eexists| |].
      * rewrite Hargs, Hfv. unfold forwarded_args.
        rewrite length_app, take_app_ge by (rewrite length_fmap; lia).
        apply elem_of_app. right.
        rewrite length_fmap.
        replace (length pvals + length [VTuple extras] - length plains)%nat
          with 1%nat by (simpl; lia).
        by left.
      * unfold forwarded_keywords. rewrite Hkd. simpl.
        exists (resolved kw (k, d)).
        apply lookup_union_Some_l. apply lookup_insert_eq.
  - rewrite (call_synthesized_missing w h a fn st Ha Hwf Hw); first last.
    + by rewrite Hm.
    + intros n Hn. apply Hkw. by rewrite <- Hplain.
    + by rewrite Hfv.
    + by rewrite Hplain, length_fmap.
    + unfold missing_error. by eexists.
Qed.

Lemma keyword_only_before_variadic_never_binds_witness :
  ∃ h' g,
    with_kwonly example_world (example_heap f_kwonly_before_marker)
                (VFunc example_addr) = Return (h', g)
    ∧ ∃ msg, call_value 2 h' g [VInt 1; VInt 7] {[ "b" := VInt 2 ]}
             = Raise (Exc TypeError [VStr msg]).
Proof.
  pose (st := WalkState [("b", no_default)] (Some "b") (Some "args") false).
  pose (hp := example_heap f_kwonly_before_marker).
  assert (Hr : with_kwonly example_world hp (VFunc example_addr)
    = Return (<[fresh (dom hp)
                := synthesized example_world (VFunc example_addr)
                     f_kwonly_before_marker st]> hp,
              VFunc (fresh (dom hp)))).
  { apply (with_kwonly_synthesizes _ _ _ f_kwonly_before_marker st);
      [reflexivity|exact f_kwonly_before_marker_well_formed|reflexivity
      |discriminate|discriminate]. }
  eexists _, _. split; [exact Hr|].
  apply (keyword_only_before_variadic_never_binds
           example_world hp example_addr f_kwonly_before_marker _ _
           [("a", no_default)] "b" no_default [("args", vararg)]
           eq_refl f_kwonly_before_marker_well_formed Hr
           ltac:(by vm_compute)
           ltac:(by apply (bool_decide_unpack _); vm_compute)
           eq_refl ltac:(by repeat constructor)
           ltac:(right; exists "args"; by left)
           0%nat [VInt 1] [VInt 7] {[ "b" := VInt 2 ]}).
  - reflexivity.
  - intros n Hn. apply list_elem_of_singleton in Hn as ->. reflexivity.
Defined.

(** ** Keyword arguments that name no parameter *)

Lemma f_kwonly_default_two_well_formed :
  well_formed example_world f_kwonly_default_two.
Proof. example_well_formed. Qed.

Lemma f_is_not_local w fn st :
  well_formed w fn →
  walk w fn (initial_walk_state (argspec_of fn))
       (paired_defaults (argspec_of fn)) = Return st →
  "f" ∉ declared_names (argspec_of fn) →
  "f" ∉ plain_names (argspec_of fn) st ++ option_list (found_vararg st)
        ++ [kwargname_of w (argspec_of fn)] ++ (kwonly_defaults st).*1.
Proof.
  intros Hwf Hw Hf.
  destruct (walk_names _ _ _ Hwf Hw) as (Hsub & _ & _).
  assert (Hargs : "f" ∉ args (argspec_of fn)
                        ++ option_list (varargs (argspec_of fn))).
  { intros Hin. apply Hf. unfold declared_names. rewrite app_assoc.
    apply elem_of_app. by left. }
  assert (Hin : ∀ x, x ∈ (kwonly_defaults st).*1
                         ++ option_list (found_vararg st) → x ≠ "f").
  { intros x Hx ->. apply Hargs. by eapply elem_of_submseteq. }
  rewrite !elem_of_app, list_elem_of_singleton.
  intros [Hx|[Hx|[Hx|Hx]]].
  - unfold plain_names in Hx. apply list_elem_of_filter in Hx as [_ Hx].
    apply Hargs, elem_of_app. by left.
  - apply (Hin "f"); [|done]. apply elem_of_app. by right.
  - by apply (kwargname_is_not_f w fn).
  - apply (Hin "f"); [|done]. apply elem_of_app. by left.
Qed.

(** A keyword argument that names no parameter, in a call of a function
    that has no parameter for such arguments. *)
Lemma bind_args_unknown_keyword fn pos (kw : gmap string value) n :
  keywords (argspec_of fn) = None →
  is_Some (kw !! n) → n ∉ args (argspec_of fn) →
  bind_args fn pos kw = Raise (arg_error (co_name (__code__ fn))).
Proof.
  intros Hk [v Hv] Hn. unfold bind_args.
  destruct (bool_decide (Exists _ _)); [done|].
  rewrite Hk. cbn [is_not_None negb]. rewrite andb_true_r.
  rewrite bool_decide_false; [done|].
  intros Hdom. apply dom_empty_inv_L in Hdom.
  assert (Hl : filter (λ kv : string * value, kv.1 ∉ args (argspec_of fn)) kw
               !! n = Some v) by (by apply map_lookup_filter_Some).
  by rewrite Hdom in Hl.
Qed.

(** X14: the new function takes every keyword argument, and hands those
    that name no keyword-only parameter on.  So when the function given
    has no parameter for other keyword arguments, a keyword argument
    that names none of its parameters makes the call raise a TypeError,
    as it does for the function given. *)
Theorem unknown_keyword_is_refused w h a fn h' g :
  h !! a = Some fn → well_formed w fn →
  with_kwonly w h (VFunc a) = Return (h', g) → g ≠ VFunc a →
  "f" ∉ declared_names (argspec_of fn) →
  keywords (argspec_of fn) = None →
  ∃ st,
    walk w fn (initial_walk_state (argspec_of fn))
         (paired_defaults (argspec_of fn)) = Return st
    ∧ ∀ fuel pvals extras (kw : gmap string value) n,
        length pvals = length (plain_names (argspec_of fn) st) →
        (found_vararg st = None → extras = []) →
        (∀ m, m ∈ plain_names (argspec_of fn) st → kw !! m = None) →
        is_Some (kw !! n) → n ∉ args (argspec_of fn) →
        ∃ msg, call_value (S (S fuel)) h' g (pvals ++ extras) kw
               = Raise (Exc TypeError [VStr msg]).
Proof.
  intros Ha Hwf Hr Hg Hf Hk.
  destruct (with_kwonly_rewrites_inv _ _ _ _ _ _ Ha Hwf Hr Hg)
    as (st & Hw & _ & _ & -> & ->).
  exists st. split; [done|].
  intros fuel pvals extras kw n Hlen Hex Hkw [v Hv] Hn.
  destruct (unresolved (kwonly_defaults st) kw) as [|m0 ms] eqn:Hm.
  - rewrite (call_synthesized_resolved w h a fn st Hwf Hw);
      [|done|done|done|done|by apply f_is_not_local].
    cbn [call_value]. rewrite (original_survives w h a fn st Ha).
    rewrite (bind_args_unknown_keyword _ _ _ n), bind_Raise;
      [by eexists|done| |done].
    exists v. unfold forwarded_keywords.
    destruct (walk_names _ _ _ Hwf Hw) as (Hsub & _ & _).
    assert (Hnk : n ∉ (kwonly_defaults st).*1).
    { intros Hin. apply Hn.
      assert (Hin' : n ∈ args (argspec_of fn)
                         ++ option_list (varargs (argspec_of fn))).
      { eapply elem_of_submseteq; [|exact Hsub]. apply elem_of_app. by left. }
      apply elem_of_app in Hin' as [?|Hin']; [done|].
      apply elem_of_option_list in Hin'.
      destruct (walk_names _ _ _ Hwf Hw) as (_ & _ & [Hfv|Hnone]).
      - destruct Hwf as (_ & Hnd & _). unfold declared_names in Hnd.
        eapply NoDup_of_submseteq in Hsub.
        2:{ rewrite app_assoc in Hnd. by apply NoDup_app in Hnd as (? & _ & _). }
        apply NoDup_app in Hsub as (_ & Hd & _). destruct (Hd n Hin).
        apply elem_of_option_list. by rewrite Hfv.
      - by rewrite Hnone in Hin'. }
    rewrite lookup_union_r.
    + by rewrite foldl_delete_notin.
    + apply not_elem_of_list_to_map_1.
      by rewrite fst_zip by (by rewrite !length_fmap).
  - rewrite (call_synthesized_missing w h a fn st Ha Hwf Hw); try done.
    + unfold missing_error. by eexists.
    + by rewrite Hm.
Qed.

Lemma unknown_keyword_is_refused_witness :
  ∃ h' g,
    with_kwonly example_world (example_heap f_kwonly_default_two)
                (VFunc example_addr) = Return (h', g)
    ∧ (∃ msg, call_value 2 h' g [VInt 1] {[ "z" := VInt 3 ]}
              = Raise (Exc TypeError [VStr msg]))
    ∧ call_value 2 h' g [VInt 1] ∅ = Return (VTuple [VInt 1; VInt 2]).
Proof.
  pose (st := WalkState [("b", VInt 2)] (Some "b") None false).
  pose (hp := example_heap f_kwonly_default_two).
  assert (Hr : with_kwonly example_world hp (VFunc example_addr)
    = Return (<[fresh (dom hp)
                := synthesized example_world (VFunc example_addr)
                     f_kwonly_default_two st]> hp,
              VFunc (fresh (dom hp)))).
  { apply (with_kwonly_synthesizes _ _ _ f_kwonly_default_two st);
      [reflexivity|exact f_kwonly_default_two_well_formed|reflexivity
      |discriminate|discriminate]. }
  destruct (unknown_keyword_is_refused
              example_world hp example_addr f_kwonly_default_two _ _
              (eq_refl : hp !! example_addr = Some f_kwonly_default_two)
              f_kwonly_default_two_well_formed Hr)
    as (st' & Hw & Hcall).
  { by vm_compute. }
  { by apply (bool_decide_unpack _); vm_compute. }
  { reflexivity. }
  assert (st' = st) as -> by (vm_compute in Hw; by injection Hw as <-).
  eexists _, _. split; [exact Hr|]. split; [|by vm_compute].
  apply (Hcall 0%nat [VInt 1] [] {[ "z" := VInt 3 ]} "z").
  - reflexivity.
  - done.
  - intros m Hm. apply list_elem_of_singleton in Hm as ->. reflexivity.
  - by eexists.
  - by apply (bool_decide_unpack _); vm_compute.
Defined.
